(** * Two cleaning bots: A* path planning, greedy task assignment,
      route building and coverage simulation

    A shallow embedding of [cleaning-bot.py].  Python integers are [Z],
    grid cells are pairs of integers, the grid is a list of rows, the
    dictionaries [gscore], [fscore], [came], [assignments], [est_pos] and
    [est_len] are [gmap]s, and the sets [dirty]/[cleaned] are a list in
    iteration order and a [gset].  Exceptions the script can raise are
    values of [exn]; every [while] loop runs on a binary fuel that is
    proved sufficient. *)

From Stdlib Require Import ZArith Lia QArith.QArith_base.
From stdpp Require Import numbers gmap sets list.

#[local] Open Scope Z_scope.

(** ** Exceptions and results *)

Inductive exn : Set := IndexError | KeyError | ZeroDivisionError.

(** [OutOfFuel] is not a Python outcome: it marks a loop of the model
    that ran out of fuel.  [astar_total] and its relatives show that it
    is never produced. *)
Inductive res (A : Type) : Type :=
| Ok (a : A)
| Raise (e : exn)
| OutOfFuel.
Arguments Ok {A} a.
Arguments Raise {A} e.
Arguments OutOfFuel {A}.

Definition res_bind {A B} (m : res A) (k : A → res B) : res B :=
  match m with
  | Ok a => k a
  | Raise e => Raise e
  | OutOfFuel => OutOfFuel
  end.

Notation "'letM' x ':=' m 'in' k" := (res_bind m (fun x => k))
  (at level 10, x name, m at level 100, k at level 200,
   format "'letM'  x  :=  m  'in'  '/' k").

(** A [for] loop over a list, threading the loop's variables. *)
Fixpoint for_each {A B} (f : B → A → res B) (b : B) (l : list A) : res B :=
  match l with
  | [] => Ok b
  | a :: l' => letM b' := f b a in for_each f b' l'
  end.

(** ** While loops *)

Section While.
Context {S R : Type} (body : S → S + R).

(** [n] iterations of the loop body, stopping at the first result. *)
Fixpoint while_nat (n : nat) (s : S) : S + R :=
  match n with
  | O => inl s
  | Datatypes.S n' =>
      match body s with
      | inl s' => while_nat n' s'
      | inr r => inr r
      end
  end.

(** The same on a binary counter, so that large bounds stay cheap. *)
Fixpoint while_fuel (p : positive) (s : S) : S + R :=
  match p with
  | xH => body s
  | xO p' =>
      match while_fuel p' s with
      | inl s' => while_fuel p' s'
      | inr r => inr r
      end
  | xI p' =>
      match body s with
      | inl s1 =>
          match while_fuel p' s1 with
          | inl s2 => while_fuel p' s2
          | inr r => inr r
          end
      | inr r => inr r
      end
  end.
End While.

Definition run_while {S A} (body : S → S + res A) (fuel : positive) (s : S)
  : res A :=
  match while_fuel body fuel s with
  | inl _ => OutOfFuel
  | inr r => r
  end.

(** ** Grid and cells *)

Abbreviation cell := (Z * Z)%type.
Abbreviation grid_t := (list (list Z)).

(** [l[i]] of Python: a negative index counts from the end. *)
Definition py_index {A} (l : list A) (i : Z) : res A :=
  let j := if i <? 0 then i + Z.of_nat (length l) else i in
  if (0 <=? j) && (j <? Z.of_nat (length l)) then
    match l !! Z.to_nat j with
    | Some x => Ok x
    | None => Raise IndexError
    end
  else Raise IndexError.

Definition len {A} (l : list A) : Z := Z.of_nat (length l).

(** ** A* search *)

Definition h (a b : cell) : Z := Z.abs (a.1 - b.1) + Z.abs (a.2 - b.2).

Definition neighbors : list (Z * Z) := [(1, 0); (-1, 0); (0, 1); (0, -1)].

Abbreviation entry := (Z * cell)%type.

(** Python's order on tuples [(f, (r, c))]. *)
Definition entry_leb (x y : entry) : bool :=
  (x.1 <? y.1)
  || ((x.1 =? y.1)
      && ((x.2.1 <? y.2.1) || ((x.2.1 =? y.2.1) && (x.2.2 <=? y.2.2)))).

(** [heapq] keeps a binary heap in an array.  Its layout is not
    modelled: [heappop] returns the least tuple under [entry_leb], and two
    integer tuples that compare equal are the same value, so the multiset
    of entries decides every pop. *)
Definition heappush (hp : list entry) (x : entry) : list entry := x :: hp.

Fixpoint heappop (hp : list entry) : option (entry * list entry) :=
  match hp with
  | [] => None
  | x :: t =>
      match heappop t with
      | None => Some (x, [])
      | Some (y, t') =>
          if entry_leb x y then Some (x, t) else Some (y, x :: t')
      end
  end.

Record search := Search {
  open_heap : list entry;
  gscore : gmap cell Z;
  fscore : gmap cell Z;
  came : gmap cell cell
}.

(** [d[k]] of a dictionary. *)
Definition dict_get {V} (d : gmap cell V) (k : cell) : res V :=
  match d !! k with
  | Some v => Ok v
  | None => Raise KeyError
  end.

(** The float [1e9] that stands for an unknown cost. *)
Definition BIG : Z := 1000000000.

(** One pass of the body of [for dr, dc in neighbors]. *)
Definition relax (goal : cell) (grid : grid_t) (H W : Z) (current : cell)
    (st : search) (d : Z * Z) : res search :=
  let nr := current.1 + d.1 in
  let nc := current.2 + d.2 in
  if bool_decide (0 ≤ nr < H ∧ 0 ≤ nc < W) then
    letM row := py_index grid nr in
    letM v := py_index row nc in
    if v =? 0 then
      let neigh := (nr, nc) in
      letM gc := dict_get (gscore st) current in
      let tentative := gc + 1 in
      if tentative <? default BIG (gscore st !! neigh) then
        Ok {| came := <[neigh := current]> (came st);
              gscore := <[neigh := tentative]> (gscore st);
              fscore := <[neigh := tentative + h neigh goal]> (fscore st);
              open_heap :=
                heappush (open_heap st) (tentative + h neigh goal, neigh) |}
      else Ok st
    else Ok st
  else Ok st.

Definition expand (goal : cell) (grid : grid_t) (H W : Z) (current : cell)
    (st : search) (ds : list (Z * Z)) : res search :=
  for_each (relax goal grid H W current) st ds.

(** The body of [while current in came], on [(current, path)]; the
    result is [list(reversed(path))]. *)
Definition rebuild_body (cm : gmap cell cell) (s : cell * list cell)
  : cell * list cell + res (list cell) :=
  match cm !! s.1 with
  | Some p => inl (p, s.2 ++ [p])
  | None => inr (Ok (reverse s.2))
  end.

(** A bound on its iterations: the cost of [current] decreases. *)
Definition rebuild_fuel : positive := Z.to_pos (BIG + 1).

Definition rebuild (cm : gmap cell cell) (current : cell) : res (list cell) :=
  run_while (rebuild_body cm) rebuild_fuel (current, [current]).

(** The body of [while open_heap]. *)
Definition astar_body (goal : cell) (grid : grid_t) (H W : Z) (st : search)
  : search + res (option (list cell)) :=
  match heappop (open_heap st) with
  | None => inr (Ok None)
  | Some ((_, current), hp) =>
      if decide (current = goal) then
        inr (letM p := rebuild (came st) current in Ok (Some p))
      else
        match expand goal grid H W current
                {| open_heap := hp; gscore := gscore st;
                   fscore := fscore st; came := came st |} neighbors with
        | Ok st' => inl st'
        | Raise e => inr (Raise e)
        | OutOfFuel => inr OutOfFuel
        end
  end.

Definition astar_init (start goal : cell) : search :=
  {| open_heap := heappush [] (h start goal, start);
     gscore := {[start := 0]};
     fscore := {[start := h start goal]};
     came := ∅ |}.

(** A bound on the iterations of [while open_heap]: [potential] starts
    below it and decreases with every iteration. *)
Definition astar_fuel (H W : Z) : positive := Z.to_pos (5 * (H * W * BIG) + 2).

(** [astar(start, goal, grid)]: [Ok (Some path)], [Ok None] for the
    script's [None], or the exception raised. *)
Definition astar (start goal : cell) (grid : grid_t)
  : res (option (list cell)) :=
  let H := len grid in
  letM row0 := py_index grid 0 in
  let W := len row0 in
  run_while (astar_body goal grid H W) (astar_fuel H W)
    (astar_init start goal).



(** ** Task assignment (greedy, load balanced) *)

(** The dictionaries keyed by the agent are created with the keys [0] and
    [1] and read at those keys only, so [d[ag]] is the total lookup
    [d !!! ag]. *)
Record alloc := Alloc {
  assignments : gmap Z (list cell);
  est_pos : gmap Z cell;
  est_len : gmap Z Z;
  remaining : list cell
}.

(** [best] and [best_score] are assigned together (lines 96 and 97), so
    one value holds both: [None] is [best = None] with
    [best_score = float('inf')], and [Some (cell, ag, path, score)] is
    [best = (cell, ag, path)] with [best_score = score]. *)
Abbreviation best_t := (option (cell * Z * list cell * Z)).

(** The body of [for ag in [0,1]]. *)
Definition score_pair (grid : grid_t) (st : alloc) (c : cell)
    (best : best_t) (ag : Z) : res best_t :=
  letM path := astar (est_pos st !!! ag) c grid in
  match path with
  | None => Ok best
  | Some path =>
      let score := (est_len st !!! ag) + len path - 1 in
      if match best with
         | None => true
         | Some (_, best_score) => score <? best_score
         end
      then Ok (Some (c, ag, path, score))
      else Ok best
  end.

(** The two nested [for] loops of one round. *)
Definition find_best (grid : grid_t) (st : alloc) : res best_t :=
  for_each (λ best c, for_each (score_pair grid st c) best [0; 1])
    None (remaining st).

(** The body of [while remaining].  The set [remaining] is the list of
    its elements in iteration order; [remaining.remove(cell)] leaves the
    order of the others as it was. *)
Definition alloc_body (grid : grid_t) (st : alloc) : alloc + res alloc :=
  match remaining st with
  | [] => inr (Ok st)
  | _ :: _ =>
      match find_best grid st with
      | Ok None => inr (Ok st)
      | Ok (Some (c, ag, path, best_score)) =>
          inl {| assignments :=
                   <[ag := (assignments st !!! ag) ++ [c]]> (assignments st);
                 est_pos := <[ag := c]> (est_pos st);
                 est_len := <[ag := best_score]> (est_len st);
                 remaining := filter (λ x, x ≠ c) (remaining st) |}
      | Raise e => inr (Raise e)
      | OutOfFuel => inr OutOfFuel
      end
  end.

Definition alloc_init (s0 s1 : cell) (dirty : list cell) : alloc :=
  {| assignments := <[0 := []]> (<[1 := []]> ∅);
     est_pos := <[0 := s0]> (<[1 := s1]> ∅);
     est_len := <[0 := 0]> (<[1 := 0]> ∅);
     remaining := remove_dups dirty |}.

(** The state of [assign_tasks] when its loop ends.  [dirty] lists the
    targets in the iteration order of [set(dirty)]. *)
Definition assign_tasks_state (agent_starts : list cell) (dirty : list cell)
    (grid : grid_t) : res alloc :=
  letM s0 := py_index agent_starts 0 in
  letM s1 := py_index agent_starts 1 in
  let st := alloc_init s0 s1 dirty in
  run_while (alloc_body grid) (Pos.of_succ_nat (length (remaining st))) st.

Definition assign_tasks (agent_starts : list cell) (dirty : list cell)
    (grid : grid_t) : res (gmap Z (list cell)) :=
  letM st := assign_tasks_state agent_starts dirty grid in
  Ok (assignments st).

(** ** Route planning *)

(** The body of [for t in tasks], on the pair [(pos, full)]. *)
Definition plan_step (grid : grid_t) (s : cell * list cell) (t : cell)
  : res (cell * list cell) :=
  letM p := astar s.1 t grid in
  match p with
  | Some (x :: q) => Ok (t, s.2 ++ q)
  | _ => Ok s
  end.

Definition plan_full_path (start : cell) (tasks : list cell) (grid : grid_t)
  : res (list cell) :=
  letM s := for_each (plan_step grid) (start, [start]) tasks in
  Ok s.2.

(** ** Simulation *)

Record sim := Sim {
  cleaned : gset cell;
  agent_positions : gmap Z cell;
  agent_steps : gmap Z Z;
  agent_path_idx : gmap Z Z;
  history_positions : gmap Z (list cell)
}.

(** The body of [for ag in [0,1]] on the simulation state and [moved]. *)
Definition agent_tick (paths : gmap Z (list cell)) (dirty : list cell)
    (s : sim * bool) (ag : Z) : res (sim * bool) :=
  let '(st, moved) := s in
  letM s1 :=
    if (agent_path_idx st !!! ag) + 1 <? len (paths !!! ag) then
      let idx := (agent_path_idx st !!! ag) + 1 in
      letM p := py_index (paths !!! ag) idx in
      Ok ({| cleaned := cleaned st;
             agent_positions := <[ag := p]> (agent_positions st);
             agent_steps := <[ag := (agent_steps st !!! ag) + 1]> (agent_steps st);
             agent_path_idx := <[ag := idx]> (agent_path_idx st);
             history_positions := history_positions st |}, true)
    else Ok (st, moved) in
  let '(st1, moved1) := s1 in
  let pos := agent_positions st1 !!! ag in
  let st2 :=
    if bool_decide (pos ∈ dirty) then
      {| cleaned := {[pos]} ∪ cleaned st1;
         agent_positions := agent_positions st1;
         agent_steps := agent_steps st1;
         agent_path_idx := agent_path_idx st1;
         history_positions := history_positions st1 |}
    else st1 in
  Ok ({| cleaned := cleaned st2;
         agent_positions := agent_positions st2;
         agent_steps := agent_steps st2;
         agent_path_idx := agent_path_idx st2;
         history_positions :=
           <[ag := (history_positions st2 !!! ag) ++ [pos]]>
             (history_positions st2) |}, moved1).

(** One tick: the body of [for step in range(max_steps)] up to the
    [break] test; the boolean is [moved]. *)
Definition tick (paths : gmap Z (list cell)) (dirty : list cell) (st : sim)
  : res (sim * bool) :=
  for_each (agent_tick paths dirty) (st, false) [0; 1].

(** [for step in range(n)] with its [break]. *)
Fixpoint sim_loop (paths : gmap Z (list cell)) (dirty : list cell)
    (n : nat) (st : sim) : res sim :=
  match n with
  | O => Ok st
  | S n' =>
      letM s := tick paths dirty st in
      if s.2 then sim_loop paths dirty n' s.1 else Ok s.1
  end.

Definition sim_init (s0 s1 : cell) : sim :=
  {| cleaned := ∅;
     agent_positions := <[0 := s0]> (<[1 := s1]> ∅);
     agent_steps := <[0 := 0]> (<[1 := 0]> ∅);
     agent_path_idx := <[0 := 0]> (<[1 := 0]> ∅);
     history_positions := <[0 := []]> (<[1 := []]> ∅) |}.

Definition max_steps (paths : gmap Z (list cell)) : Z :=
  Z.max (len (paths !!! 0)) (len (paths !!! 1)) + 200.

Definition simulate (agent_starts : list cell) (paths : gmap Z (list cell))
    (dirty : list cell) : res sim :=
  letM s0 := py_index agent_starts 0 in
  letM s1 := py_index agent_starts 1 in
  sim_loop paths dirty (Z.to_nat (max_steps paths)) (sim_init s0 s1).

(** ** Metrics *)

Definition total_steps (st : sim) : Z :=
  (agent_steps st !!! 0) + (agent_steps st !!! 1).

(** [len(cleaned) / total_steps]: Python's true division, taken as the
    exact quotient. *)
Definition efficiency (st : sim) : res Q :=
  if total_steps st =? 0 then Raise ZeroDivisionError
  else Ok (Qmake (Z.of_nat (size (cleaned st))) (Z.to_pos (total_steps st))).

(** The script from [assign_tasks] to [efficiency], for a given grid,
    agent starts and dirty cells. *)
Definition script (agent_starts : list cell) (dirty : list cell)
    (grid : grid_t) : res (gmap Z (list cell) * gmap Z (list cell) * sim * Q) :=
  letM asg := assign_tasks agent_starts dirty grid in
  letM s0 := py_index agent_starts 0 in
  letM p0 := plan_full_path s0 (asg !!! 0) grid in
  letM s1 := py_index agent_starts 1 in
  letM p1 := plan_full_path s1 (asg !!! 1) grid in
  let paths : gmap Z (list cell) := <[0 := p0]> (<[1 := p1]> ∅) in
  letM st := simulate agent_starts paths dirty in
  letM e := efficiency st in
  Ok (asg, paths, st, e).

(** ** Notions used in the statements *)

(** The value stored in the grid at a cell with non-negative
    coordinates. *)
Definition cell_at (grid : grid_t) (c : cell) : option Z :=
  match grid !! Z.to_nat c.1 with
  | Some row => row !! Z.to_nat c.2
  | None => None
  end.

(** Inside the [H] by [W] rectangle of the script, [W] being the length
    of the first row. *)
Definition in_bounds (grid : grid_t) (c : cell) : bool :=
  bool_decide (0 ≤ c.1 < len grid ∧ 0 ≤ c.2 < len (grid !!! 0%nat)).

(** A cell that is in bounds and holds [0] (free, not an obstacle). *)
Definition is_free (grid : grid_t) (c : cell) : bool :=
  in_bounds grid c && bool_decide (cell_at grid c = Some 0).

(** Consecutive cells are one cardinal move apart and every cell after
    the first is free. *)
Fixpoint walk (grid : grid_t) (p : list cell) : bool :=
  match p with
  | a :: q =>
      match q with
      | b :: _ => bool_decide (h a b = 1) && is_free grid b && walk grid q
      | [] => true
      end
  | [] => true
  end.

(** A walk from [a] to [b]. *)
Definition path_ok (grid : grid_t) (a b : cell) (p : list cell) : Prop :=
  head p = Some a ∧ last p = Some b ∧ walk grid p.

(** There is a first row and every row has its length. *)
Definition rectangular (grid : grid_t) : bool :=
  match grid with
  | [] => false
  | row0 :: _ => forallb (λ row, length row =? length row0)%nat grid
  end.

(** No cell of the grid is an obstacle. *)
Definition obstacle_free (grid : grid_t) : bool :=
  rectangular grid && forallb (forallb (Z.eqb 0)) grid.

(** The cost recorded for a cell, [1e9] when there is none. *)
Definition gval (g : gmap cell Z) (c : cell) : Z := default BIG (g !! c).

Definition all_cells (H W : Z) : list cell :=
  list_prod (seqZ 0 H) (seqZ 0 W).

Definition gsum (g : gmap cell Z) (cs : list cell) : Z :=
  foldr (λ c acc, gval g c + acc) 0 cs.

(** The variant of the search loop. *)
Definition potential (H W : Z) (st : search) : Z :=
  5 * gsum (gscore st) (all_cells H W) + len (open_heap st).

(** The state once lines 69 to 72 have recorded the cost [t] of reaching
    [n] from [cur]. *)
Definition improve (goal cur n : cell) (t : Z) (st : search) : search :=
  {| came := <[n := cur]> (came st);
     gscore := <[n := t]> (gscore st);
     fscore := <[n := t + h n goal]> (fscore st);
     open_heap := heappush (open_heap st) (t + h n goal, n) |}.

(** What holds of the search state on every grid. *)
Record sound (start : cell) (grid : grid_t) (st : search) : Prop := {
  s_start : gscore st !! start = Some 0;
  s_heap : ∀ e, e ∈ open_heap st → is_Some (gscore st !! e.2);
  s_range : ∀ n v, gscore st !! n = Some v → 0 ≤ v < BIG ∧ h start n ≤ v;
  s_came : ∀ n m, came st !! n = Some m →
    h m n = 1 ∧ is_free grid n ∧
    ∃ gm gn, gscore st !! m = Some gm ∧ gscore st !! n = Some gn ∧
             gm + 1 ≤ gn;
  s_keys : ∀ n, is_Some (gscore st !! n) →
    n = start ∨ is_Some (came st !! n)
}.

(** What [astar] may return: a walk from [start] to [goal] of fewer than
    [1e9] moves, [None], or an [IndexError] on a grid that is not
    rectangular; nothing else. *)
Definition astar_post (start goal : cell) (grid : grid_t)
    (r : res (option (list cell))) : Prop :=
  match r with
  | Ok (Some p) => path_ok grid start goal p ∧ len p - 1 < BIG
  | Ok None => True
  | Raise IndexError => ¬ rectangular grid
  | Raise _ => False
  | OutOfFuel => False
  end.

(** What holds in addition on a grid without obstacles, [d] being the
    Manhattan distance from [start] to [goal]: an entry is never below
    the cost it stands for, every recorded cell is in bounds, and a cell
    [n] whose cost is on a shortest route either has its entry in the
    heap or has a recorded neighbour one step nearer to [goal], except
    [cur], the cell being expanded. *)
Record optimal (goal : cell) (grid : grid_t) (d : Z) (cur : option cell)
    (st : search) : Prop := {
  o_heap : ∀ e, e ∈ open_heap st →
    ∃ v, gscore st !! e.2 = Some v ∧ v + h e.2 goal ≤ e.1;
  o_bounds : ∀ n, is_Some (gscore st !! n) → in_bounds grid n;
  o_front : ∀ n v, gscore st !! n = Some v → v + h n goal ≤ d →
    cur = Some n ∨
    (v + h n goal, n) ∈ open_heap st ∨
    (n ≠ goal ∧
     ∃ n' v', h n n' = 1 ∧ h n' goal = h n goal - 1 ∧
              gscore st !! n' = Some v' ∧ v' ≤ v + 1)
}.

(** Grids and inputs of the examples. *)
Definition grid3 : grid_t := [[0; 0; 0]; [0; 1; 0]; [0; 0; 0]].

Definition open3 : grid_t := [[0; 0; 0]; [0; 0; 0]; [0; 0; 0]].

(** One row of [1e9 + 1] free cells. *)
Definition wide_grid : grid_t := [repeat 0 (Z.to_nat (BIG + 1))].

(** There is a walk from [a] to [b]. *)
Definition reachable (grid : grid_t) (a b : cell) : Prop :=
  ∃ p, path_ok grid a b p.

(** The pairs of one round, in the order the two loops visit them. *)
Definition pairs (rem : list cell) : list (cell * Z) :=
  flat_map (λ c, [(c, 0); (c, 1)]) rem.

(** The score of a pair in a round, when [astar] finds a path. *)
Definition pair_score (grid : grid_t) (st : alloc) (x : cell * Z)
  : option Z :=
  match astar (est_pos st !!! x.2) x.1 grid with
  | Ok (Some p) => Some ((est_len st !!! x.2) + len p - 1)
  | _ => None
  end.

(** [best] is the first pair of [l] with the least score. *)
Definition first_min (sc : cell * Z → option Z) (l : list (cell * Z))
    (best : option (cell * Z * Z)) : Prop :=
  match best with
  | None => ∀ y, y ∈ l → sc y = None
  | Some (x, s) =>
      sc x = Some s ∧
      ∃ l1 l2, l = l1 ++ x :: l2 ∧
        (∀ y s', y ∈ l1 → sc y = Some s' → s < s') ∧
        (∀ y s', y ∈ l2 → sc y = Some s' → s ≤ s')
  end.

(** The pair and score held by [best], without the path. *)
Definition best_key (best : best_t) : option (cell * Z * Z) :=
  match best with
  | Some (c, ag, _, s) => Some (c, ag, s)
  | None => None
  end.

(** Every leg of a visit of [l] from [pos], in order, has a path. *)
Fixpoint chain (grid : grid_t) (pos : cell) (l : list cell) : Prop :=
  match l with
  | [] => True
  | t :: l' => (∃ p, astar pos t grid = Ok (Some p)) ∧ chain grid t l'
  end.

(** The number of moves of the path [astar] finds, [0] without one. *)
Definition leg_cost (grid : grid_t) (a b : cell) : Z :=
  match astar a b grid with
  | Ok (Some p) => len p - 1
  | _ => 0
  end.

Fixpoint legs_cost (grid : grid_t) (pos : cell) (l : list cell) : Z :=
  match l with
  | [] => 0
  | t :: l' => leg_cost grid pos t + legs_cost grid t l'
  end.

Definition start_of (s0 s1 : cell) (ag : Z) : cell :=
  if ag =? 0 then s0 else s1.

(** What holds of the allocator's state in every round, [D] being the
    targets without repetition. *)
Record alloc_inv (grid : grid_t) (s0 s1 : cell) (D : list cell)
    (st : alloc) : Prop := {
  a_dom : dom (assignments st) = {[0; 1]};
  a_perm :
    (assignments st !!! 0) ++ (assignments st !!! 1) ++ remaining st ≡ₚ D;
  a_agent : ∀ ag, ag = 0 ∨ ag = 1 →
    chain grid (start_of s0 s1 ag) (assignments st !!! ag) ∧
    est_pos st !!! ag
    = default (start_of s0 s1 ag) (last (assignments st !!! ag)) ∧
    est_len st !!! ag
    = legs_cost grid (start_of s0 s1 ag) (assignments st !!! ag) ∧
    reachable grid (start_of s0 s1 ag) (est_pos st !!! ag) ∧
    ∀ t, t ∈ assignments st !!! ag → reachable grid (start_of s0 s1 ag) t
}.

(** What [assign_tasks] may end with. *)
Definition alloc_post (grid : grid_t) (s0 s1 : cell) (D : list cell)
    (r : res alloc) : Prop :=
  match r with
  | Ok st =>
      alloc_inv grid s0 s1 D st ∧
      ∀ t ag, t ∈ remaining st → ag = 0 ∨ ag = 1 →
        astar (est_pos st !!! ag) t grid = Ok None
  | Raise e => e = IndexError ∧ ¬ rectangular grid
  | OutOfFuel => False
  end.

(** Two states of the allocator that differ at most in the order in
    which [remaining] yields its elements. *)
Definition same_targets (st st' : alloc) : Prop :=
  assignments st' = assignments st ∧ est_pos st' = est_pos st ∧
  est_len st' = est_len st ∧ remaining st' ≡ₚ remaining st.

(** In the round that starts in [st], no pair of another target has a
    score as low as the pair the round keeps. *)
Definition round_tie_free (grid : grid_t) (st : alloc) : bool :=
  match find_best grid st with
  | Ok (Some (c, _, _, s)) =>
      forallb (λ x, bool_decide (x.1 = c)
                    || match pair_score grid st x with
                       | Some s' => s <? s'
                       | None => true
                       end)
        (pairs (remaining st))
  | _ => true
  end.

(** The same in the round that starts in [st] and in the [n] rounds
    after it, as far as the loop goes. *)
Fixpoint ties_free (grid : grid_t) (n : nat) (st : alloc) : bool :=
  round_tie_free grid st
  && match n with
     | O => true
     | S n' =>
         match alloc_body grid st with
         | inl st1 => ties_free grid n' st1
         | inr _ => true
         end
     end.

(** The assignment two runs of the loop end with is the same. *)
Definition same_result (r r' : res alloc) : Prop :=
  (letM a := r' in Ok (assignments a)) = (letM a := r in Ok (assignments a)).

(** RouteBuilder as the specification words it: the result sequence
    starts at [start]; for each target in order PathFinder is invoked
    from the current tail of the sequence; when a path exists all its
    cells but the first are appended, otherwise the target is skipped. *)
Fixpoint build_route (grid : grid_t) (start : cell) (route : list cell)
    (targets : list cell) : res (list cell) :=
  match targets with
  | [] => Ok route
  | t :: ts =>
      letM p := astar (default start (last route)) t grid in
      match p with
      | Some path => build_route grid start (route ++ tail path) ts
      | None => build_route grid start route ts
      end
  end.

(** The state after [k] ticks without the [break], with [moved] of the
    last one ([true] before any tick). *)
Fixpoint run_ticks (paths : gmap Z (list cell)) (dirty : list cell)
    (k : nat) (s : sim * bool) : res (sim * bool) :=
  match k with
  | O => Ok s
  | S k' => letM s' := tick paths dirty s.1 in run_ticks paths dirty k' s'
  end.

(** Whether an agent advances in the next tick. *)
Definition advances (paths : gmap Z (list cell)) (st : sim) (ag : Z) : bool :=
  (agent_path_idx st !!! ag) + 1 <? len (paths !!! ag).

(** ** Further notions: shortest paths on any grid *)

(** What holds of the search state along a walk [w] that ends at [goal]:
    an entry is never below the cost it stands for, and a cell of [w]
    whose cost is at most its index in [w] has its entry in the heap or
    has the next cell of [w] recorded at most one step further, except
    [cur], the cell being expanded. *)
Record on_walk (goal : cell) (w : list cell) (cur : option cell)
    (st : search) : Prop := {
  w_heap : ∀ e, e ∈ open_heap st →
    ∃ v, gscore st !! e.2 = Some v ∧ v + h e.2 goal ≤ e.1;
  w_front : ∀ (i : nat) n v,
    w !! i = Some n → gscore st !! n = Some v → v ≤ Z.of_nat i →
    cur = Some n ∨
    (v + h n goal, n) ∈ open_heap st ∨
    ∃ n' v', w !! S i = Some n' ∧ gscore st !! n' = Some v' ∧ v' ≤ v + 1
}.

(** What [astar] returns when [w] is a walk from [start] to [goal]. *)
Definition shortest_post (start goal : cell) (grid : grid_t)
    (w : list cell) (r : res (option (list cell))) : Prop :=
  match r with
  | Ok (Some p) => path_ok grid start goal p ∧ len p ≤ len w
  | Ok None => False
  | Raise e => e = IndexError ∧ ¬ rectangular grid
  | OutOfFuel => False
  end.

(** ** Further notions: the simulation *)

(** Where an agent stands when its index into its route [r] is [idx]:
    on its start [s] before its first move, on [r[idx]] afterwards. *)
Definition route_pos (r : list cell) (s : cell) (idx : Z) : cell :=
  if idx =? 0 then s else default s (r !! Z.to_nat idx).

(** What holds of one agent throughout the simulation: its step count is
    its index, it stands where the index says, and its history is the
    route up to the index followed by the ticks it stood still, which
    come only once it cannot advance. *)
Record agent_inv (paths : gmap Z (list cell)) (s : cell) (ag : Z)
    (st : sim) : Prop := {
  ai_idx : 0 ≤ agent_path_idx st !!! ag;
  ai_range : agent_path_idx st !!! ag = 0
             ∨ agent_path_idx st !!! ag < len (paths !!! ag);
  ai_steps : agent_steps st !!! ag = agent_path_idx st !!! ag;
  ai_pos : agent_positions st !!! ag
           = route_pos (paths !!! ag) s (agent_path_idx st !!! ag);
  ai_hist : ∃ m : nat,
    history_positions st !!! ag
    = take (Z.to_nat (agent_path_idx st !!! ag)) (tail (paths !!! ag))
      ++ replicate m (agent_positions st !!! ag) ∧
    (m ≠ 0%nat → advances paths st ag = false)
}.

(** The cleaned cells are the dirty cells of the two histories. *)
Definition cleaned_inv (dirty : list cell) (st : sim) : Prop :=
  ∀ c, c ∈ cleaned st ↔
       c ∈ dirty ∧ (c ∈ history_positions st !!! 0
                    ∨ c ∈ history_positions st !!! 1).

(** ** The set-up of the script *)

(** [l[i] = v]: a negative index counts from the end, an index out of
    range raises [IndexError]. *)
Definition py_setitem {A} (l : list A) (i : Z) (v : A) : res (list A) :=
  let j := if i <? 0 then i + Z.of_nat (length l) else i in
  if (0 <=? j) && (j <? Z.of_nat (length l)) then
    Ok (<[Z.to_nat j := v]> l)
  else Raise IndexError.

(** [grid[sr][sc] = 0].  The rows of the script's grid are distinct
    lists, so the write changes the row [grid[sr]] alone; the grid holds
    the changed row at the index it had. *)
Definition clear_cell (grid : grid_t) (s : cell) : res grid_t :=
  letM row := py_index grid s.1 in
  letM row' := py_setitem row s.2 0 in
  py_setitem grid s.1 row'.

(** [for (sr, sc) in agent_starts: grid[sr][sc] = 0]. *)
Definition clear_starts (grid : grid_t) (agent_starts : list cell)
  : res grid_t :=
  for_each clear_cell grid agent_starts.

(** The test and the element of the comprehension of [free_cells], for
    the row [r] and the column [c]. *)
Definition free_cell_step (grid : grid_t) (agent_starts : list cell)
    (r : Z) (acc : list cell) (c : Z) : res (list cell) :=
  letM row := py_index grid r in
  letM v := py_index row c in
  if (v =? 0) && negb (bool_decide ((r, c) ∈ agent_starts))
  then Ok (acc ++ [(r, c)]) else Ok acc.

(** [[(r,c) for r in range(H) for c in range(W)
      if grid[r][c] == 0 and (r,c) not in agent_starts]]. *)
Definition free_cells (H W : Z) (grid : grid_t) (agent_starts : list cell)
  : res (list cell) :=
  for_each
    (λ acc r, for_each (free_cell_step grid agent_starts r) acc (seqZ 0 W))
    [] (seqZ 0 H).

(** The cells of [all_cells] that [free_cells] keeps. *)
Definition kept (grid : grid_t) (agent_starts : list cell) (c : cell)
  : bool :=
  is_free grid c && negb (bool_decide (c ∈ agent_starts)).

(** Lines 29 to 36 of the script: the starts are cleared, then the free
    cells are listed. *)
Definition setup (H W : Z) (grid0 : grid_t) (agent_starts : list cell)
  : res (grid_t * list cell) :=
  letM grid := clear_starts grid0 agent_starts in
  letM fc := free_cells H W grid agent_starts in
  Ok (grid, fc).

(** What the script ends with, for two free starts that are not dirty:
    the cleaned cells are the dirty cells some walk joins to a start,
    and the division is the only thing that can fail. *)
Definition script_post (grid : grid_t) (s0 s1 : cell) (dirty : list cell)
    (r : res (gmap Z (list cell) * gmap Z (list cell) * sim * Q)) : Prop :=
  match r with
  | Ok (asg, paths, st, e) =>
      (∀ c, c ∈ cleaned st
            ↔ c ∈ dirty ∧ (reachable grid s0 c ∨ reachable grid s1 c)) ∧
      (0 < e)%Q ∧ (e <= 1)%Q
  | Raise e =>
      e = ZeroDivisionError ∧
      ∀ c, c ∈ dirty → ¬ reachable grid s0 c ∧ ¬ reachable grid s1 c
  | OutOfFuel => False
  end.

(** * Proofs *)

(** ** While loops *)

Section WhileFacts.
Context {S R : Type} (body : S → S + R).

Lemma while_nat_add (a b : nat) (s : S) :
  while_nat body (a + b) s =
  match while_nat body a s with
  | inl s' => while_nat body b s'
  | inr r => inr r
  end.
Proof.
  revert s. induction a as [|a IH]; intros s; simpl; [done|].
  destruct (body s); [apply IH | done].
Qed.

Lemma while_fuel_nat (p : positive) (s : S) :
  while_fuel body p s = while_nat body (Pos.to_nat p) s.
Proof.
  revert s. induction p as [p IH|p IH|]; intros s; cbn [while_fuel].
  - rewrite Pos2Nat.inj_xI. cbn [while_nat].
    destruct (body s) as [s1|r]; [|done].
    replace (2 * Pos.to_nat p)%nat with (Pos.to_nat p + Pos.to_nat p)%nat
      by lia.
    rewrite while_nat_add, IH.
    destruct (while_nat body (Pos.to_nat p) s1); [apply IH | done].
  - rewrite Pos2Nat.inj_xO.
    replace (2 * Pos.to_nat p)%nat with (Pos.to_nat p + Pos.to_nat p)%nat
      by lia.
    rewrite while_nat_add, IH.
    destruct (while_nat body (Pos.to_nat p) s); [apply IH | done].
  - change (Pos.to_nat 1) with 1%nat. cbn [while_nat].
    destruct (body s); done.
Qed.

Variable Inv : S → Prop.
Variable Post : R → Prop.
Hypothesis Hstep : ∀ s s', Inv s → body s = inl s' → Inv s'.
Hypothesis Hexit : ∀ s r, Inv s → body s = inr r → Post r.

Lemma while_nat_post (n : nat) (s : S) (r : R) :
  Inv s → while_nat body n s = inr r → Post r.
Proof.
  revert s. induction n as [|n IH]; intros s HI; simpl; [done|].
  destruct (body s) as [s'|r'] eqn:Hb.
  - apply IH. by eapply Hstep.
  - intros [= <-]. by eapply Hexit.
Qed.

Lemma while_fuel_post (p : positive) (s : S) (r : R) :
  Inv s → while_fuel body p s = inr r → Post r.
Proof. rewrite while_fuel_nat. apply while_nat_post. Qed.

Variable mu : S → Z.
Hypothesis Hmu_pos : ∀ s, Inv s → 0 ≤ mu s.
Hypothesis Hmu_dec : ∀ s s', Inv s → body s = inl s' → mu s' < mu s.

Lemma while_nat_returns (n : nat) (s : S) :
  Inv s → mu s < Z.of_nat n → ∃ r, while_nat body n s = inr r.
Proof.
  revert s. induction n as [|n IH]; intros s HI Hlt; simpl.
  - specialize (Hmu_pos s HI). lia.
  - destruct (body s) as [s'|r'] eqn:Hb; [|by eexists].
    apply IH; [by eapply Hstep|].
    specialize (Hmu_dec s s' HI Hb). lia.
Qed.

Lemma while_fuel_returns (p : positive) (s : S) :
  Inv s → mu s < Z.pos p → ∃ r, while_fuel body p s = inr r ∧ Post r.
Proof.
  intros HI Hlt. rewrite while_fuel_nat.
  destruct (while_nat_returns (Pos.to_nat p) s HI) as [r Hr]; [lia|].
  exists r. split; [done|]. by eapply while_nat_post.
Qed.
End WhileFacts.

(** ** Results and loops *)

Lemma for_each_inv {A B} (f : B → A → res B) (P : B → Prop) (l : list A) :
  (∀ b a b', a ∈ l → P b → f b a = Ok b' → P b') →
  ∀ b b', P b → for_each f b l = Ok b' → P b'.
Proof.
  induction l as [|a l IH]; intros Hf b b' Hb; simpl.
  - by intros [= <-].
  - destruct (f b a) as [b1| |] eqn:Hfa; simpl; [|done..].
    apply IH; [|eapply Hf; [|done..]; left].
    intros ???? ; apply Hf. by right.
Qed.

Lemma run_while_returns {S A} (body : S → S + res A) (Inv : S → Prop)
    (Post : res A → Prop) (mu : S → Z) (fuel : positive) (s : S) :
  (∀ s s', Inv s → body s = inl s' → Inv s' ∧ mu s' < mu s) →
  (∀ s r, Inv s → body s = inr r → Post r) →
  (∀ s, Inv s → 0 ≤ mu s) →
  Inv s → mu s < Z.pos fuel →
  Post (run_while body fuel s).
Proof.
  intros Hstep Hexit Hpos HI Hlt. unfold run_while.
  destruct (while_fuel_returns body Inv Post) with (mu := mu) (p := fuel)
    (s := s) as [r [-> Hr]]; try done.
  - intros. by eapply Hstep.
  - intros. by eapply Hstep.
Qed.

Lemma py_index_Ok {A} (l : list A) (i : Z) (x : A) :
  0 ≤ i → py_index l i = Ok x → l !! Z.to_nat i = Some x.
Proof.
  intros Hi. unfold py_index.
  destruct (Z.ltb_spec i 0); [lia|].
  destruct (_ && _); [|done].
  destruct (l !! Z.to_nat i); [|done]. by intros [= ->].
Qed.

Lemma py_index_lookup {A} (l : list A) (i : Z) (x : A) :
  0 ≤ i → l !! Z.to_nat i = Some x → py_index l i = Ok x.
Proof.
  intros Hi Hl. unfold py_index.
  destruct (Z.ltb_spec i 0); [lia|].
  apply lookup_lt_Some in Hl as Hlt.
  destruct (Z.leb_spec 0 i); [|lia].
  destruct (Z.ltb_spec i (Z.of_nat (length l))); [|lia].
  simpl. by rewrite Hl.
Qed.

(** ** The heap *)

Lemma heappop_None (hp : list entry) : heappop hp = None → hp = [].
Proof.
  destruct hp as [|x t]; [done|]. simpl.
  destruct (heappop t) as [[y t']|]; [|done].
  by destruct (entry_leb x y).
Qed.

Lemma entry_leb_fst (x y : entry) :
  (if entry_leb x y then x.1 ≤ y.1 else y.1 ≤ x.1).
Proof.
  unfold entry_leb.
  destruct (Z.ltb_spec x.1 y.1); simpl; [lia|].
  destruct (Z.eqb_spec x.1 y.1); simpl; [|lia].
  destruct (_ || _); lia.
Qed.

Lemma entry_leb_total (x y : entry) : entry_leb x y ∨ entry_leb y x.
Proof.
  unfold entry_leb.
  destruct (Z.ltb_spec x.1 y.1), (Z.ltb_spec y.1 x.1); simpl; auto; try lia.
  rewrite (proj2 (Z.eqb_eq x.1 y.1)), (proj2 (Z.eqb_eq y.1 x.1)) by lia.
  simpl.
  destruct (Z.ltb_spec x.2.1 y.2.1), (Z.ltb_spec y.2.1 x.2.1);
    simpl; auto; try lia.
  rewrite (proj2 (Z.eqb_eq x.2.1 y.2.1)), (proj2 (Z.eqb_eq y.2.1 x.2.1))
    by lia.
  simpl. destruct (Z.leb_spec x.2.2 y.2.2), (Z.leb_spec y.2.2 x.2.2);
    simpl; auto; lia.
Qed.

Lemma entry_leb_trans (x y z : entry) :
  entry_leb x y → entry_leb y z → entry_leb x z.
Proof.
  unfold entry_leb.
  rewrite !orb_True, !andb_True, !orb_True, !andb_True.
  rewrite !Is_true_true, !Z.ltb_lt, !Z.eqb_eq, !Z.leb_le. lia.
Qed.

(** [heappop] returns the least entry in Python's order on tuples. *)
Lemma heappop_least (hp hp' : list entry) (x : entry) :
  heappop hp = Some (x, hp') → ∀ y, y ∈ hp → entry_leb x y.
Proof.
  revert x hp'. induction hp as [|a t IH]; intros x hp'; simpl; [done|].
  destruct (heappop t) as [[y t']|] eqn:Hpop.
  - specialize (IH _ _ eq_refl).
    destruct (entry_leb a y) eqn:Hay; intros [= <- <-].
    + intros z [->|Hz]%elem_of_cons.
      * by destruct (entry_leb_total a a).
      * eapply entry_leb_trans; [by rewrite Hay|]. by apply IH.
    + intros z [->|Hz]%elem_of_cons; [|by apply IH].
      destruct (entry_leb_total a y) as [Hle|Hle]; [|done].
      by rewrite Hay in Hle.
  - apply heappop_None in Hpop as ->. intros [= <- <-].
    intros z ->%list_elem_of_singleton. by destruct (entry_leb_total a a).
Qed.

(** What [heappop] returns is an entry of the heap with the least [f],
    and the rest of the heap is what remains. *)
Lemma heappop_Some (hp hp' : list entry) (x : entry) :
  heappop hp = Some (x, hp') →
  hp ≡ₚ x :: hp' ∧ ∀ y, y ∈ hp → x.1 ≤ y.1.
Proof.
  revert x hp'. induction hp as [|a t IH]; intros x hp'; simpl; [done|].
  destruct (heappop t) as [[y t']|] eqn:Hpop.
  - destruct (IH _ _ eq_refl) as [Hperm Hmin].
    pose proof (entry_leb_fst a y) as Hay.
    destruct (entry_leb a y); intros [= <- <-].
    + split; [done|]. intros z [->|Hz]%elem_of_cons; [lia|].
      specialize (Hmin z Hz). lia.
    + split.
      * rewrite Hperm. apply Permutation_swap.
      * intros z [->|Hz]%elem_of_cons; [lia|]. by apply Hmin.
  - apply heappop_None in Hpop as ->. intros [= <- <-].
    split; [done|]. intros z ->%list_elem_of_singleton. lia.
Qed.

(** ** One relaxation *)

Lemma neighbors_adjacent (c : cell) (d : Z * Z) :
  d ∈ neighbors → h c (c.1 + d.1, c.2 + d.2) = 1.
Proof.
  unfold neighbors. rewrite !elem_of_cons, elem_of_nil.
  unfold h. intros [->|[->|[->|[->|[]]]]]; simpl; lia.
Qed.

Lemma relax_Ok goal grid cur st d st' :
  relax goal grid (len grid) (len (grid !!! 0%nat)) cur st d = Ok st' →
  st' = st ∨
  ∃ gc, gscore st !! cur = Some gc ∧
        is_free grid (cur.1 + d.1, cur.2 + d.2) ∧
        gc + 1 < gval (gscore st) (cur.1 + d.1, cur.2 + d.2) ∧
        st' = improve goal cur (cur.1 + d.1, cur.2 + d.2) (gc + 1) st.
Proof.
  unfold relax. case_bool_decide as Hb; [|intros [= <-]; by left].
  destruct (py_index grid _) as [row| |] eqn:Hrow; simpl; [|done..].
  destruct (py_index row _) as [v| |] eqn:Hv; simpl; [|done..].
  destruct (Z.eqb_spec v 0) as [->|]; [|intros [= <-]; by left].
  unfold dict_get. destruct (gscore st !! cur) as [gc|] eqn:Hgc; simpl; [|done].
  destruct (Z.ltb_spec (gc + 1)
              (default BIG (gscore st !! (cur.1 + d.1, cur.2 + d.2))));
    intros [= <-]; [right|by left].
  exists gc. split_and!; try done.
  unfold is_free, in_bounds, cell_at. simpl.
  apply py_index_Ok in Hrow; [|lia]. apply py_index_Ok in Hv; [|lia].
  rewrite Hrow, Hv. rewrite !bool_decide_eq_true_2; done.
Qed.

Lemma improve_sound start grid goal cur n gc st :
  sound start grid st →
  gscore st !! cur = Some gc → h cur n = 1 → is_free grid n →
  gc + 1 < gval (gscore st) n →
  sound start grid (improve goal cur n (gc + 1) st).
Proof.
  intros [Hs Hh Hr Hc Hk] Hgc Hadj Hfree Hlt.
  destruct (Hr _ _ Hgc) as [Hgc0 Hgch].
  assert (n ≠ start) as Hns.
  { intros ->. unfold gval in Hlt. rewrite Hs in Hlt. simpl in Hlt. lia. }
  assert (n ≠ cur) as Hnc.
  { intros ->. unfold h in Hadj. lia. }
  assert (∀ v, gscore st !! n = Some v → gc + 1 < v) as Hold.
  { intros v Hv. unfold gval in Hlt. by rewrite Hv in Hlt. }
  split; simpl.
  - by rewrite lookup_insert_ne.
  - unfold heappush. intros e [->|He]%elem_of_cons; simpl.
    + rewrite lookup_insert_eq. by eexists.
    + apply lookup_insert_is_Some'. right. by apply Hh.
  - intros m v. rewrite lookup_insert. case_decide as Hm.
    + subst m. intros [= <-]. split.
      * split; [lia|]. unfold gval in Hlt.
        destruct (gscore st !! n) as [v|] eqn:Hv; simpl in Hlt.
        -- destruct (Hr _ _ Hv). lia.
        -- lia.
      * revert Hadj Hgch. unfold h. lia.
    + apply Hr.
  - intros m k. rewrite lookup_insert. case_decide as Hm.
    + subst m. intros [= <-]. split_and!; try done.
      exists gc, (gc + 1). rewrite lookup_insert_ne by done.
      rewrite lookup_insert_eq. split_and!; [done..|lia].
    + intros Hcm. destruct (Hc _ _ Hcm) as (Ha & Hf & gm & gn & Hgm & Hgn & Hle).
      split_and!; try done.
      rewrite (lookup_insert_ne _ n m) by done.
      destruct (decide (n = k)) as [->|Hnk].
      * exists (gc + 1), gn. rewrite lookup_insert_eq.
        split_and!; try done. specialize (Hold _ Hgm). lia.
      * exists gm, gn. by rewrite lookup_insert_ne.
  - intros m. rewrite !lookup_insert_is_Some'.
    intros [->|Hm]; [right; by left|].
    destruct (Hk _ Hm) as [->|?]; [by left|right; by right].
Qed.

Lemma relax_sound start grid goal cur st d st' :
  d ∈ neighbors → sound start grid st →
  relax goal grid (len grid) (len (grid !!! 0%nat)) cur st d = Ok st' →
  sound start grid st'.
Proof.
  intros Hd Hs [->|(gc & Hgc & Hf & Hlt & ->)]%relax_Ok; [done|].
  apply improve_sound; try done. by apply neighbors_adjacent.
Qed.

Lemma expand_sound start grid goal cur st st' :
  sound start grid st →
  expand goal grid (len grid) (len (grid !!! 0%nat)) cur st neighbors = Ok st' →
  sound start grid st'.
Proof.
  unfold expand. apply for_each_inv. intros b a b' Ha Hb.
  by apply relax_sound.
Qed.

Lemma for_each_post {A B} (f : B → A → res B) (P : B → Prop)
    (Q : res B → Prop) (l : list A) :
  (∀ b a, a ∈ l → P b →
     match f b a with
     | Ok b' => P b'
     | Raise e => Q (Raise e)
     | OutOfFuel => Q OutOfFuel
     end) →
  (∀ b, P b → Q (Ok b)) →
  ∀ b, P b → Q (for_each f b l).
Proof.
  intros Hf HQ. induction l as [|a l IH]; intros b Hb; simpl; [by apply HQ|].
  pose proof (Hf b a (list_elem_of_here _ _) Hb) as Hfa.
  destruct (f b a) as [b1| |]; simpl; [|done..].
  apply IH; [|done]. intros ????. apply Hf; [by right|done].
Qed.

(** ** Rebuilding the path *)

Lemma BIG_eq : BIG = 1000000000.
Proof. reflexivity. Qed.

Lemma walk_cons grid a b q :
  walk grid (a :: b :: q) ↔ h a b = 1 ∧ is_free grid b ∧ walk grid (b :: q).
Proof.
  cbn [walk]. rewrite !andb_True, bool_decide_spec. tauto.
Qed.

Lemma rebuild_ok start grid st cur gc :
  sound start grid st → gscore st !! cur = Some gc →
  ∃ p, rebuild (came st) cur = Ok p ∧ path_ok grid start cur p ∧
       len p - 1 ≤ gc.
Proof.
  intros Hs Hgc. unfold rebuild.
  apply (run_while_returns (rebuild_body (came st))
    (λ s, ∃ g q, gscore st !! s.1 = Some g ∧ reverse s.2 = s.1 :: q ∧
                 last (s.1 :: q) = Some cur ∧ walk grid (s.1 :: q) ∧
                 len s.2 - 1 + g ≤ gc)
    (λ r, ∃ p, r = Ok p ∧ path_ok grid start cur p ∧ len p - 1 ≤ gc)
    (λ s, default 0 (gscore st !! s.1))).
  - intros [c path] s' (g & q & Hg & Hrev & Hlast & Hw & Hlen).
    unfold rebuild_body. cbn [fst snd] in *.
    destruct (came st !! c) as [p|] eqn:Hc; [|done]. intros [= <-]. cbn [fst snd].
    destruct (s_came _ _ _ Hs _ _ Hc) as (Ha & Hf & gm & gn & Hgm & Hgn & Hle).
    rewrite Hg in Hgn. injection Hgn as <-.
    split; [|rewrite Hgm, Hg; simpl; lia].
    exists gm, (c :: q). rewrite reverse_snoc, Hrev.
    split_and!; try done.
    + by apply walk_cons.
    + unfold len in *. rewrite length_app. simpl. lia.
  - intros [c path] r (g & q & Hg & Hrev & Hlast & Hw & Hlen).
    unfold rebuild_body. cbn [fst snd] in *.
    destruct (came st !! c) as [p|] eqn:Hc; [done|]. intros [= <-].
    exists (c :: q). rewrite Hrev. split; [done|].
    destruct (s_keys _ _ _ Hs c) as [->|[? ?]]; [by eexists| |congruence].
    split; [done|].
    destruct (s_range _ _ _ Hs _ _ Hg) as [? _].
    unfold len in *. rewrite <-Hrev, length_reverse. lia.
  - intros [c path] (g & q & Hg & _). cbn [fst snd] in *. rewrite Hg. simpl.
    destruct (s_range _ _ _ Hs _ _ Hg) as [? _]. lia.
  - exists gc, []. cbn [fst snd]. split_and!; try done; unfold len; simpl; lia.
  - cbn [fst snd]. rewrite Hgc. simpl.
    destruct (s_range _ _ _ Hs _ _ Hgc) as [? _].
    unfold rebuild_fuel. rewrite BIG_eq in *. lia.
Qed.

(** ** The variant *)

Lemma gsum_le g g' cs :
  (∀ c, gval g' c ≤ gval g c) → gsum g' cs ≤ gsum g cs.
Proof.
  intros Hle. induction cs as [|c cs IH]; simpl; [done|].
  specialize (Hle c). lia.
Qed.

Lemma gsum_lt g g' cs x :
  (∀ c, gval g' c ≤ gval g c) → x ∈ cs → gval g' x < gval g x →
  gsum g' cs < gsum g cs.
Proof.
  intros Hle Hx Hlt. induction cs as [|c cs IH]; simpl; [by inversion Hx|].
  pose proof (gsum_le g g' cs Hle).
  apply elem_of_cons in Hx as [<-|Hx]; [lia|].
  specialize (IH Hx). specialize (Hle c). lia.
Qed.

Lemma gsum_bounds g cs :
  (∀ c, 0 ≤ gval g c ≤ BIG) → 0 ≤ gsum g cs ≤ BIG * len cs.
Proof.
  intros Hb. unfold len. induction cs as [|c cs IH]; simpl; [lia|].
  specialize (Hb c). lia.
Qed.

Lemma elem_of_all_cells H W (c : cell) :
  c ∈ all_cells H W ↔ 0 ≤ c.1 < H ∧ 0 ≤ c.2 < W.
Proof.
  unfold all_cells. destruct c as [r k]. simpl.
  rewrite list_elem_of_In, in_prod_iff, <-!list_elem_of_In, !elem_of_seqZ.
  lia.
Qed.

Lemma len_all_cells H W : 0 ≤ H → 0 ≤ W → len (all_cells H W) = H * W.
Proof.
  intros. unfold len, all_cells. rewrite length_prod, !length_seqZ. lia.
Qed.

Lemma sound_gval start grid st c :
  sound start grid st → 0 ≤ gval (gscore st) c ≤ BIG.
Proof.
  intros Hs. unfold gval.
  destruct (gscore st !! c) as [v|] eqn:Hv; simpl.
  - destruct (s_range _ _ _ Hs _ _ Hv). lia.
  - rewrite BIG_eq. lia.
Qed.

Lemma potential_nonneg start grid H W st :
  sound start grid st → 0 ≤ potential H W st.
Proof.
  intros Hs. unfold potential.
  pose proof (gsum_bounds (gscore st) (all_cells H W)
                (λ c, sound_gval _ _ _ c Hs)).
  unfold len. lia.
Qed.

Lemma improve_potential goal cur n t st grid :
  is_free grid n → t < gval (gscore st) n →
  potential (len grid) (len (grid !!! 0%nat)) (improve goal cur n t st)
  < potential (len grid) (len (grid !!! 0%nat)) st.
Proof.
  intros Hf Hlt. unfold potential, improve, heappush. simpl.
  assert (gsum (<[n:=t]> (gscore st))
            (all_cells (len grid) (len (grid !!! 0%nat)))
          < gsum (gscore st) (all_cells (len grid) (len (grid !!! 0%nat)))).
  { apply gsum_lt with n.
    - intros c. unfold gval. rewrite lookup_insert. case_decide; [|done].
      subst. simpl. unfold gval in Hlt. lia.
    - apply elem_of_all_cells. unfold is_free, in_bounds in Hf.
      apply andb_True in Hf as [Hf _]. by apply bool_decide_spec in Hf.
    - unfold gval at 1. by rewrite lookup_insert_eq. }
  unfold len in *. simpl. lia.
Qed.

Lemma expand_potential goal grid cur st st' :
  expand goal grid (len grid) (len (grid !!! 0%nat)) cur st neighbors = Ok st' →
  potential (len grid) (len (grid !!! 0%nat)) st'
  ≤ potential (len grid) (len (grid !!! 0%nat)) st.
Proof.
  unfold expand. revert st.
  induction neighbors as [|d ds IH]; intros st; simpl.
  - intros [= <-]. lia.
  - destruct (relax _ _ _ _ _ st d) as [st1| |] eqn:Hr; simpl; [|done..].
    intros Hst'. specialize (IH _ Hst').
    apply relax_Ok in Hr as [->|(gc & Hgc & Hf & Hlt & ->)]; [done|].
    pose proof (improve_potential goal cur _ _ st grid Hf Hlt). lia.
Qed.

(** ** Exceptions of one relaxation *)

Lemma rectangular_row grid row (i : nat) :
  rectangular grid → grid !! i = Some row →
  length row = length (grid !!! 0%nat).
Proof.
  unfold rectangular. destruct grid as [|row0 rows]; [done|].
  intros Hall Hrow. apply forallb_True in Hall.
  rewrite Forall_forall in Hall.
  specialize (Hall row (list_elem_of_lookup_2 _ _ _ Hrow)).
  apply Is_true_true, Nat.eqb_eq in Hall. done.
Qed.

Lemma py_index_in_range {A} (l : list A) (i : Z) :
  0 ≤ i < len l → ∃ x, py_index l i = Ok x.
Proof.
  intros Hi. unfold len in Hi.
  destruct (lookup_lt_is_Some_2 l (Z.to_nat i)) as [x Hx]; [lia|].
  exists x. apply py_index_lookup; [lia|done].
Qed.

Lemma py_index_fail {A} (l : list A) (i : Z) :
  0 ≤ i →
  match py_index l i with
  | Ok _ => True
  | Raise e => e = IndexError ∧ len l ≤ i
  | OutOfFuel => False
  end.
Proof.
  intros Hi. unfold py_index, len.
  destruct (Z.ltb_spec i 0); [lia|].
  destruct (Z.leb_spec 0 i); [|lia].
  destruct (Z.ltb_spec i (Z.of_nat (length l))); simpl; [|done].
  destruct (l !! Z.to_nat i) eqn:Hl; [done|].
  apply lookup_ge_None in Hl. lia.
Qed.

Lemma relax_fail goal grid cur st d :
  is_Some (gscore st !! cur) →
  match relax goal grid (len grid) (len (grid !!! 0%nat)) cur st d with
  | Ok _ => True
  | Raise e => e = IndexError ∧ ¬ rectangular grid
  | OutOfFuel => False
  end.
Proof.
  intros [gc Hgc]. unfold relax. case_bool_decide as Hb; [|done].
  destruct (py_index_in_range grid (cur.1 + d.1)) as [row Hrow]; [lia|].
  rewrite Hrow. simpl.
  pose proof (py_index_fail row (cur.2 + d.2)) as Hv.
  destruct (py_index row _) as [v|e|]; simpl.
  - destruct (v =? 0); [|done]. unfold dict_get. rewrite Hgc. simpl.
    by destruct (_ <? _).
  - destruct Hv as [-> Hlen]; [lia|]. split; [done|]. intros Hrect.
    apply py_index_Ok in Hrow; [|lia].
    pose proof (rectangular_row _ _ _ Hrect Hrow). unfold len in *. lia.
  - apply Hv. lia.
Qed.

Lemma expand_fail goal grid cur st :
  is_Some (gscore st !! cur) →
  match expand goal grid (len grid) (len (grid !!! 0%nat)) cur st neighbors
  with
  | Ok _ => True
  | Raise e => e = IndexError ∧ ¬ rectangular grid
  | OutOfFuel => False
  end.
Proof.
  unfold expand.
  apply (for_each_post _ (λ b, is_Some (gscore b !! cur))
           (λ r, match r with
                 | Ok _ => True
                 | Raise e => e = IndexError ∧ ¬ rectangular grid
                 | OutOfFuel => False
                 end)); [|done].
  intros b d _ Hb. pose proof (relax_fail goal grid cur b d Hb) as Hf.
  destruct (relax _ _ _ _ _ b d) as [b'| |] eqn:Hr; [|done..].
  apply relax_Ok in Hr as [->|(gc & _ & _ & _ & ->)]; [done|].
  simpl. apply lookup_insert_is_Some'. by right.
Qed.

(** ** The search loop *)

Lemma astar_init_sound start goal grid :
  sound start grid (astar_init start goal).
Proof.
  split; simpl.
  - apply lookup_singleton_eq.
  - unfold heappush. intros e ->%list_elem_of_singleton. simpl.
    rewrite lookup_singleton_eq. by eexists.
  - intros n v [-> <-]%lookup_singleton_Some. rewrite BIG_eq. unfold h. lia.
  - intros n m. by rewrite lookup_empty.
  - intros n [v [-> _]%lookup_singleton_Some]. by left.
Qed.

Lemma pop_sound start grid st e hp :
  sound start grid st → heappop (open_heap st) = Some (e, hp) →
  sound start grid {| open_heap := hp; gscore := gscore st;
                      fscore := fscore st; came := came st |}.
Proof.
  intros [Hs Hh Hr Hc Hk] [Hperm _]%heappop_Some. split; simpl; try done.
  intros x Hx. apply Hh. rewrite Hperm. by right.
Qed.

Lemma astar_body_step start goal grid st st' :
  sound start grid st →
  astar_body goal grid (len grid) (len (grid !!! 0%nat)) st = inl st' →
  sound start grid st' ∧
  potential (len grid) (len (grid !!! 0%nat)) st'
  < potential (len grid) (len (grid !!! 0%nat)) st.
Proof.
  intros Hs. unfold astar_body.
  destruct (heappop (open_heap st)) as [[[f cur] hp]|] eqn:Hpop; [|done].
  case_decide; [done|].
  destruct (expand _ _ _ _ _ _ _) as [st1| |] eqn:Hex; [|done..].
  intros [= <-]. split.
  - eapply expand_sound; [|done]. by eapply pop_sound.
  - apply expand_potential in Hex.
    apply heappop_Some in Hpop as [Hperm _].
    apply Permutation_length in Hperm.
    unfold potential, len in *. simpl in *. lia.
Qed.

Lemma astar_body_exit start goal grid st r :
  sound start grid st →
  astar_body goal grid (len grid) (len (grid !!! 0%nat)) st = inr r →
  astar_post start goal grid r.
Proof.
  intros Hs. unfold astar_body.
  destruct (heappop (open_heap st)) as [[[f cur] hp]|] eqn:Hpop;
    [|by intros [= <-]].
  assert (is_Some (gscore st !! cur)) as [gc Hgc].
  { apply (s_heap _ _ _ Hs (f, cur)).
    apply heappop_Some in Hpop as [-> _]. by left. }
  case_decide as Hcur.
  - subst cur. intros [= <-].
    destruct (rebuild_ok _ _ _ _ _ Hs Hgc) as (p & -> & Hp & Hlen).
    simpl. split; [done|]. destruct (s_range _ _ _ Hs _ _ Hgc). lia.
  - pose proof (expand_fail goal grid cur
                  {| open_heap := hp; gscore := gscore st;
                     fscore := fscore st; came := came st |}) as Hf.
    destruct (expand _ _ _ _ _ _ _) as [st1|e|]; [done| |].
    + intros [= <-]. destruct Hf as [-> Hf]; [by eexists|done].
    + destruct Hf. by eexists.
Qed.

Lemma astar_init_potential start goal H W :
  0 ≤ H → 0 ≤ W →
  potential H W (astar_init start goal) < Z.pos (astar_fuel H W).
Proof.
  intros HH HW. unfold astar_fuel.
  pose proof (gsum_bounds (gscore (astar_init start goal)) (all_cells H W)
    (λ c, sound_gval start [] _ c (astar_init_sound start goal []))) as Hb.
  rewrite len_all_cells in Hb by done.
  assert (0 ≤ H * W) by lia.
  rewrite Z2Pos.id by (rewrite BIG_eq; lia).
  unfold potential, astar_init, heappush, len in *. simpl in *. lia.
Qed.

(** [astar] returns a walk from [start] to [goal] or [None]; it raises
    only an [IndexError], and only on a grid that is not rectangular. *)
Lemma astar_spec start goal grid :
  astar_post start goal grid (astar start goal grid).
Proof.
  unfold astar. destruct grid as [|row0 rows].
  { simpl. by intros []. }
  change (py_index (row0 :: rows) 0) with (Ok (A := list Z) row0). simpl.
  change row0 with ((row0 :: rows) !!! 0%nat) at 1 2.
  apply (run_while_returns _ (sound start (row0 :: rows))
           (astar_post start goal (row0 :: rows))
           (potential (len (row0 :: rows)) (len ((row0 :: rows) !!! 0%nat)))).
  - intros. by eapply astar_body_step.
  - intros. by eapply astar_body_exit.
  - intros. by eapply potential_nonneg.
  - apply astar_init_sound.
  - apply astar_init_potential; unfold len; lia.
Qed.

(** [astar] never runs out of fuel. *)
Lemma astar_total start goal grid : astar start goal grid ≠ OutOfFuel.
Proof.
  intros Hr. pose proof (astar_spec start goal grid) as Hs.
  by rewrite Hr in Hs.
Qed.

Lemma astar_path_ok start goal grid p :
  astar start goal grid = Ok (Some p) → path_ok grid start goal p.
Proof.
  intros Hp. pose proof (astar_spec start goal grid) as Hs.
  rewrite Hp in Hs. apply Hs.
Qed.

Lemma astar_rectangular start goal grid :
  rectangular grid → ∃ o, astar start goal grid = Ok o.
Proof.
  intros Hr. pose proof (astar_spec start goal grid) as Hs.
  destruct (astar start goal grid) as [o|e|]; [by eexists| |done].
  by destruct e.
Qed.

(** ** Walks *)

Lemma walk_tail_free grid p c : walk grid p → c ∈ tail p → is_free grid c.
Proof.
  induction p as [|a q IH]; [by inversion 2|].
  destruct q as [|b q]; [by inversion 2|].
  intros (_ & Hf & Hw)%walk_cons. simpl.
  intros [->|Hc]%elem_of_cons; [done|]. by apply IH.
Qed.

Lemma walk_length grid a b q :
  walk grid (a :: q) → last (a :: q) = Some b → h a b ≤ len q.
Proof.
  revert a. induction q as [|c q IH]; intros a Hw Hl.
  - injection Hl as ->. unfold h, len. simpl. lia.
  - apply walk_cons in Hw as (Hac & _ & Hw).
    rewrite last_cons_cons in Hl. specialize (IH c Hw Hl).
    revert Hac IH. unfold h, len. simpl. lia.
Qed.

Lemma path_ok_length grid a b p :
  path_ok grid a b p → h a b ≤ len p - 1.
Proof.
  intros (Hh & Hl & Hw). destruct p as [|x q]; [done|].
  injection Hh as ->. pose proof (walk_length _ _ _ _ Hw Hl).
  unfold len in *. simpl. lia.
Qed.

(** ** Grids without obstacles *)

Lemma obstacle_free_rectangular grid : obstacle_free grid → rectangular grid.
Proof. unfold obstacle_free. by intros [? _]%andb_True. Qed.

Lemma in_bounds_spec grid (c : cell) :
  in_bounds grid c ↔ 0 ≤ c.1 < len grid ∧ 0 ≤ c.2 < len (grid !!! 0%nat).
Proof. unfold in_bounds. by rewrite bool_decide_spec. Qed.

Lemma obstacle_free_is_free grid c :
  obstacle_free grid → in_bounds grid c → is_free grid c.
Proof.
  intros Hof Hb. pose proof (obstacle_free_rectangular _ Hof) as Hrect.
  unfold is_free. apply andb_True. split; [done|].
  apply in_bounds_spec in Hb as [Hr Hc]. unfold len in *.
  destruct (lookup_lt_is_Some_2 grid (Z.to_nat c.1)) as [row Hrow]; [lia|].
  pose proof (rectangular_row _ _ _ Hrect Hrow) as Hlen.
  destruct (lookup_lt_is_Some_2 row (Z.to_nat c.2)) as [v Hv]; [lia|].
  apply bool_decide_spec. unfold cell_at. rewrite Hrow, Hv. f_equal.
  unfold obstacle_free in Hof. apply andb_True in Hof as [_ Hall].
  apply forallb_True in Hall. rewrite Forall_forall in Hall.
  specialize (Hall row (list_elem_of_lookup_2 _ _ _ Hrow)).
  apply forallb_True in Hall. rewrite Forall_forall in Hall.
  specialize (Hall v (list_elem_of_lookup_2 _ _ _ Hv)).
  apply Is_true_true, Z.eqb_eq in Hall. done.
Qed.

(** A cell other than [goal] has a neighbour in bounds that is one step
    nearer to [goal]. *)
Lemma step_towards grid (c goal : cell) :
  in_bounds grid c → in_bounds grid goal → c ≠ goal →
  ∃ d, d ∈ neighbors ∧ in_bounds grid (c.1 + d.1, c.2 + d.2) ∧
       h (c.1 + d.1, c.2 + d.2) goal = h c goal - 1.
Proof.
  rewrite !in_bounds_spec. destruct c as [r k], goal as [gr gk]. simpl.
  intros Hc Hg Hne. unfold neighbors, h. simpl.
  destruct (Z.lt_total r gr) as [?|[->|?]].
  - exists (1, 0). rewrite in_bounds_spec. simpl.
    split; [by repeat constructor|]. lia.
  - destruct (Z.lt_total k gk) as [?|[->|?]]; [|done|].
    + exists (0, 1). rewrite in_bounds_spec. simpl.
      split; [by repeat constructor|]. lia.
    + exists (0, -1). rewrite in_bounds_spec. simpl.
      split; [by repeat constructor|]. lia.
  - exists (-1, 0). rewrite in_bounds_spec. simpl.
    split; [by repeat constructor|]. lia.
Qed.

Lemma h_zero (a b : cell) : h a b = 0 → a = b.
Proof. destruct a, b. unfold h. simpl. intros. f_equal; lia. Qed.

(** ** The search on a grid without obstacles *)

Lemma improve_optimal goal grid d cur n gc st :
  optimal goal grid d (Some cur) st →
  is_free grid n → gc + 1 < gval (gscore st) n →
  optimal goal grid d (Some cur) (improve goal cur n (gc + 1) st).
Proof.
  intros [Hh Hb Hf] Hfree Hlt.
  assert (∀ v, gscore st !! n = Some v → gc + 1 < v) as Hold.
  { intros v Hv. unfold gval in Hlt. by rewrite Hv in Hlt. }
  split; simpl; unfold heappush.
  - intros e [->|He]%elem_of_cons; simpl.
    { exists (gc + 1). by rewrite lookup_insert_eq. }
    destruct (Hh e He) as (v & Hv & Hle).
    destruct (decide (n = e.2)) as [Hn|Hn].
    + exists (gc + 1). rewrite Hn, lookup_insert_eq. split; [done|].
      rewrite <-Hn in Hv. specialize (Hold _ Hv). lia.
    + exists v. by rewrite lookup_insert_ne.
  - intros m [->|Hm]%lookup_insert_is_Some'; [|by apply Hb].
    unfold is_free in Hfree. by apply andb_True in Hfree as [? _].
  - intros m v. rewrite lookup_insert. case_decide as Hm.
    { subst m. intros [= <-] _. right; left. by left. }
    intros Hv Hle.
    destruct (Hf m v Hv Hle) as [?|[?|(Hmg & n' & v' & Ha & Hd & Hv' & Hle')]].
    + by left.
    + right; left. by right.
    + right; right. split; [done|].
      destruct (decide (n = n')) as [->|Hn].
      * exists n', (gc + 1). rewrite lookup_insert_eq.
        split_and!; try done. specialize (Hold _ Hv'). lia.
      * exists n', v'. by rewrite lookup_insert_ne.
Qed.

Lemma expand_optimal goal grid d cur st st' :
  optimal goal grid d (Some cur) st →
  expand goal grid (len grid) (len (grid !!! 0%nat)) cur st neighbors = Ok st' →
  optimal goal grid d (Some cur) st'.
Proof.
  unfold expand. apply for_each_inv. intros b a b' Ha Hb.
  intros [->|(gc & Hgc & Hf & Hlt & ->)]%relax_Ok; [done|].
  by apply improve_optimal.
Qed.

Lemma expand_cur_same goal grid cur st st' :
  expand goal grid (len grid) (len (grid !!! 0%nat)) cur st neighbors = Ok st' →
  gscore st' !! cur = gscore st !! cur.
Proof.
  unfold expand.
  apply (for_each_inv _ (λ b, gscore b !! cur = gscore st !! cur));
    [|done].
  intros b a b' Ha Hb [->|(gc & Hgc & Hf & Hlt & ->)]%relax_Ok; [done|].
  simpl. rewrite lookup_insert_ne; [done|].
  pose proof (neighbors_adjacent cur a Ha) as Hadj.
  intros Heq. rewrite Heq in Hadj. unfold h in Hadj. lia.
Qed.

Lemma relax_mono goal grid cur st d st' m v :
  relax goal grid (len grid) (len (grid !!! 0%nat)) cur st d = Ok st' →
  gscore st !! m = Some v →
  ∃ v', gscore st' !! m = Some v' ∧ v' ≤ v.
Proof.
  intros [->|(gc & Hgc & Hf & Hlt & ->)]%relax_Ok Hv.
  - exists v. split; [done|lia].
  - simpl. destruct (decide (m = (cur.1 + d.1, cur.2 + d.2))) as [->|Hm].
    + exists (gc + 1). rewrite lookup_insert_eq. split; [done|].
      unfold gval in Hlt. rewrite Hv in Hlt. simpl in Hlt. lia.
    + exists v. rewrite lookup_insert_ne by done. split; [done|lia].
Qed.

Lemma relax_done goal grid cur st d st' gc :
  is_free grid (cur.1 + d.1, cur.2 + d.2) →
  gscore st !! cur = Some gc → gc + 1 < BIG →
  relax goal grid (len grid) (len (grid !!! 0%nat)) cur st d = Ok st' →
  ∃ v', gscore st' !! (cur.1 + d.1, cur.2 + d.2) = Some v' ∧ v' ≤ gc + 1.
Proof.
  intros Hfree Hgc Hbig. unfold relax.
  unfold is_free in Hfree. apply andb_True in Hfree as [Hb Hat].
  apply in_bounds_spec in Hb. apply bool_decide_spec in Hat.
  simpl in Hb. rewrite bool_decide_eq_true_2 by done.
  unfold cell_at in Hat. simpl in Hat.
  destruct (grid !! Z.to_nat (cur.1 + d.1)) as [row|] eqn:Hrow; [|done].
  rewrite (py_index_lookup _ _ _ (proj1 (proj1 Hb)) Hrow). simpl.
  rewrite (py_index_lookup _ _ _ (proj1 (proj2 Hb)) Hat). simpl.
  unfold dict_get. rewrite Hgc. simpl.
  destruct (Z.ltb_spec (gc + 1)
              (default BIG (gscore st !! (cur.1 + d.1, cur.2 + d.2))))
    as [Hlt|Hge]; intros [= <-]; simpl.
  - exists (gc + 1). rewrite lookup_insert_eq. split; [done|lia].
  - destruct (gscore st !! (cur.1 + d.1, cur.2 + d.2)) as [v|];
      simpl in Hge; [|lia].
    exists v. split; [done|lia].
Qed.

Lemma relax_all_mono goal grid cur ds m :
  ∀ st st' v,
  for_each (relax goal grid (len grid) (len (grid !!! 0%nat)) cur) st ds
  = Ok st' →
  gscore st !! m = Some v →
  ∃ v', gscore st' !! m = Some v' ∧ v' ≤ v.
Proof.
  induction ds as [|a ds IH]; intros st st' v; simpl.
  - intros [= <-] Hv. exists v. split; [done|lia].
  - destruct (relax _ _ _ _ _ st a) as [st1| |] eqn:Hr; simpl; [|done..].
    intros Hrest Hv.
    destruct (relax_mono _ _ _ _ _ _ _ _ Hr Hv) as (v1 & Hv1 & Hle1).
    destruct (IH _ _ _ Hrest Hv1) as (v' & Hv' & Hle').
    exists v'. split; [done|lia].
Qed.

Lemma expand_done goal grid cur gc d ds :
  d ∈ ds → is_free grid (cur.1 + d.1, cur.2 + d.2) → gc + 1 < BIG →
  ∀ st st' g0, gscore st !! cur = Some g0 → g0 ≤ gc →
  for_each (relax goal grid (len grid) (len (grid !!! 0%nat)) cur) st ds
  = Ok st' →
  ∃ v', gscore st' !! (cur.1 + d.1, cur.2 + d.2) = Some v' ∧ v' ≤ gc + 1.
Proof.
  intros Hd Hfree Hbig. induction ds as [|a ds IH]; [by inversion Hd|].
  intros st st' g0 Hg0 Hle. simpl.
  destruct (relax _ _ _ _ _ st a) as [st1| |] eqn:Hr; simpl; [|done..].
  intros Hrest.
  destruct (relax_mono _ _ _ _ _ _ _ _ Hr Hg0) as (g1 & Hg1 & Hle1).
  apply elem_of_cons in Hd as [->|Hd].
  - destruct (relax_done _ _ _ _ _ _ g0 Hfree Hg0 ltac:(lia) Hr)
      as (v1 & Hv1 & Hlev).
    destruct (relax_all_mono _ _ _ _ _ _ _ _ Hrest Hv1) as (v' & Hv' & Hle').
    exists v'. split; [done|lia].
  - apply (IH Hd st1 st' g1); [done|lia|done].
Qed.

Lemma pop_optimal goal grid d st f cur hp :
  optimal goal grid d None st →
  heappop (open_heap st) = Some ((f, cur), hp) →
  optimal goal grid d (Some cur)
    {| open_heap := hp; gscore := gscore st;
       fscore := fscore st; came := came st |}.
Proof.
  intros [Hh Hb Hf] [Hperm _]%heappop_Some. split; simpl; [|done|].
  - intros e He. apply Hh. rewrite Hperm. by right.
  - intros m v Hv Hle.
    destruct (Hf m v Hv Hle) as [?|[He|?]]; [done| |by right; right].
    rewrite Hperm in He. apply elem_of_cons in He as [[= _ ->]|He].
    + by left.
    + right. by left.
Qed.

Lemma close_optimal goal grid d cur st0 st :
  obstacle_free grid → in_bounds grid goal → d < BIG → cur ≠ goal →
  optimal goal grid d (Some cur) st0 →
  expand goal grid (len grid) (len (grid !!! 0%nat)) cur st0 neighbors = Ok st →
  optimal goal grid d None st.
Proof.
  intros Hof Hgoal Hd Hne Hopt0 Hex.
  pose proof (expand_optimal _ _ _ _ _ _ Hopt0 Hex) as [Hh Hb Hf].
  split; [done..|]. intros m v Hv Hle.
  destruct (Hf m v Hv Hle) as [[= ->]|[?|?]];
    [|by right; left|by right; right].
  right; right. split; [done|].
  assert (in_bounds grid m) as Hm by (apply Hb; by eexists).
  destruct (step_towards grid m goal Hm Hgoal Hne) as (dir & Hdir & Hin & Hstep).
  pose proof (obstacle_free_is_free _ _ Hof Hin) as Hfree.
  assert (gscore st0 !! m = Some v) as Hv0.
  { by rewrite <-(expand_cur_same _ _ _ _ _ Hex). }
  assert (v + 1 < BIG) as Hbig.
  { assert (h m goal ≠ 0) by (intros ?%h_zero; done).
    assert (0 ≤ h m goal) by (unfold h; lia). lia. }
  destruct (expand_done goal grid m v dir neighbors Hdir Hfree Hbig
              st0 st v Hv0 ltac:(lia) Hex) as (v' & Hv' & Hle').
  exists (m.1 + dir.1, m.2 + dir.2), v'.
  split_and!; try done. by apply neighbors_adjacent.
Qed.

(** While the search runs, the heap holds an entry whose [f] is at most
    the Manhattan distance. *)
Lemma front_entry goal grid d st (k : nat) :
  optimal goal grid d None st →
  ∀ n v, h n goal = Z.of_nat k → gscore st !! n = Some v →
  v + h n goal ≤ d →
  ∃ e, e ∈ open_heap st ∧ e.1 ≤ d.
Proof.
  intros Hopt. induction k as [|k IH]; intros n v Hk Hv Hle.
  - destruct (o_front _ _ _ _ _ Hopt n v Hv Hle) as [?|[?|[Hne _]]]; [done| |].
    + by eexists.
    + destruct Hne. apply h_zero. lia.
  - destruct (o_front _ _ _ _ _ Hopt n v Hv Hle)
      as [?|[?|(_ & n' & v' & _ & Hd & Hv' & Hle')]]; [done| |].
    + by eexists.
    + apply (IH n' v'); [lia|done|lia].
Qed.

Lemma astar_init_optimal start goal grid :
  in_bounds grid start →
  optimal goal grid (h start goal) None (astar_init start goal).
Proof.
  intros Hs. split; simpl; unfold heappush.
  - intros e ->%list_elem_of_singleton. exists 0. simpl.
    rewrite lookup_singleton_eq. split; [done|lia].
  - by intros n [v [-> _]%lookup_singleton_Some].
  - intros n v [-> <-]%lookup_singleton_Some _. right; left.
    by apply list_elem_of_singleton.
Qed.

(** On a grid without obstacles [astar] returns a path whose number of
    moves is the Manhattan distance, when that is below [1e9]. *)
Lemma astar_open_grid start goal grid :
  obstacle_free grid → in_bounds grid start → in_bounds grid goal →
  h start goal < BIG →
  ∃ p, astar start goal grid = Ok (Some p) ∧
       path_ok grid start goal p ∧ len p - 1 = h start goal.
Proof.
  intros Hof Hstart Hgoal Hd.
  pose proof (obstacle_free_rectangular _ Hof) as Hrect.
  cut (∃ p, astar start goal grid = Ok (Some p) ∧
            path_ok grid start goal p ∧ len p - 1 ≤ h start goal).
  { intros (p & Hp & Hok & Hle). exists p. split_and!; try done.
    pose proof (path_ok_length _ _ _ _ Hok). lia. }
  unfold astar. destruct grid as [|row0 rows]; [done|].
  change (py_index (row0 :: rows) 0) with (Ok (A := list Z) row0). simpl.
  change row0 with ((row0 :: rows) !!! 0%nat) at 1 2.
  set (grid := row0 :: rows) in *.
  apply (run_while_returns _
           (λ st, sound start grid st ∧
                  optimal goal grid (h start goal) None st)
           (λ r, ∃ p, r = Ok (Some p) ∧ path_ok grid start goal p ∧
                      len p - 1 ≤ h start goal)
           (potential (len grid) (len (grid !!! 0%nat)))).
  - intros st st' [Hs Ho] Hbody.
    destruct (astar_body_step _ _ _ _ _ Hs Hbody) as [Hs' Hpot].
    split; [split; [done|]|done].
    revert Hbody. unfold astar_body.
    destruct (heappop (open_heap st)) as [[[f cur] hp]|] eqn:Hpop; [|done].
    case_decide as Hcur; [done|].
    destruct (expand _ _ _ _ _ _ _) as [st1| |] eqn:Hex; [|done..].
    intros [= <-]. eapply close_optimal; try done.
    by eapply pop_optimal.
  - intros st r [Hs Ho] Hbody.
    destruct (front_entry goal grid (h start goal) st
                (Z.to_nat (h start goal)) Ho start 0) as (e & He & Hed).
    { unfold h. lia. }
    { apply (s_start _ _ _ Hs). }
    { lia. }
    revert Hbody. unfold astar_body.
    destruct (heappop (open_heap st)) as [[[f cur] hp]|] eqn:Hpop.
    2:{ apply heappop_None in Hpop. rewrite Hpop in He. by inversion He. }
    pose proof (heappop_Some _ _ _ Hpop) as [Hperm Hmin].
    specialize (Hmin e He). simpl in Hmin.
    destruct (o_heap _ _ _ _ _ Ho (f, cur)) as (gc & Hgc & Hfc).
    { rewrite Hperm. by left. }
    simpl in Hgc, Hfc.
    case_decide as Hcur.
    + subst cur. intros [= <-].
      destruct (rebuild_ok _ _ _ _ _ Hs Hgc) as (p & -> & Hp & Hlen).
      exists p. simpl. split_and!; try done.
      assert (0 ≤ h goal goal) by (unfold h; lia). lia.
    + pose proof (expand_fail goal grid cur
                    {| open_heap := hp; gscore := gscore st;
                       fscore := fscore st; came := came st |}) as Hf.
      destruct (expand _ _ _ _ _ _ _) as [st1|ex|]; [done| |].
      * destruct Hf as [_ Hf]; [by eexists|]. by destruct Hf.
      * destruct Hf. by eexists.
  - intros st [Hs _]. by eapply potential_nonneg.
  - split; [apply astar_init_sound|by apply astar_init_optimal].
  - apply astar_init_potential; unfold len; lia.
Qed.

(** ** PathFinder: the claims *)

Lemma astar_far_goal start goal grid :
  rectangular grid → BIG ≤ h start goal → astar start goal grid = Ok None.
Proof.
  intros Hrect Hfar. pose proof (astar_spec start goal grid) as Hs.
  destruct (astar start goal grid) as [[p|]|e|]; simpl in Hs; try done.
  - destruct Hs as [Hok Hlen]. pose proof (path_ok_length _ _ _ _ Hok). lia.
  - by destruct e.
Qed.

Lemma one_row_obstacle_free (n : nat) : obstacle_free [repeat 0 n].
Proof.
  unfold obstacle_free, rectangular. cbn [forallb].
  rewrite Nat.eqb_refl. cbn [andb].
  assert (forallb (Z.eqb 0) (repeat 0 n) = true) as ->; [|done].
  induction n as [|n IH]; [done|]. cbn [repeat forallb]. by rewrite IH.
Qed.

Lemma one_row_in_bounds (n : nat) (c : Z) :
  0 ≤ c < Z.of_nat n → in_bounds [repeat 0 n] (0, c).
Proof.
  intros Hc. apply in_bounds_spec. unfold len. cbn [fst snd length].
  change ([repeat 0 n] !!! 0%nat) with (repeat 0 n).
  rewrite repeat_length. lia.
Qed.

(** C1, as stated, fails: on one row of [1e9 + 1] free cells the search
    from the first cell to the last one returns [None], because a cost of
    [1e9] is never recorded. *)
Lemma C1_far_goal_counterexample :
  obstacle_free wide_grid ∧
  in_bounds wide_grid (0, 0) ∧ in_bounds wide_grid (0, BIG) ∧
  astar (0, 0) (0, BIG) wide_grid = Ok None.
Proof.
  assert (0 ≤ BIG) as Hbig by (rewrite BIG_eq; lia).
  unfold wide_grid. split_and!.
  - apply one_row_obstacle_free.
  - apply one_row_in_bounds. rewrite Z2Nat.id; lia.
  - apply one_row_in_bounds. rewrite Z2Nat.id; lia.
  - apply astar_far_goal.
    + apply obstacle_free_rectangular, one_row_obstacle_free.
    + unfold h. cbn [fst snd]. lia.
Qed.

(** C1 (amended): on a grid without obstacles, for [start] and [goal] in
    bounds whose Manhattan distance [h start goal] is below [1e9], [astar]
    returns a walk from [start] to [goal] whose number of moves is the
    Manhattan distance, hence a shortest one ([path_ok_length]). *)
Theorem C1_astar_manhattan (start goal : cell) (grid : grid_t) :
  obstacle_free grid → in_bounds grid start → in_bounds grid goal →
  h start goal < BIG →
  ∃ p, astar start goal grid = Ok (Some p) ∧
       path_ok grid start goal p ∧
       len p - 1 = h start goal.
Proof.
  intros Hof Hs Hg Hd.
  destruct (astar_open_grid start goal grid Hof Hs Hg Hd)
    as (p & Hp & Hok & Hlen).
  by exists p.
Qed.

Lemma C1_astar_manhattan_witness :
  obstacle_free open3 ∧ in_bounds open3 (0, 0) ∧ in_bounds open3 (2, 1) ∧
  h (0, 0) (2, 1) < BIG ∧
  ∃ p, astar (0, 0) (2, 1) open3 = Ok (Some p) ∧
       path_ok open3 (0, 0) (2, 1) p ∧
       len p - 1 = h (0, 0) (2, 1).
Proof.
  assert (obstacle_free open3) as H1 by (vm_compute; exact I).
  assert (in_bounds open3 (0, 0)) as H2 by (vm_compute; exact I).
  assert (in_bounds open3 (2, 1)) as H3 by (vm_compute; exact I).
  assert (h (0, 0) (2, 1) < BIG) as H4 by (vm_compute; reflexivity).
  split_and!; [exact H1|exact H2|exact H3|exact H4|].
  exact (C1_astar_manhattan (0, 0) (2, 1) open3 H1 H2 H3 H4).
Defined.

(** C2, as stated, fails: the start cell is never checked, so a search
    whose start is an obstacle, or lies outside the grid, returns a path
    that begins with that cell. *)
Lemma C2_start_counterexample :
  astar (1, 1) (1, 1) grid3 = Ok (Some [(1, 1)]) ∧
  is_free grid3 (1, 1) = false ∧
  astar (-1, 0) (1, 0) grid3 = Ok (Some [(-1, 0); (0, 0); (1, 0)]) ∧
  in_bounds grid3 (-1, 0) = false.
Proof. vm_compute. done. Qed.

(** C2 (amended): a path returned by [astar] begins with [start], and
    each of its cells after the first is in bounds and not an obstacle;
    so is the whole path when [start] is. *)
Theorem C2_astar_path_free (start goal : cell) (grid : grid_t)
    (p : list cell) :
  astar start goal grid = Ok (Some p) →
  head p = Some start ∧
  (∀ c, c ∈ tail p → is_free grid c) ∧
  (is_free grid start → ∀ c, c ∈ p → is_free grid c).
Proof.
  intros (Hh & _ & Hw)%astar_path_ok. split_and!; [done| |].
  - intros c. by apply walk_tail_free.
  - intros Hs c Hc. destruct p as [|a q]; [by inversion Hc|].
    injection Hh as ->. apply elem_of_cons in Hc as [->|Hc]; [done|].
    by apply (walk_tail_free grid (start :: q)).
Qed.

Lemma C2_astar_path_free_witness :
  astar (0, 0) (2, 2) grid3
  = Ok (Some [(0, 0); (0, 1); (0, 2); (1, 2); (2, 2)]) ∧
  (∀ c, c ∈ [(0, 1); (0, 2); (1, 2); (2, 2)] → is_free grid3 c).
Proof.
  assert (astar (0, 0) (2, 2) grid3
          = Ok (Some [(0, 0); (0, 1); (0, 2); (1, 2); (2, 2)])) as H
    by (vm_compute; reflexivity).
  split; [exact H|].
  exact (proj1 (proj2 (C2_astar_path_free _ _ _ _ H))).
Defined.

(** ** One round of the allocator *)

Lemma for_each_prefix {A B} (f : B → A → res B) (P : list A → B → Prop)
    (l : list A) :
  (∀ pre a b b', P pre b → f b a = Ok b' → P (pre ++ [a]) b') →
  ∀ pre b b', P pre b → for_each f b l = Ok b' → P (pre ++ l) b'.
Proof.
  intros Hf. induction l as [|a l IH]; intros pre b b' Hb; simpl.
  - intros [= <-]. by rewrite app_nil_r.
  - destruct (f b a) as [b1| |] eqn:Hfa; simpl; [|done..].
    intros Hrest. rewrite cons_middle, app_assoc.
    eapply IH; [|done]. by eapply Hf.
Qed.

Lemma find_best_pairs grid st :
  find_best grid st
  = for_each (λ best x, score_pair grid st x.1 best x.2) None
      (pairs (remaining st)).
Proof.
  unfold find_best, pairs. generalize (@None (cell * Z * list cell * Z)).
  induction (remaining st) as [|c l IH]; intros b; simpl; [done|].
  destruct (score_pair grid st c b 0) as [b1| |]; simpl; [|done..].
  destruct (score_pair grid st c b1 1) as [b2| |]; simpl; [|done..].
  apply IH.
Qed.

Lemma score_pair_first_min grid st pre c ag best best' :
  first_min (pair_score grid st) pre (best_key best) →
  score_pair grid st c best ag = Ok best' →
  first_min (pair_score grid st) (pre ++ [(c, ag)]) (best_key best').
Proof.
  intros Hmin. unfold score_pair.
  destruct (astar (est_pos st !!! ag) c grid) as [[path|]|e|] eqn:Ha;
    simpl; [| |done..].
  - assert (pair_score grid st (c, ag)
            = Some ((est_len st !!! ag) + len path - 1)) as Hsc.
    { unfold pair_score. cbn [fst snd]. by rewrite Ha. }
    destruct best as [[[[bc bag] bpath] bs]|]; simpl in Hmin.
    + destruct Hmin as (Hb & l1 & l2 & -> & H1 & H2).
      destruct (Z.ltb_spec ((est_len st !!! ag) + len path - 1) bs);
        intros [= <-]; simpl.
      * split; [done|]. exists (l1 ++ (bc, bag) :: l2), []. split; [done|].
        split; [|by inversion 1].
        intros y s' Hy Hs'. rewrite elem_of_app, elem_of_cons in Hy.
        destruct Hy as [Hy|[->|Hy]].
        -- specialize (H1 _ _ Hy Hs'). lia.
        -- rewrite Hb in Hs'. injection Hs' as <-. lia.
        -- specialize (H2 _ _ Hy Hs'). lia.
      * split; [done|]. exists l1, (l2 ++ [(c, ag)]).
        split; [by rewrite <-app_assoc|]. split; [done|].
        intros y s' [Hy| ->%list_elem_of_singleton]%elem_of_app Hs'.
        -- by eapply H2.
        -- rewrite Hsc in Hs'. injection Hs' as <-. lia.
    + intros [= <-]. simpl. split; [done|]. exists pre, []. split; [done|].
      split; [|by inversion 1].
      intros y s' Hy Hs'. rewrite (Hmin y Hy) in Hs'. done.
  - assert (pair_score grid st (c, ag) = None) as Hsc.
    { unfold pair_score. cbn [fst snd]. by rewrite Ha. }
    intros [= <-].
    destruct best as [[[[bc bag] bpath] bs]|]; simpl in *.
    + destruct Hmin as (Hb & l1 & l2 & -> & H1 & H2).
      split; [done|]. exists l1, (l2 ++ [(c, ag)]).
      split; [by rewrite <-app_assoc|]. split; [done|].
      intros y s' [Hy| ->%list_elem_of_singleton]%elem_of_app Hs'.
      * by eapply H2.
      * congruence.
    + intros y [Hy| ->%list_elem_of_singleton]%elem_of_app; [|done].
      by apply Hmin.
Qed.

Lemma score_pair_path grid st c ag best best' :
  (∀ bc bag bp bs, best = Some (bc, bag, bp, bs) →
     astar (est_pos st !!! bag) bc grid = Ok (Some bp)) →
  score_pair grid st c best ag = Ok best' →
  ∀ bc bag bp bs, best' = Some (bc, bag, bp, bs) →
    astar (est_pos st !!! bag) bc grid = Ok (Some bp).
Proof.
  intros Hb. unfold score_pair.
  destruct (astar (est_pos st !!! ag) c grid) as [[path|]|e|] eqn:Ha;
    simpl; [| |done..].
  - destruct (match best with
              | Some (_, bs) => _ <? bs
              | None => true
              end); intros [= <-]; [|done].
    by intros ???? [= <- <- <- <-].
  - by intros [= <-].
Qed.

Lemma score_pair_Ok grid st c ag best best' :
  score_pair grid st c best ag = Ok best' →
  ∃ o, astar (est_pos st !!! ag) c grid = Ok o.
Proof.
  unfold score_pair.
  destruct (astar (est_pos st !!! ag) c grid) as [o|e|]; [|done..].
  by exists o.
Qed.

(** The pair chosen in a round is the first, in iteration order, of the
    pairs with the least score; its path is the one [astar] returns. *)
Lemma find_best_Ok grid st best :
  find_best grid st = Ok best →
  first_min (pair_score grid st) (pairs (remaining st)) (best_key best) ∧
  (∀ c ag p s, best = Some (c, ag, p, s) →
    astar (est_pos st !!! ag) c grid = Ok (Some p)) ∧
  (∀ x, x ∈ pairs (remaining st) →
    ∃ o, astar (est_pos st !!! x.2) x.1 grid = Ok o).
Proof.
  rewrite find_best_pairs. intros Hf.
  apply (for_each_prefix _
           (λ pre b, first_min (pair_score grid st) pre (best_key b) ∧
                     (∀ c ag p s, b = Some (c, ag, p, s) →
                       astar (est_pos st !!! ag) c grid = Ok (Some p)) ∧
                     (∀ x, x ∈ pre →
                       ∃ o, astar (est_pos st !!! x.2) x.1 grid = Ok o))
           (pairs (remaining st))) with (pre := []) (b := None) in Hf;
    [done| |].
  - intros pre [c ag] b b' (Hmin & Hp & Hok) Hsp. cbn [fst snd] in Hsp.
    split_and!.
    + by eapply score_pair_first_min.
    + by eapply score_pair_path.
    + intros x [Hx| ->%list_elem_of_singleton]%elem_of_app; [by apply Hok|].
      by eapply score_pair_Ok.
  - split_and!; [by inversion 1|done|by inversion 1].
Qed.

Lemma elem_of_pairs rem c ag :
  (c, ag) ∈ pairs rem ↔ c ∈ rem ∧ (ag = 0 ∨ ag = 1).
Proof.
  unfold pairs. rewrite list_elem_of_In, in_flat_map. split.
  - intros (x & Hx%list_elem_of_In & Hin). simpl in Hin.
    destruct Hin as [[= -> <-]|[[= -> <-]|[]]]; auto.
  - intros [Hc Hag]. exists c. split; [by apply list_elem_of_In|].
    simpl. destruct Hag as [-> | ->]; auto.
Qed.

Lemma find_best_fail grid st :
  match find_best grid st with
  | Ok _ => True
  | Raise e => e = IndexError ∧ ¬ rectangular grid
  | OutOfFuel => False
  end.
Proof.
  rewrite find_best_pairs.
  apply (for_each_post _ (λ _, True)
           (λ r, match r with
                 | Ok _ => True
                 | Raise e => e = IndexError ∧ ¬ rectangular grid
                 | OutOfFuel => False
                 end)); [|done..].
  intros b [c ag] _ _. unfold score_pair. simpl.
  pose proof (astar_spec (est_pos st !!! ag) c grid) as Hs.
  destruct (astar (est_pos st !!! ag) c grid) as [[path|]|e|]; simpl.
  - by destruct (match b with Some _ => _ | None => _ end).
  - done.
  - simpl in Hs. by destruct e.
  - done.
Qed.

(** ** Walks, chains and costs *)

Lemma path_ok_refl grid a : path_ok grid a a [a].
Proof. done. Qed.

Lemma walk_join grid p b q :
  last p = Some b → walk grid p → walk grid (b :: q) → walk grid (p ++ q).
Proof.
  induction p as [|x p IH]; [done|]. destruct p as [|y p].
  - by intros [= ->].
  - rewrite last_cons_cons. intros Hl (Hxy & Hy & Hw)%walk_cons Hq.
    change ((x :: y :: p) ++ q) with (x :: y :: (p ++ q)).
    apply walk_cons. split_and!; [done..|]. by apply IH.
Qed.

Lemma path_ok_join grid a b c p q :
  path_ok grid a b p → path_ok grid b c q → path_ok grid a c (p ++ tail q).
Proof.
  intros (Hpa & Hpb & Hpw) (Hqb & Hqc & Hqw).
  destruct q as [|x q]; [done|]. injection Hqb as ->. simpl.
  destruct p as [|y p]; [done|]. split_and!.
  - done.
  - destruct q as [|z q].
    + rewrite app_nil_r. by injection Hqc as <-.
    + rewrite last_app. rewrite last_cons_cons in Hqc. by rewrite Hqc.
  - by eapply walk_join.
Qed.

Lemma reachable_step grid a b c p :
  reachable grid a b → astar b c grid = Ok (Some p) → reachable grid a c.
Proof.
  intros [q Hq] Hp%astar_path_ok. eexists. by eapply path_ok_join.
Qed.

Lemma chain_snoc grid s l t :
  chain grid s (l ++ [t]) ↔
  chain grid s l ∧ ∃ p, astar (default s (last l)) t grid = Ok (Some p).
Proof.
  revert s. induction l as [|a l IH]; intros s; simpl.
  - tauto.
  - rewrite IH, last_cons. destruct (last l); simpl; tauto.
Qed.

Lemma legs_cost_snoc grid s l t :
  legs_cost grid s (l ++ [t])
  = legs_cost grid s l + leg_cost grid (default s (last l)) t.
Proof.
  revert s. induction l as [|a l IH]; intros s; simpl; [lia|].
  rewrite IH, last_cons. destruct (last l); simpl; lia.
Qed.

Lemma filter_ne_absent (l : list cell) (c : cell) :
  c ∉ l → filter (λ x, x ≠ c) l = l.
Proof.
  induction l as [|y l IH]; [done|].
  intros [Hcy Hc]%not_elem_of_cons.
  rewrite filter_cons_True by done. f_equal. by apply IH.
Qed.

Lemma NoDup_remove_one (l : list cell) (c : cell) :
  NoDup l → c ∈ l → l ≡ₚ c :: filter (λ x, x ≠ c) l.
Proof.
  induction 1 as [|x l Hx Hnd IH]; [by inversion 1|].
  intros [->|Hc]%elem_of_cons.
  - rewrite filter_cons_False by naive_solver.
    by rewrite filter_ne_absent.
  - assert (x ≠ c) by (intros ->; done).
    rewrite filter_cons_True by done. rewrite (IH Hc) at 1.
    apply Permutation_swap.
Qed.

(** ** The allocation loop *)

Lemma alloc_body_step grid s0 s1 D st st' :
  NoDup D → alloc_inv grid s0 s1 D st →
  alloc_body grid st = inl st' →
  alloc_inv grid s0 s1 D st' ∧ len (remaining st') < len (remaining st).
Proof.
  intros HD [Hdom Hperm Hag]. unfold alloc_body.
  destruct (remaining st) as [|c0 rem0] eqn:Hrem; [done|]. rewrite <-Hrem.
  destruct (find_best grid st) as [[[[[c ag] path] score]|]| |] eqn:Hfb;
    [|done..].
  intros [= <-].
  apply find_best_Ok in Hfb as ((Hsc & l1 & l2 & Hl & _) & Hpath & _).
  specialize (Hpath _ _ _ _ eq_refl).
  assert ((c, ag) ∈ pairs (remaining st)) as [Hc Hag01]%elem_of_pairs.
  { rewrite Hl. apply elem_of_app. right. by left. }
  unfold pair_score in Hsc. cbn [fst snd] in Hsc. rewrite Hpath in Hsc.
  injection Hsc as Hscore.
  assert (NoDup (remaining st)) as Hnd.
  { rewrite <-Hperm in HD. apply NoDup_app in HD as (_ & _ & HD).
    apply NoDup_app in HD as (_ & _ & HD). by rewrite Hrem. }
  pose proof (NoDup_remove_one _ _ Hnd Hc) as Hone.
  split.
  - split; simpl.
    + rewrite dom_insert_L, Hdom. destruct Hag01 as [-> | ->]; set_solver.
    + rewrite <-Hrem in Hperm. rewrite <-Hperm.
      set (rem' := filter (λ x, x ≠ c) (remaining st)) in *. rewrite Hone.
      destruct Hag01 as [-> | ->].
      * rewrite lookup_total_insert_eq, lookup_total_insert_ne by done.
        rewrite <-app_assoc. f_equiv. simpl. apply Permutation_middle.
      * rewrite lookup_total_insert_eq, lookup_total_insert_ne by done.
        f_equiv. by rewrite <-app_assoc.
    + intros ag' Hag'. destruct (decide (ag' = ag)) as [->|Hne].
      * rewrite !lookup_total_insert_eq.
        destruct (Hag ag Hag') as (Hch & Hpos & Hlen & Hreach & Hall).
        split_and!.
        -- apply chain_snoc. split; [done|]. rewrite <-Hpos. by eexists.
        -- by rewrite last_snoc.
        -- rewrite legs_cost_snoc, <-Hlen, <-Hpos, <-Hscore.
           unfold leg_cost. rewrite Hpath. lia.
        -- by eapply reachable_step.
        -- intros t [Ht| ->%list_elem_of_singleton]%elem_of_app;
             [by apply Hall|]. by eapply reachable_step.
      * rewrite !lookup_total_insert_ne by done. by apply Hag.
  - simpl. unfold len.
    pose proof (length_filter_lt (λ x, x ≠ c) (remaining st) c Hc) as Hlt.
    apply Nat2Z.inj_lt, Hlt. intros Hn. by apply Hn.
Qed.

Lemma alloc_body_exit grid s0 s1 D st r :
  alloc_inv grid s0 s1 D st →
  alloc_body grid st = inr r → alloc_post grid s0 s1 D r.
Proof.
  intros Hinv. unfold alloc_body.
  destruct (remaining st) as [|c0 rem0] eqn:Hrem.
  { intros [= <-]. split; [done|]. rewrite Hrem. by inversion 1. }
  rewrite <-Hrem.
  pose proof (find_best_fail grid st) as Hfail.
  destruct (find_best grid st) as [[[[[c ag] path] score]|]| |] eqn:Hfb;
    [done| | |done].
  - intros [= <-]. split; [done|]. intros t ag Ht Hag.
    apply find_best_Ok in Hfb as (Hmin & _ & Hok). simpl in Hmin.
    assert ((t, ag) ∈ pairs (remaining st)) as Hin by by apply elem_of_pairs.
    specialize (Hmin _ Hin). destruct (Hok _ Hin) as [o Ho].
    unfold pair_score in Hmin. cbn [fst snd] in *. rewrite Ho in Hmin.
    by destruct o.
  - by intros [= <-].
Qed.

Lemma alloc_init_inv grid s0 s1 dirty :
  alloc_inv grid s0 s1 (remove_dups dirty) (alloc_init s0 s1 dirty).
Proof.
  split; simpl.
  - rewrite !dom_insert_L, dom_empty_L. set_solver.
  - by rewrite lookup_total_insert_eq, lookup_total_insert_ne,
      lookup_total_insert_eq.
  - intros ag [-> | ->]; unfold start_of; simpl.
    + rewrite !lookup_total_insert_eq. split_and!; try done.
      * eexists. apply path_ok_refl.
      * by inversion 1.
    + rewrite !lookup_total_insert_ne, !lookup_total_insert_eq by done.
      split_and!; try done.
      * eexists. apply path_ok_refl.
      * by inversion 1.
Qed.

(** [assign_tasks] ends, with a state in which every target is assigned
    once or left in [remaining], and no remaining target has a path from
    the last position of either agent; it raises only on a grid that is
    not rectangular or without two starts. *)
Lemma alloc_loop_spec grid s0 s1 dirty :
  alloc_post grid s0 s1 (remove_dups dirty)
    (run_while (alloc_body grid)
       (Pos.of_succ_nat (length (remaining (alloc_init s0 s1 dirty))))
       (alloc_init s0 s1 dirty)).
Proof.
  apply (run_while_returns _ (alloc_inv grid s0 s1 (remove_dups dirty))
           (alloc_post grid s0 s1 (remove_dups dirty))
           (λ st, len (remaining st))).
  - intros. eapply alloc_body_step; [apply NoDup_remove_dups|done..].
  - intros. by eapply alloc_body_exit.
  - intros. unfold len. lia.
  - apply alloc_init_inv.
  - unfold len. lia.
Qed.

(** ** Route planning *)

Lemma astar_path_shape start goal grid p :
  astar start goal grid = Ok (Some p) →
  ∃ q, p = start :: q ∧ last (start :: q) = Some goal ∧
       ∀ c, c ∈ q → is_free grid c.
Proof.
  intros (Hh & Hl & Hw)%astar_path_ok.
  destruct p as [|x q]; [done|]. injection Hh as ->. exists q.
  split_and!; [done..|]. intros c Hc.
  by apply (walk_tail_free grid (start :: q)).
Qed.

Lemma last_extend (full q : list cell) (pos t : cell) :
  last full = Some pos → last (pos :: q) = Some t →
  last (full ++ q) = Some t.
Proof.
  intros Hf Hq. destruct q as [|y q].
  - rewrite app_nil_r. by injection Hq as <-.
  - rewrite last_cons_cons in Hq. by rewrite last_app, Hq.
Qed.

(** The loop of [plan_full_path] computes what the specification's
    RouteBuilder computes, from any point of the route on. *)
Lemma plan_loop_refines grid start tasks :
  ∀ pos full, last full = Some pos →
  (letM s := for_each (plan_step grid) (pos, full) tasks in Ok s.2)
  = build_route grid start full tasks.
Proof.
  induction tasks as [|t ts IH]; intros pos full Hlast; [done|].
  cbn [for_each build_route]. unfold plan_step at 1. cbn [fst snd].
  rewrite Hlast. change (default start (Some pos)) with pos.
  destruct (astar pos t grid) as [[p|]|e|] eqn:Ha; cbn [res_bind];
    [|by apply IH|done..].
  apply astar_path_shape in Ha as (q & -> & Hl & _). cbn [tail].
  apply IH. by eapply last_extend.
Qed.

Lemma plan_loop_free grid start tasks :
  ∀ pos full r,
  head full = Some start → (∀ c, c ∈ tail full → is_free grid c) →
  for_each (plan_step grid) (pos, full) tasks = Ok r →
  head r.2 = Some start ∧ ∀ c, c ∈ tail r.2 → is_free grid c.
Proof.
  intros pos full r Hh Hf.
  apply (for_each_inv _
           (λ s, head s.2 = Some start ∧
                 ∀ c, c ∈ tail s.2 → is_free grid c)); [|done].
  clear. intros [pos full] t [pos' full'] _ [Hh Hf]. unfold plan_step.
  cbn [fst snd] in *.
  destruct (astar pos t grid) as [[p|]|e|] eqn:Ha; cbn [res_bind];
    [| |done..].
  - apply astar_path_shape in Ha as (q & -> & _ & Hq).
    intros [= <- <-]. destruct full as [|x full]; [done|]. simpl in *.
    split; [done|]. intros c [Hc|Hc]%elem_of_app; auto.
  - by intros [= <- <-].
Qed.

Lemma plan_loop_fail grid tasks s :
  match for_each (plan_step grid) s tasks with
  | Ok _ => True
  | Raise e => e = IndexError ∧ ¬ rectangular grid
  | OutOfFuel => False
  end.
Proof.
  apply (for_each_post _ (λ _, True)
           (λ r, match r with
                 | Ok _ => True
                 | Raise e => e = IndexError ∧ ¬ rectangular grid
                 | OutOfFuel => False
                 end)); [|done..].
  intros [pos full] t _ _. unfold plan_step. cbn [fst snd].
  pose proof (astar_spec pos t grid) as Hs.
  destruct (astar pos t grid) as [[[|x q]|]|e|]; simpl; try done.
  simpl in Hs. by destruct e.
Qed.

(** When every leg has a path, the loop appends one move per unit of
    cost and passes through the targets in order. *)
Lemma plan_loop_chain grid l :
  ∀ pos full, chain grid pos l → NoDup l → last full = Some pos →
  ∃ ext, for_each (plan_step grid) (pos, full) l
         = Ok (default pos (last l), full ++ ext) ∧
         len ext = legs_cost grid pos l ∧
         l `sublist_of` pos :: ext ∧
         (pos ∉ l → l `sublist_of` ext).
Proof.
  induction l as [|t l IH]; intros pos full Hch Hnd Hlast.
  - exists []. rewrite app_nil_r. split_and!; try done.
    apply sublist_nil_l.
  - destruct Hch as [[p Hp] Hch]. apply NoDup_cons in Hnd as [Ht Hnd].
    pose proof (astar_path_shape _ _ _ _ Hp) as (q & -> & Hl & _).
    destruct (IH t (full ++ q) Hch Hnd (last_extend _ _ _ _ Hlast Hl))
      as (ext & Hrun & Hlen & Hsub & Hsub').
    exists (q ++ ext). cbn [for_each]. unfold plan_step at 1.
    cbn [fst snd]. rewrite Hp. cbn [res_bind]. rewrite Hrun.
    rewrite last_cons, app_assoc.
    assert (t :: l `sublist_of` t :: ext) as Hhere.
    { apply sublist_skip. by apply Hsub'. }
    apply last_Some in Hl as [q0 Hq0].
    split_and!.
    + by destruct (last l).
    + cbn [legs_cost]. unfold leg_cost. rewrite Hp, <-Hlen.
      unfold len. rewrite length_app. simpl. lia.
    + rewrite app_comm_cons, Hq0, <-app_assoc. simpl.
      by apply sublist_inserts_l.
    + intros Hpos. apply not_elem_of_cons in Hpos as [Hpt _].
      destruct q0 as [|x q0]; simpl in Hq0.
      * injection Hq0 as ? ?. congruence.
      * injection Hq0 as _ ->. rewrite <-app_assoc. simpl.
        by apply sublist_inserts_l.
Qed.

(** ** TaskAllocator and RouteBuilder: the claims *)

Lemma assign_tasks_state_Ok starts dirty grid st :
  assign_tasks_state starts dirty grid = Ok st →
  ∃ s0 s1, starts !! 0%nat = Some s0 ∧ starts !! 1%nat = Some s1 ∧
    alloc_inv grid s0 s1 (remove_dups dirty) st ∧
    ∀ t ag, t ∈ remaining st → ag = 0 ∨ ag = 1 →
      astar (est_pos st !!! ag) t grid = Ok None.
Proof.
  unfold assign_tasks_state.
  destruct (py_index starts 0) as [s0| |] eqn:H0; cbn [res_bind]; [|done..].
  destruct (py_index starts 1) as [s1| |] eqn:H1; cbn [res_bind]; [|done..].
  apply py_index_Ok in H0; [|lia]. apply py_index_Ok in H1; [|lia].
  intros Hrun. pose proof (alloc_loop_spec grid s0 s1 dirty) as Hpost.
  rewrite Hrun in Hpost. destruct Hpost as [Hinv Hrest].
  by exists s0, s1.
Qed.

Lemma assign_tasks_state_rectangular starts dirty grid s0 s1 :
  rectangular grid →
  starts !! 0%nat = Some s0 → starts !! 1%nat = Some s1 →
  ∃ st, assign_tasks_state starts dirty grid = Ok st.
Proof.
  intros Hrect H0 H1. unfold assign_tasks_state.
  rewrite (py_index_lookup starts 0 s0), (py_index_lookup starts 1 s1)
    by (done || lia).
  cbn [res_bind]. pose proof (alloc_loop_spec grid s0 s1 dirty) as Hpost.
  destruct (run_while _ _ _) as [st|e|]; [by exists st| |done].
  by destruct Hpost.
Qed.

Lemma assign_tasks_Ok starts dirty grid asg :
  assign_tasks starts dirty grid = Ok asg →
  ∃ st, assign_tasks_state starts dirty grid = Ok st ∧
        asg = assignments st.
Proof.
  unfold assign_tasks.
  destruct (assign_tasks_state starts dirty grid) as [st| |]; [|done..].
  intros [= <-]. by exists st.
Qed.

Lemma assign_tasks_state_fail starts dirty grid :
  match assign_tasks_state starts dirty grid with
  | Ok _ => True
  | Raise e => e = IndexError ∧ (¬ rectangular grid ∨ len starts < 2)
  | OutOfFuel => False
  end.
Proof.
  unfold assign_tasks_state.
  pose proof (py_index_fail starts 0) as Hf0.
  destruct (py_index starts 0) as [s0|e|]; cbn [res_bind].
  2:{ destruct Hf0 as [-> ?]; [lia|]. split; [done|]. right. lia. }
  2:{ apply Hf0. lia. }
  pose proof (py_index_fail starts 1) as Hf1.
  destruct (py_index starts 1) as [s1|e|]; cbn [res_bind].
  2:{ destruct Hf1 as [-> ?]; [lia|]. split; [done|]. right. lia. }
  2:{ apply Hf1. lia. }
  pose proof (alloc_loop_spec grid s0 s1 dirty) as Hpost.
  destruct (run_while _ _ _) as [st|e|]; [done| |done].
  destruct Hpost as [-> ?]. split; [done|]. by left.
Qed.

(** [assign_tasks] never runs out of fuel. *)
Lemma assign_tasks_total starts dirty grid :
  assign_tasks starts dirty grid ≠ OutOfFuel.
Proof.
  unfold assign_tasks. pose proof (assign_tasks_state_fail starts dirty grid).
  by destruct (assign_tasks_state starts dirty grid).
Qed.

Lemma alloc_inv_NoDup grid s0 s1 dirty st :
  alloc_inv grid s0 s1 (remove_dups dirty) st →
  NoDup ((assignments st !!! 0) ++ (assignments st !!! 1)) ∧
  NoDup (assignments st !!! 0) ∧ NoDup (assignments st !!! 1).
Proof.
  intros Hinv. pose proof (NoDup_remove_dups dirty) as Hnd.
  rewrite <-(a_perm _ _ _ _ _ Hinv), app_assoc in Hnd.
  apply NoDup_app in Hnd as (Hnd & _ & _). split; [done|].
  by apply NoDup_app in Hnd as (? & _ & ?).
Qed.

(** A target that is assigned is the agent's start or a free cell. *)
Lemma reachable_free grid s t : reachable grid s t → t = s ∨ is_free grid t.
Proof.
  intros [p (Hh & Hl & Hw)]. destruct p as [|x q]; [done|].
  injection Hh as ->. destruct q as [|y q].
  - left. by injection Hl.
  - right. apply (walk_tail_free grid (s :: y :: q)); [done|].
    simpl. by apply last_Some_elem_of.
Qed.

(** C3: [assign_tasks] ends, and raises nothing on a rectangular grid
    with two starts.  The assignment it returns gives each target to at
    most one agent and at most once; the assigned targets together with
    the targets left in [remaining] are the original targets exactly; no
    target left has a path from the last position of either agent, and a
    target that no walk joins to an agent's start is left unassigned. *)
Theorem C3_assignment_partition (starts dirty : list cell) (grid : grid_t) :
  match assign_tasks starts dirty grid with
  | Ok asg =>
      dom asg = {[0; 1]} ∧
      NoDup ((asg !!! 0) ++ (asg !!! 1)) ∧
      ∃ st, assign_tasks_state starts dirty grid = Ok st ∧
        asg = assignments st ∧
        (asg !!! 0) ++ (asg !!! 1) ++ remaining st ≡ₚ remove_dups dirty ∧
        (∀ t, t ∈ (asg !!! 0) ++ (asg !!! 1) ++ remaining st ↔ t ∈ dirty) ∧
        (∀ t ag, t ∈ remaining st → ag = 0 ∨ ag = 1 →
           astar (est_pos st !!! ag) t grid = Ok None) ∧
        (∀ t s0 s1, t ∈ dirty →
           starts !! 0%nat = Some s0 → starts !! 1%nat = Some s1 →
           ¬ reachable grid s0 t → ¬ reachable grid s1 t →
           t ∈ remaining st)
  | Raise e => e = IndexError ∧ (¬ rectangular grid ∨ len starts < 2)
  | OutOfFuel => False
  end.
Proof.
  destruct (assign_tasks starts dirty grid) as [asg|e|] eqn:Hrun.
  2:{ revert Hrun. unfold assign_tasks.
      pose proof (assign_tasks_state_fail starts dirty grid) as Hf.
      destruct (assign_tasks_state starts dirty grid); [done| |done].
      by intros [= <-]. }
  2:{ by apply assign_tasks_total in Hrun. }
  apply assign_tasks_Ok in Hrun as (st & Hst & ->).
  destruct (assign_tasks_state_Ok _ _ _ _ Hst)
    as (s0 & s1 & H0 & H1 & Hinv & Hrest).
  pose proof (a_perm _ _ _ _ _ Hinv) as Hperm.
  assert (∀ t, t ∈ (assignments st !!! 0) ++ (assignments st !!! 1)
                     ++ remaining st ↔ t ∈ dirty) as Hset.
  { intros t. by rewrite Hperm, elem_of_remove_dups. }
  split; [apply (a_dom _ _ _ _ _ Hinv)|].
  split; [apply (alloc_inv_NoDup _ _ _ _ _ Hinv)|].
  exists st. split_and!; try done.
  intros t s0' s1' Ht H0' H1' Hn0 Hn1.
  rewrite H0 in H0'. rewrite H1 in H1'.
  injection H0' as <-. injection H1' as <-.
  apply Hset in Ht. rewrite !elem_of_app in Ht.
  destruct Ht as [Ht|[Ht|Ht]]; [| |done].
  - destruct (a_agent _ _ _ _ _ Hinv 0) as (_ & _ & _ & _ & Hall); [by left|].
    destruct Hn0. by apply Hall.
  - destruct (a_agent _ _ _ _ _ Hinv 1) as (_ & _ & _ & _ & Hall); [by right|].
    destruct Hn1. by apply Hall.
Qed.

Lemma C3_assignment_partition_witness :
  assign_tasks [(0, 0); (2, 2)] [(0, 2); (2, 0); (1, 1); (1, 2)] grid3
  = Ok (<[0 := [(0, 2)]]> (<[1 := [(1, 2); (2, 0)]]> ∅)) ∧
  NoDup ([(0, 2)] ++ [(1, 2); (2, 0)]).
Proof.
  assert (assign_tasks [(0, 0); (2, 2)] [(0, 2); (2, 0); (1, 1); (1, 2)] grid3
          = Ok (<[0 := [(0, 2)]]> (<[1 := [(1, 2); (2, 0)]]> ∅))) as H
    by (vm_compute; reflexivity).
  split; [exact H|].
  pose proof (C3_assignment_partition [(0, 0); (2, 2)]
                [(0, 2); (2, 0); (1, 1); (1, 2)] grid3) as Hc.
  rewrite H in Hc. exact (proj1 (proj2 Hc)).
Defined.

Lemma pairs_before_agent1 rem c l1 l2 :
  pairs rem = l1 ++ (c, 1) :: l2 → (c, 0) ∈ l1.
Proof.
  revert l1. induction rem as [|x rem IH]; intros l1.
  - by destruct l1.
  - change (pairs (x :: rem)) with ((x, 0) :: (x, 1) :: pairs rem).
    destruct l1 as [|e1 [|e2 l1]].
    + by intros [= _ ?].
    + intros [= <- -> _]. by left.
    + intros [= <- <- Hrest]. right; right. by apply IH.
Qed.

(** Two agents that tie on the only target: the round keeps agent 0. *)
Lemma single_target_tie grid s0 s1 t p0 p1 :
  astar s0 t grid = Ok (Some p0) → astar s1 t grid = Ok (Some p1) →
  len p0 = len p1 →
  assign_tasks [s0; s1] [t] grid = Ok (<[0 := [t]]> (<[1 := []]> ∅)).
Proof.
  intros H0 H1 Hlen.
  set (st0 := alloc_init s0 s1 [t]).
  assert (remaining st0 = [t]) as Hrem.
  { subst st0. cbn [remaining alloc_init remove_dups].
    case_decide as Hin; [by inversion Hin|done]. }
  assert (find_best grid st0 = Ok (Some (t, 0, p0, 0 + len p0 - 1))) as Hfb.
  { unfold find_best. rewrite Hrem. cbn [for_each]. unfold score_pair.
    subst st0. cbn [est_pos est_len alloc_init].
    rewrite !lookup_total_insert_eq, H0. cbn [res_bind].
    rewrite !lookup_total_insert_ne, !lookup_total_insert_eq, H1 by done.
    cbn [res_bind]. rewrite Hlen, Z.ltb_irrefl. done. }
  set (st1 := {| assignments := <[0 := [t]]> (<[1 := []]> ∅);
                 est_pos := <[0 := t]> (est_pos st0);
                 est_len := <[0 := 0 + len p0 - 1]> (est_len st0);
                 remaining := [] |}).
  assert (alloc_body grid st0 = inl st1) as Hb0.
  { unfold alloc_body. rewrite Hrem, Hfb. f_equal. subst st1. f_equal.
    rewrite filter_cons_False, filter_nil; [done|].
    intros Hn. by apply Hn. }
  unfold assign_tasks, assign_tasks_state.
  change (py_index [s0; s1] 0) with (Ok s0).
  change (py_index [s0; s1] 1) with (Ok s1). cbn [res_bind].
  fold st0. rewrite Hrem.
  change (Pos.of_succ_nat (length [t])) with 2%positive.
  unfold run_while. cbn [while_fuel]. rewrite Hb0. done.
Qed.

(** ** The order in which the targets are visited *)

Lemma same_targets_sym st st' : same_targets st st' → same_targets st' st.
Proof. intros (Ha & Hp & Hl & Hperm). by split_and!. Qed.

Lemma same_targets_pairs st st' x :
  same_targets st st' →
  x ∈ pairs (remaining st') ↔ x ∈ pairs (remaining st).
Proof.
  intros (_ & _ & _ & Hperm). destruct x as [c ag].
  by rewrite !elem_of_pairs, Hperm.
Qed.

Lemma pair_score_same grid st st' x :
  same_targets st st' → pair_score grid st' x = pair_score grid st x.
Proof. intros (_ & Hp & Hl & _). unfold pair_score. by rewrite Hp, Hl. Qed.

(** A round raises nothing when [astar] raises nothing on its pairs. *)
Lemma find_best_returns grid st (l : list (cell * Z)) :
  (∀ x, x ∈ l → ∃ o, astar (est_pos st !!! x.2) x.1 grid = Ok o) →
  ∀ b, ∃ b', for_each (λ best x, score_pair grid st x.1 best x.2) b l
             = Ok b'.
Proof.
  induction l as [|x l IH]; intros Hall b; cbn [for_each]; [by eexists|].
  destruct (Hall x) as [o Ho]; [left|].
  assert (∃ b1, score_pair grid st x.1 b x.2 = Ok b1) as [b1 ->].
  { unfold score_pair. rewrite Ho. cbn [res_bind].
    destruct o as [path|]; [|by eexists].
    destruct b as [[bk bs]|]; [|by eexists].
    destruct (_ <? bs); by eexists. }
  cbn [res_bind]. apply IH. intros y Hy. apply Hall. by right.
Qed.

Lemma find_best_same_returns grid st st' b :
  same_targets st st' → find_best grid st = Ok b →
  ∃ b', find_best grid st' = Ok b'.
Proof.
  intros Hsame Hfb. rewrite find_best_pairs.
  apply find_best_returns. intros x Hx.
  destruct (find_best_Ok _ _ _ Hfb) as (_ & _ & Hall).
  destruct Hsame as (Ha & Hp & Hl & Hperm). rewrite Hp. apply Hall.
  by apply (same_targets_pairs st st').
Qed.

Lemma round_tie_free_spec grid st c ag p s :
  round_tie_free grid st → find_best grid st = Ok (Some (c, ag, p, s)) →
  ∀ x s', x ∈ pairs (remaining st) → x.1 ≠ c →
    pair_score grid st x = Some s' → s < s'.
Proof.
  unfold round_tie_free. intros Htf Hfb. rewrite Hfb in Htf.
  apply forallb_True in Htf. rewrite Forall_forall in Htf.
  intros x s' Hx Hne Hs. specialize (Htf x Hx).
  apply orb_True in Htf as [Htf|Htf].
  - by apply bool_decide_spec in Htf.
  - rewrite Hs in Htf. by apply Is_true_true, Z.ltb_lt in Htf.
Qed.

(** The pair a round keeps is the same for every order of the targets,
    when no pair of another target has a score as low. *)
Lemma find_best_same_Some grid st st' c ag p s :
  same_targets st st' → round_tie_free grid st →
  find_best grid st = Ok (Some (c, ag, p, s)) →
  find_best grid st' = Ok (Some (c, ag, p, s)).
Proof.
  intros Hsame Htf Hfb.
  destruct (find_best_same_returns _ _ _ _ Hsame Hfb) as [b' Hfb'].
  rewrite Hfb'. f_equal.
  pose proof (find_best_Ok _ _ _ Hfb) as (Hmin & Hpath & _).
  pose proof (find_best_Ok _ _ _ Hfb') as (Hmin' & Hpath' & _).
  cbn [best_key first_min] in Hmin.
  destruct Hmin as (Hsc & l1 & l2 & Hl & Hlt & Hle).
  assert ((c, ag) ∈ pairs (remaining st)) as Hin.
  { rewrite Hl, elem_of_app, elem_of_cons. auto. }
  assert (∀ y s', y ∈ pairs (remaining st) →
            pair_score grid st y = Some s' → s ≤ s') as Hleast.
  { intros y s' Hy Hs'. rewrite Hl, elem_of_app, elem_of_cons in Hy.
    destruct Hy as [Hy|[->|Hy]].
    - specialize (Hlt _ _ Hy Hs'). lia.
    - rewrite Hsc in Hs'. injection Hs' as <-. lia.
    - by eapply Hle. }
  destruct b' as [[[[c2 ag2] p2] s2]|]; cbn [best_key first_min] in Hmin'.
  2:{ specialize (Hmin' (c, ag)).
      rewrite (pair_score_same grid st st') in Hmin' by done.
      rewrite Hsc in Hmin'. discriminate Hmin'.
      by apply (same_targets_pairs st st'). }
  destruct Hmin' as (Hsc2 & l1' & l2' & Hl' & Hlt' & Hle').
  rewrite (pair_score_same grid st st') in Hsc2 by done.
  assert ((c2, ag2) ∈ pairs (remaining st)) as Hin2.
  { apply (same_targets_pairs st st'); [done|].
    rewrite Hl', elem_of_app, elem_of_cons. auto. }
  assert (∀ y s', y ∈ pairs (remaining st') →
            pair_score grid st y = Some s' → s2 ≤ s') as Hleast'.
  { intros y s' Hy Hs'.
    rewrite <-(pair_score_same grid st st') in Hs' by done.
    rewrite Hl', elem_of_app, elem_of_cons in Hy.
    destruct Hy as [Hy|[->|Hy]].
    - specialize (Hlt' _ _ Hy Hs'). lia.
    - rewrite (pair_score_same grid st st') in Hs' by done.
      rewrite Hsc2 in Hs'. injection Hs' as <-. lia.
    - by eapply Hle'. }
  pose proof (Hleast _ _ Hin2 Hsc2) as H1.
  pose proof (Hleast' (c, ag) s) as H2.
  rewrite (same_targets_pairs st st') in H2 by done.
  specialize (H2 Hin Hsc).
  assert (s2 = s) as -> by lia.
  assert (c2 = c) as ->.
  { destruct (decide (c2 = c)) as [|Hne]; [done|].
    pose proof (round_tie_free_spec _ _ _ _ _ _ Htf Hfb (c2, ag2) s
                  Hin2 Hne Hsc2). lia. }
  assert (ag2 = ag) as ->.
  { apply elem_of_pairs in Hin as [_ Hag].
    apply elem_of_pairs in Hin2 as [_ Hag2].
    destruct Hag as [-> | ->], Hag2 as [-> | ->]; try done.
    - apply pairs_before_agent1 in Hl'.
      assert (pair_score grid st' (c, 0) = Some s) as Hs0
        by (by rewrite (pair_score_same grid st st')).
      specialize (Hlt' _ _ Hl' Hs0). lia.
    - apply pairs_before_agent1 in Hl.
      specialize (Hlt _ _ Hl Hsc2). lia. }
  specialize (Hpath _ _ _ _ eq_refl). specialize (Hpath' _ _ _ _ eq_refl).
  destruct Hsame as (_ & Hp & _ & _). rewrite Hp, Hpath in Hpath'.
  by injection Hpath' as <-.
Qed.

Lemma find_best_same grid st st' :
  same_targets st st' → round_tie_free grid st →
  find_best grid st' = find_best grid st.
Proof.
  intros Hsame Htf.
  destruct (find_best grid st) as [[[[[c ag] p] s]|]|e|] eqn:Hfb.
  - by eapply find_best_same_Some.
  - destruct (find_best_same_returns _ _ _ _ Hsame Hfb) as [b' Hfb'].
    rewrite Hfb'. f_equal.
    destruct b' as [[[[c2 ag2] p2] s2]|]; [|done]. exfalso.
    pose proof (find_best_Ok _ _ _ Hfb) as (Hmin & _ & _).
    pose proof (find_best_Ok _ _ _ Hfb') as (Hmin' & _ & _).
    cbn [best_key first_min] in Hmin, Hmin'.
    destruct Hmin' as (Hsc2 & l1' & l2' & Hl' & _).
    rewrite (pair_score_same grid st st') in Hsc2 by done.
    rewrite Hmin in Hsc2; [done|].
    apply (same_targets_pairs st st'); [done|].
    rewrite Hl', elem_of_app, elem_of_cons. auto.
  - pose proof (find_best_fail grid st) as Hf. rewrite Hfb in Hf.
    destruct Hf as [-> _].
    pose proof (find_best_fail grid st') as Hf'.
    destruct (find_best grid st') as [b'|e'|] eqn:Hfb'.
    + destruct (find_best_same_returns _ _ _ _
                  (same_targets_sym _ _ Hsame) Hfb') as [b Hb].
      congruence.
    + by destruct Hf' as [-> _].
    + done.
  - pose proof (find_best_fail grid st) as Hf. by rewrite Hfb in Hf.
Qed.

(** One round from two states that differ in the order of the targets. *)
Lemma alloc_body_same grid st st' :
  same_targets st st' → round_tie_free grid st →
  match alloc_body grid st, alloc_body grid st' with
  | inl a, inl a' => same_targets a a'
  | inr r, inr r' => same_result r r'
  | _, _ => False
  end.
Proof.
  intros Hsame Htf. pose proof (find_best_same grid st st' Hsame Htf) as Hfb.
  destruct Hsame as (Ha & Hp & Hl & Hperm). unfold alloc_body.
  destruct (remaining st) as [|x xs] eqn:Hrem.
  { apply Permutation_nil_r in Hperm. rewrite Hperm.
    unfold same_result. cbn [res_bind]. by rewrite Ha. }
  destruct (remaining st') as [|y ys] eqn:Hrem'.
  { by apply Permutation_nil_l in Hperm. }
  rewrite Hfb.
  destruct (find_best grid st) as [[[[[c ag] p] s]|]|e|].
  - split_and!; cbn [assignments est_pos est_len remaining].
    + by rewrite Ha.
    + by rewrite Hp.
    + by rewrite Hl.
    + by rewrite Hperm.
  - unfold same_result. cbn [res_bind]. by rewrite Ha.
  - done.
  - done.
Qed.

Lemma ties_free_round grid n st : ties_free grid n st → round_tie_free grid st.
Proof. destruct n; cbn [ties_free]; rewrite andb_True; tauto. Qed.

Lemma ties_free_le grid (n : nat) :
  ∀ (m : nat) st, (m ≤ n)%nat → ties_free grid n st → ties_free grid m st.
Proof.
  induction n as [|n IH]; intros m st Hm Htf.
  { by replace m with 0%nat by lia. }
  destruct m as [|m]; cbn [ties_free] in *; apply andb_True in Htf as [Hr Hn];
    apply andb_True; (split; [done|]); [done|].
  destruct (alloc_body grid st) as [st1|r]; [|done].
  apply IH; [lia|done].
Qed.

(** The rounds from two states that differ in the order of the targets. *)
Lemma while_alloc_same grid (n : nat) :
  ∀ st st', same_targets st st' → ties_free grid n st →
  match while_nat (alloc_body grid) (S n) st,
        while_nat (alloc_body grid) (S n) st' with
  | inl a, inl a' => same_targets a a'
  | inr r, inr r' => same_result r r'
  | _, _ => False
  end.
Proof.
  induction n as [|n IH]; intros st st' Hsame Htf;
    pose proof (alloc_body_same grid st st' Hsame
                  (ties_free_round _ _ _ Htf)) as Hb.
  - cbn [while_nat].
    by destruct (alloc_body grid st) as [a|r],
                (alloc_body grid st') as [a'|r'].
  - change (while_nat (alloc_body grid) (S (S n)) st)
      with (match alloc_body grid st with
            | inl s' => while_nat (alloc_body grid) (S n) s'
            | inr r => inr r
            end).
    change (while_nat (alloc_body grid) (S (S n)) st')
      with (match alloc_body grid st' with
            | inl s' => while_nat (alloc_body grid) (S n) s'
            | inr r => inr r
            end).
    cbn [ties_free] in Htf. apply andb_True in Htf as [_ Htf].
    destruct (alloc_body grid st) as [a|r],
             (alloc_body grid st') as [a'|r']; try done.
    by apply IH.
Qed.

(** Two orders of the same targets give the same assignment, when in no
    round two different targets tie on the least score. *)
Lemma assign_tasks_order grid s0 s1 (l l' : list cell) :
  l' ≡ₚ l → ties_free grid (length l) (alloc_init s0 s1 l) →
  assign_tasks [s0; s1] l' grid = assign_tasks [s0; s1] l grid.
Proof.
  intros Hperm Htf.
  assert (remove_dups l' ≡ₚ remove_dups l) as Hrd.
  { apply NoDup_Permutation; [apply NoDup_remove_dups..|].
    intros x. by rewrite !elem_of_remove_dups, Hperm. }
  assert (same_targets (alloc_init s0 s1 l) (alloc_init s0 s1 l')) as Hsame.
  { by split_and!. }
  assert (length (remove_dups l) ≤ length l)%nat as Hlen.
  { apply submseteq_length, NoDup_submseteq; [apply NoDup_remove_dups|].
    intros x. by rewrite elem_of_remove_dups. }
  pose proof (while_alloc_same grid (length (remove_dups l)) _ _ Hsame
                (ties_free_le _ _ _ _ Hlen Htf)) as Hrun.
  unfold assign_tasks, assign_tasks_state.
  change (py_index [s0; s1] 0) with (Ok s0).
  change (py_index [s0; s1] 1) with (Ok s1). cbn [res_bind].
  unfold run_while. rewrite !while_fuel_nat, !SuccNat2Pos.id_succ.
  change (remaining (alloc_init s0 s1 l')) with (remove_dups l').
  change (remaining (alloc_init s0 s1 l)) with (remove_dups l).
  rewrite Hrd.
  destruct (while_nat (alloc_body grid) (S (length (remove_dups l)))
              (alloc_init s0 s1 l)) as [a|r],
           (while_nat (alloc_body grid) (S (length (remove_dups l)))
              (alloc_init s0 s1 l')) as [a'|r']; try done.
Qed.

(** C4, as stated, fails: the two iteration orders of one set of two
    targets that tie on the least score give different assignments. *)
Lemma C4_iteration_order_counterexample :
  [(1, 0); (0, 1)] ≡ₚ [(0, 1); (1, 0)] ∧
  (list_to_set [(1, 0); (0, 1)] : gset cell) = list_to_set [(0, 1); (1, 0)] ∧
  assign_tasks [(0, 0); (2, 2)] [(0, 1); (1, 0)] open3
  = Ok (<[0 := [(0, 1); (1, 0)]]> (<[1 := []]> ∅)) ∧
  assign_tasks [(0, 0); (2, 2)] [(1, 0); (0, 1)] open3
  = Ok (<[0 := [(1, 0); (0, 1)]]> (<[1 := []]> ∅)) ∧
  assign_tasks [(0, 0); (2, 2)] [(1, 0); (0, 1)] open3
  ≠ assign_tasks [(0, 0); (2, 2)] [(0, 1); (1, 0)] open3 ∧
  ties_free open3 2 (alloc_init (0, 0) (2, 2) [(0, 1); (1, 0)]) = false.
Proof.
  assert (assign_tasks [(0, 0); (2, 2)] [(0, 1); (1, 0)] open3
          = Ok (<[0 := [(0, 1); (1, 0)]]> (<[1 := []]> ∅))) as H1
    by (vm_compute; reflexivity).
  assert (assign_tasks [(0, 0); (2, 2)] [(1, 0); (0, 1)] open3
          = Ok (<[0 := [(1, 0); (0, 1)]]> (<[1 := []]> ∅))) as H2
    by (vm_compute; reflexivity).
  split_and!; [apply Permutation_swap| |done|done| |by vm_compute].
  - apply set_eq. intros c. rewrite !elem_of_list_to_set, !elem_of_cons.
    tauto.
  - rewrite H1, H2. intros H.
    apply (f_equal (λ r : res (gmap Z (list cell)),
                      match r with Ok m => m !!! 0 | _ => [] end)) in H.
    vm_compute in H. discriminate H.
Qed.

(** C4 (amended): in every round the allocator keeps the first pair, in
    the order of the two loops (targets in iteration order, agent 0 before
    agent 1), among those of least score; so agent 1 is chosen for a
    target only with a strictly smaller score than agent 0, and two agents
    that tie on a single target leave it to agent 0.  Two iteration
    orders of the same targets give the same assignment when in no round
    two different targets tie on the least score. *)
Theorem C4_tie_break (grid : grid_t) :
  (∀ st c ag p s, find_best grid st = Ok (Some (c, ag, p, s)) →
     pair_score grid st (c, ag) = Some s ∧
     (∀ y s', y ∈ pairs (remaining st) →
        pair_score grid st y = Some s' → s ≤ s') ∧
     (∃ l1 l2, pairs (remaining st) = l1 ++ (c, ag) :: l2 ∧
        ∀ y s', y ∈ l1 → pair_score grid st y = Some s' → s < s') ∧
     (ag = 1 → ∀ s', pair_score grid st (c, 0) = Some s' → s < s')) ∧
  (∀ s0 s1 t p0 p1,
     astar s0 t grid = Ok (Some p0) → astar s1 t grid = Ok (Some p1) →
     len p0 = len p1 →
     assign_tasks [s0; s1] [t] grid = Ok (<[0 := [t]]> (<[1 := []]> ∅))) ∧
  (∀ s0 s1 (l l' : list cell),
     l' ≡ₚ l → ties_free grid (length l) (alloc_init s0 s1 l) →
     assign_tasks [s0; s1] l' grid = assign_tasks [s0; s1] l grid).
Proof.
  split_and!; [|apply single_target_tie|apply assign_tasks_order].
  intros st c ag p s Hfb.
  apply find_best_Ok in Hfb as ((Hsc & l1 & l2 & Hl & Hlt & Hle) & _ & _).
  split_and!; [done| | |].
  - intros y s' Hy Hs'. rewrite Hl, elem_of_app, elem_of_cons in Hy.
    destruct Hy as [Hy|[->|Hy]].
    + specialize (Hlt _ _ Hy Hs'). lia.
    + rewrite Hsc in Hs'. injection Hs' as <-. lia.
    + by eapply Hle.
  - by exists l1, l2.
  - intros -> s' Hs'. apply (Hlt (c, 0)); [|done].
    by eapply pairs_before_agent1.
Qed.

Lemma C4_tie_break_witness :
  find_best open3 (alloc_init (0, 0) (0, 2) [(0, 1)])
  = Ok (Some ((0, 1), 0, [(0, 0); (0, 1)], 1)) ∧
  assign_tasks [(0, 0); (0, 2)] [(0, 1)] open3
  = Ok (<[0 := [(0, 1)]]> (<[1 := []]> ∅)) ∧
  assign_tasks [(0, 0); (2, 2)] [(2, 0); (0, 1)] open3
  = assign_tasks [(0, 0); (2, 2)] [(0, 1); (2, 0)] open3.
Proof.
  assert (find_best open3 (alloc_init (0, 0) (0, 2) [(0, 1)])
          = Ok (Some ((0, 1), 0, [(0, 0); (0, 1)], 1))) as Hfb
    by (vm_compute; reflexivity).
  assert (astar (0, 0) (0, 1) open3 = Ok (Some [(0, 0); (0, 1)])) as H0
    by (vm_compute; reflexivity).
  assert (astar (0, 2) (0, 1) open3 = Ok (Some [(0, 2); (0, 1)])) as H1
    by (vm_compute; reflexivity).
  assert (ties_free open3 (length [(0, 1); (2, 0)])
            (alloc_init (0, 0) (2, 2) [(0, 1); (2, 0)])) as Htf
    by (vm_compute; exact I).
  split_and!; [exact Hfb| |].
  - exact (proj1 (proj2 (C4_tie_break open3)) _ _ _ _ _ H0 H1 eq_refl).
  - exact (proj2 (proj2 (C4_tie_break open3)) (0, 0) (2, 2)
             [(0, 1); (2, 0)] [(2, 0); (0, 1)]
             (Permutation_swap _ _ _) Htf).
Defined.

(** The route of an agent follows its assignment: every leg has a path,
    the estimated length counts the moves, and the targets occur in the
    route in the order of the assignment. *)
Lemma alloc_inv_plan grid s0 s1 dirty st ag :
  alloc_inv grid s0 s1 (remove_dups dirty) st → ag = 0 ∨ ag = 1 →
  ∃ route,
    plan_full_path (start_of s0 s1 ag) (assignments st !!! ag) grid
    = Ok route ∧
    est_len st !!! ag = len route - 1 ∧
    (assignments st !!! ag) `sublist_of` route.
Proof.
  intros Hinv Hag.
  destruct (a_agent _ _ _ _ _ Hinv ag Hag) as (Hch & _ & Hlen & _ & _).
  assert (NoDup (assignments st !!! ag)) as Hnd.
  { destruct (alloc_inv_NoDup _ _ _ _ _ Hinv) as (_ & ? & ?).
    by destruct Hag as [-> | ->]. }
  destruct (plan_loop_chain grid _ (start_of s0 s1 ag)
              [start_of s0 s1 ag] Hch Hnd eq_refl)
    as (ext & Hrun & Hext & Hsub & _).
  exists (start_of s0 s1 ag :: ext). unfold plan_full_path.
  rewrite Hrun. split_and!; [done| |done].
  rewrite Hlen, <-Hext. unfold len. simpl. lia.
Qed.

Lemma start_of_lookup (starts : list cell) s0 s1 ag s :
  starts !! 0%nat = Some s0 → starts !! 1%nat = Some s1 →
  ag = 0 ∨ ag = 1 → starts !! Z.to_nat ag = Some s →
  start_of s0 s1 ag = s.
Proof.
  intros H0 H1 [-> | ->] Hs.
  - change (Z.to_nat 0) with 0%nat in Hs. unfold start_of.
    change (0 =? 0) with true. cbv iota. congruence.
  - change (Z.to_nat 1) with 1%nat in Hs. unfold start_of.
    change (1 =? 0) with false. cbv iota. congruence.
Qed.

(** C6, as stated, fails: a target on an obstacle, and a start on an
    obstacle, are accepted without any error. *)
Lemma C6_no_error_counterexample :
  is_free grid3 (1, 1) = false ∧
  assign_tasks [(0, 0); (2, 2)] [(1, 1)] grid3
  = Ok (<[0 := []]> (<[1 := []]> ∅)) ∧
  plan_full_path (0, 0) [(1, 1)] grid3 = Ok [(0, 0)] ∧
  assign_tasks [(1, 1); (2, 2)] [(0, 0)] grid3
  = Ok (<[0 := [(0, 0)]]> (<[1 := []]> ∅)) ∧
  plan_full_path (1, 1) [(0, 0)] grid3 = Ok [(1, 1); (0, 1); (0, 0)].
Proof. vm_compute. done. Qed.

(** C6 (amended): on a rectangular grid, with two agent starts,
    [assign_tasks] and [plan_full_path] raise no error whatever the
    starts and targets are; a target that is an obstacle or out of bounds
    is assigned to no agent unless it is an agent's start, and the route
    holds no such cell except its start. *)
Theorem C6_no_validation (starts dirty : list cell) (grid : grid_t)
    (s0 s1 : cell) :
  rectangular grid →
  starts !! 0%nat = Some s0 → starts !! 1%nat = Some s1 →
  (∃ asg, assign_tasks starts dirty grid = Ok asg ∧
     ∀ t, t ∈ (asg !!! 0) ++ (asg !!! 1) →
       is_free grid t ∨ t = s0 ∨ t = s1) ∧
  (∀ start tasks, ∃ route,
     plan_full_path start tasks grid = Ok route ∧
     ∀ c, c ∈ route → c = start ∨ is_free grid c).
Proof.
  intros Hrect H0 H1. split.
  - destruct (assign_tasks_state_rectangular starts dirty grid s0 s1)
      as [st Hst]; try done.
    exists (assignments st). unfold assign_tasks. rewrite Hst.
    split; [done|].
    destruct (assign_tasks_state_Ok _ _ _ _ Hst)
      as (s0' & s1' & H0' & H1' & Hinv & _).
    rewrite H0 in H0'. rewrite H1 in H1'.
    injection H0' as <-. injection H1' as <-.
    intros t [Ht|Ht]%elem_of_app.
    + destruct (a_agent _ _ _ _ _ Hinv 0) as (_ & _ & _ & _ & Hall);
        [by left|].
      destruct (reachable_free _ _ _ (Hall t Ht)); auto.
    + destruct (a_agent _ _ _ _ _ Hinv 1) as (_ & _ & _ & _ & Hall);
        [by right|].
      destruct (reachable_free _ _ _ (Hall t Ht)); auto.
  - intros start tasks. unfold plan_full_path.
    pose proof (plan_loop_fail grid tasks (start, [start])) as Hfail.
    destruct (for_each (plan_step grid) (start, [start]) tasks)
      as [r|e|] eqn:Hrun; [|by destruct Hfail|done].
    exists r.2. split; [done|].
    destruct (plan_loop_free grid start tasks start [start] r)
      as [Hh Hf]; [done|by inversion 1|done|].
    intros c Hc. destruct r.2 as [|x route]; [by inversion Hc|].
    injection Hh as ->. apply elem_of_cons in Hc as [->|Hc]; auto.
Qed.

Lemma C6_no_validation_witness :
  rectangular grid3 ∧
  (∃ asg, assign_tasks [(0, 0); (2, 2)] [(1, 1); (0, 2)] grid3 = Ok asg ∧
     ∀ t, t ∈ (asg !!! 0) ++ (asg !!! 1) →
       is_free grid3 t ∨ t = (0, 0) ∨ t = (2, 2)).
Proof.
  assert (rectangular grid3) as H by (vm_compute; exact I).
  split; [exact H|].
  exact (proj1 (C6_no_validation [(0, 0); (2, 2)] [(1, 1); (0, 2)] grid3
                  (0, 0) (2, 2) H eq_refl eq_refl)).
Defined.

(** C7: [plan_full_path] computes the route the specification describes:
    it starts at [start] and, for each target in order, appends the path
    from the current tail without its first cell, or skips the target
    when there is none.  For the targets [assign_tasks] gave to an agent,
    the route from that agent's start passes through all of them in the
    order of the assignment. *)
Theorem C7_route_follows_assignment (start : cell) (tasks : list cell)
    (grid : grid_t) :
  plan_full_path start tasks grid = build_route grid start [start] tasks ∧
  match plan_full_path start tasks grid with
  | Ok route => head route = Some start
  | Raise e => e = IndexError ∧ ¬ rectangular grid
  | OutOfFuel => False
  end ∧
  (∀ starts dirty asg ag,
     assign_tasks starts dirty grid = Ok asg → ag = 0 ∨ ag = 1 →
     starts !! Z.to_nat ag = Some start → tasks = asg !!! ag →
     ∃ route, plan_full_path start tasks grid = Ok route ∧
              tasks `sublist_of` route).
Proof.
  split_and!.
  - unfold plan_full_path. by apply plan_loop_refines.
  - unfold plan_full_path.
    pose proof (plan_loop_fail grid tasks (start, [start])) as Hfail.
    destruct (for_each (plan_step grid) (start, [start]) tasks)
      as [r|e|] eqn:Hrun; [|done..].
    by destruct (plan_loop_free grid start tasks start [start] r)
      as [Hh _]; [done|by inversion 1|done|].
  - intros starts dirty asg ag (st & Hst & ->)%assign_tasks_Ok Hag Hs ->.
    destruct (assign_tasks_state_Ok _ _ _ _ Hst)
      as (s0 & s1 & H0 & H1 & Hinv & _).
    destruct (alloc_inv_plan _ _ _ _ _ ag Hinv Hag)
      as (route & Hroute & _ & Hsub).
    rewrite (start_of_lookup starts s0 s1 ag start) in Hroute by done.
    by exists route.
Qed.

Lemma C7_route_follows_assignment_witness :
  assign_tasks [(0, 0); (2, 2)] [(0, 2); (2, 0); (1, 1); (1, 2)] grid3
  = Ok (<[0 := [(0, 2)]]> (<[1 := [(1, 2); (2, 0)]]> ∅)) ∧
  ∃ route, plan_full_path (2, 2) [(1, 2); (2, 0)] grid3 = Ok route ∧
           [(1, 2); (2, 0)] `sublist_of` route.
Proof.
  assert (assign_tasks [(0, 0); (2, 2)] [(0, 2); (2, 0); (1, 1); (1, 2)] grid3
          = Ok (<[0 := [(0, 2)]]> (<[1 := [(1, 2); (2, 0)]]> ∅))) as H
    by (vm_compute; reflexivity).
  split; [exact H|].
  exact (proj2 (proj2 (C7_route_follows_assignment (2, 2) [(1, 2); (2, 0)]
                         grid3))
           [(0, 0); (2, 2)] [(0, 2); (2, 0); (1, 1); (1, 2)] _ 1 H
           (or_intror eq_refl) eq_refl eq_refl).
Defined.

(** C10: when [assign_tasks] ends, the estimated length of each agent is
    the number of moves of the route [plan_full_path] builds from that
    agent's start for its assignment: the route's cell count minus one. *)
Theorem C10_est_len_is_route_length (starts dirty : list cell)
    (grid : grid_t) (st : alloc) (ag : Z) (s : cell) :
  assign_tasks_state starts dirty grid = Ok st →
  ag = 0 ∨ ag = 1 → starts !! Z.to_nat ag = Some s →
  ∃ route, plan_full_path s (assignments st !!! ag) grid = Ok route ∧
           est_len st !!! ag = len route - 1.
Proof.
  intros Hst Hag Hs.
  destruct (assign_tasks_state_Ok _ _ _ _ Hst)
    as (s0 & s1 & H0 & H1 & Hinv & _).
  destruct (alloc_inv_plan _ _ _ _ _ ag Hinv Hag)
    as (route & Hroute & Hlen & _).
  rewrite (start_of_lookup starts s0 s1 ag s) in Hroute by done.
  by exists route.
Qed.

Lemma C10_est_len_is_route_length_witness :
  ∃ st, assign_tasks_state [(0, 0); (2, 2)] [(0, 2); (2, 0); (1, 1); (1, 2)]
          grid3 = Ok st ∧
    ∃ route, plan_full_path (2, 2) (assignments st !!! 1) grid3 = Ok route ∧
             est_len st !!! 1 = len route - 1.
Proof.
  destruct (assign_tasks_state [(0, 0); (2, 2)]
              [(0, 2); (2, 0); (1, 1); (1, 2)] grid3) as [st| |] eqn:H;
    [|exfalso; vm_compute in H; discriminate..].
  exists st. split; [reflexivity|].
  exact (C10_est_len_is_route_length _ _ _ st 1 (2, 2) H
           (or_intror eq_refl) eq_refl).
Defined.

(** ** Simulation *)

Lemma agent_tick_spec paths dirty st moved ag :
  0 ≤ agent_path_idx st !!! ag →
  ∃ st', agent_tick paths dirty (st, moved) ag
         = Ok (st', moved || advances paths st ag) ∧
    agent_path_idx st'
    = (if advances paths st ag
       then <[ag := (agent_path_idx st !!! ag) + 1]> (agent_path_idx st)
       else agent_path_idx st) ∧
    agent_steps st'
    = (if advances paths st ag
       then <[ag := (agent_steps st !!! ag) + 1]> (agent_steps st)
       else agent_steps st).
Proof.
  intros Hidx. unfold agent_tick, advances.
  destruct (Z.ltb_spec ((agent_path_idx st !!! ag) + 1) (len (paths !!! ag)))
    as [Hlt|Hge].
  - destruct (py_index_in_range (paths !!! ag) ((agent_path_idx st !!! ag) + 1))
      as [p Hp]; [lia|].
    rewrite Hp. cbn [res_bind]. rewrite orb_true_r.
    destruct (bool_decide _); by eexists.
  - cbn [res_bind]. rewrite orb_false_r.
    destruct (bool_decide _); by eexists.
Qed.

Lemma agent_tick_cleaned paths dirty st moved ag st' moved' :
  agent_tick paths dirty (st, moved) ag = Ok (st', moved') →
  cleaned st'
  = if bool_decide (agent_positions st' !!! ag ∈ dirty)
    then {[agent_positions st' !!! ag]} ∪ cleaned st
    else cleaned st.
Proof.
  unfold agent_tick.
  destruct (_ <? _).
  - destruct (py_index _ _) as [p| |]; cbn [res_bind]; [|done..].
    intros [= <- <-]. cbn [cleaned agent_positions].
    match goal with
    | |- cleaned (if ?b then _ else _) = _ => destruct b eqn:Hb
    end; cbn [cleaned agent_positions].
    + apply bool_decide_eq_true in Hb. by rewrite bool_decide_eq_true_2.
    + apply bool_decide_eq_false in Hb. by rewrite bool_decide_eq_false_2.
  - cbn [res_bind]. intros [= <- <-]. cbn [cleaned agent_positions].
    match goal with
    | |- cleaned (if ?b then _ else _) = _ => destruct b eqn:Hb
    end; cbn [cleaned agent_positions].
    + apply bool_decide_eq_true in Hb. by rewrite bool_decide_eq_true_2.
    + apply bool_decide_eq_false in Hb. by rewrite bool_decide_eq_false_2.
Qed.

Lemma agent_tick_cleaned_mono paths dirty st moved ag st' moved' :
  agent_tick paths dirty (st, moved) ag = Ok (st', moved') →
  cleaned st ⊆ cleaned st' ∧
  ∀ c, c ∈ cleaned st' → c ∈ cleaned st ∨ c ∈ dirty.
Proof.
  intros ->%agent_tick_cleaned. case_bool_decide as Hd.
  - split; [apply union_subseteq_r|].
    intros c [->%elem_of_singleton|?]%elem_of_union; auto.
  - split; [done|]. auto.
Qed.

Lemma tick_cleaned_mono paths dirty st st' moved :
  tick paths dirty st = Ok (st', moved) →
  cleaned st ⊆ cleaned st' ∧
  ∀ c, c ∈ cleaned st' → c ∈ cleaned st ∨ c ∈ dirty.
Proof.
  unfold tick. cbn [for_each].
  destruct (agent_tick paths dirty (st, false) 0) as [[st1 m1]| |] eqn:H0;
    cbn [res_bind]; [|done..].
  destruct (agent_tick paths dirty (st1, m1) 1) as [[st2 m2]| |] eqn:H1;
    cbn [res_bind]; [|done..].
  intros [= <- <-].
  apply agent_tick_cleaned_mono in H0 as [Ha0 Hb0].
  apply agent_tick_cleaned_mono in H1 as [Ha1 Hb1].
  split; [by etrans|]. intros c Hc.
  destruct (Hb1 c Hc) as [?|?]; auto.
Qed.

Lemma run_ticks_cleaned paths dirty k :
  ∀ st b st' b', run_ticks paths dirty k (st, b) = Ok (st', b') →
  cleaned st ⊆ cleaned st' ∧
  ∀ c, c ∈ cleaned st' → c ∈ cleaned st ∨ c ∈ dirty.
Proof.
  induction k as [|k IH]; intros st b st' b'; cbn [run_ticks fst].
  - intros [= <- <-]. split; [done|]. auto.
  - destruct (tick paths dirty st) as [[st1 m1]| |] eqn:Ht;
      cbn [res_bind]; [|done..].
    intros Hrun. apply tick_cleaned_mono in Ht as [Ha Hb].
    apply IH in Hrun as [Ha' Hb']. split; [by etrans|].
    intros c Hc. destruct (Hb' c Hc) as [?|?]; auto.
Qed.

Lemma sim_loop_cleaned paths dirty n :
  ∀ st st', sim_loop paths dirty n st = Ok st' →
  cleaned st ⊆ cleaned st' ∧
  ∀ c, c ∈ cleaned st' → c ∈ cleaned st ∨ c ∈ dirty.
Proof.
  induction n as [|n IH]; intros st st'; cbn [sim_loop].
  - intros [= <-]. split; [done|]. auto.
  - destruct (tick paths dirty st) as [[st1 m1]| |] eqn:Ht;
      cbn [res_bind]; [|done..].
    apply tick_cleaned_mono in Ht as [Ha Hb]. cbn [fst snd].
    destruct m1.
    + intros [Ha' Hb']%IH. split; [by etrans|].
      intros c Hc. destruct (Hb' c Hc) as [?|?]; auto.
    + by intros [= <-].
Qed.

(** One tick, from indices that are not negative. *)
Lemma tick_spec paths dirty st :
  0 ≤ agent_path_idx st !!! 0 → 0 ≤ agent_path_idx st !!! 1 →
  ∃ st', tick paths dirty st
         = Ok (st', advances paths st 0 || advances paths st 1) ∧
    (∀ ag, ag = 0 ∨ ag = 1 →
       agent_path_idx st' !!! ag
       = (agent_path_idx st !!! ag)
         + (if advances paths st ag then 1 else 0) ∧
       agent_steps st' !!! ag
       = (agent_steps st !!! ag)
         + (if advances paths st ag then 1 else 0)).
Proof.
  intros H0 H1. unfold tick. cbn [for_each].
  destruct (agent_tick_spec paths dirty st false 0 H0)
    as (st1 & -> & Hidx1 & Hst1).
  cbn [res_bind].
  assert (agent_path_idx st1 !!! 1 = agent_path_idx st !!! 1) as Hsame.
  { rewrite Hidx1. destruct (advances paths st 0); [|done].
    by rewrite lookup_total_insert_ne. }
  assert (advances paths st1 1 = advances paths st 1) as Hadv.
  { unfold advances. by rewrite Hsame. }
  destruct (agent_tick_spec paths dirty st1 (false || advances paths st 0) 1)
    as (st2 & -> & Hidx2 & Hst2); [by rewrite Hsame|].
  cbn [res_bind]. rewrite Hadv in *. exists st2. split; [done|].
  intros ag [-> | ->]; rewrite Hidx2, Hst2, Hidx1, Hst1;
    destruct (advances paths st 1), (advances paths st 0);
    repeat (rewrite lookup_total_insert_eq
            || rewrite lookup_total_insert_ne by done);
    split; lia.
Qed.

Lemma advance_shift (idx L k : Z) :
  1 ≤ k →
  (idx + (if idx + 1 <? L then 1 else 0) + k <? L) = (idx + (k + 1) <? L).
Proof.
  intros Hk. destruct (Z.ltb_spec (idx + 1) L).
  - f_equal. lia.
  - destruct (Z.ltb_spec (idx + 0 + k) L), (Z.ltb_spec (idx + (k + 1)) L);
      (done || lia).
Qed.

(** The state after [k] ticks: each index has advanced by [k] or has
    stopped at the end of its route, and the last tick moved an agent
    exactly when an index was still short of the end. *)
Lemma run_ticks_spec paths dirty (k : nat) :
  ∀ st b,
  0 ≤ agent_path_idx st !!! 0 → 0 ≤ agent_path_idx st !!! 1 →
  ∃ st' b', run_ticks paths dirty k (st, b) = Ok (st', b') ∧
    (∀ ag, ag = 0 ∨ ag = 1 →
       agent_path_idx st' !!! ag
       = Z.min ((agent_path_idx st !!! ag) + Z.of_nat k)
           (Z.max (agent_path_idx st !!! ag) (len (paths !!! ag) - 1)) ∧
       agent_steps st' !!! ag
       = (agent_steps st !!! ag)
         + (agent_path_idx st' !!! ag - agent_path_idx st !!! ag)) ∧
    b' = match k with
         | O => b
         | S _ =>
             ((agent_path_idx st !!! 0) + Z.of_nat k <? len (paths !!! 0))
             || ((agent_path_idx st !!! 1) + Z.of_nat k <? len (paths !!! 1))
         end.
Proof.
  induction k as [|k IH]; intros st b H0 H1; cbn [run_ticks fst].
  - exists st, b. split_and!; [done| |done]. intros ag _. lia.
  - destruct (tick_spec paths dirty st H0 H1) as (st1 & -> & Hst1).
    cbn [res_bind].
    destruct (Hst1 0) as [Hi0 Hs0]; [by left|].
    destruct (Hst1 1) as [Hi1 Hs1]; [by right|].
    unfold advances in *.
    destruct (IH st1 (((agent_path_idx st !!! 0) + 1 <? len (paths !!! 0))
                      || ((agent_path_idx st !!! 1) + 1 <? len (paths !!! 1))))
      as (st' & b' & -> & Hidx & Hb).
    { rewrite Hi0.
      destruct (agent_path_idx st !!! 0 + 1 <? len (paths !!! 0)); lia. }
    { rewrite Hi1.
      destruct (agent_path_idx st !!! 1 + 1 <? len (paths !!! 1)); lia. }
    exists st', b'. split_and!; [done| |].
    + intros ag Hag. destruct (Hidx ag Hag) as [Hi Hs]. rewrite Hs, Hi.
      destruct Hag as [-> | ->].
      * rewrite Hi0, Hs0.
        destruct (Z.ltb_spec ((agent_path_idx st !!! 0) + 1)
                    (len (paths !!! 0))); lia.
      * rewrite Hi1, Hs1.
        destruct (Z.ltb_spec ((agent_path_idx st !!! 1) + 1)
                    (len (paths !!! 1))); lia.
    + rewrite Hb. destruct k as [|k]; [done|].
      rewrite Hi0, Hi1, !advance_shift by lia.
      by replace (Z.of_nat (S k) + 1) with (Z.of_nat (S (S k))) by lia.
Qed.

(** The loop stops at the first tick in which nothing moved. *)
Lemma sim_loop_break paths dirty (T : nat) :
  ∀ n st stf, (1 ≤ T ≤ n)%nat →
  run_ticks paths dirty T (st, true) = Ok (stf, false) →
  (∀ j, (j < T)%nat →
     ∃ stj, run_ticks paths dirty j (st, true) = Ok (stj, true)) →
  sim_loop paths dirty n st = Ok stf.
Proof.
  induction T as [|T IH]; intros n st stf HT Hrun Hbefore; [lia|].
  destruct n as [|n]; [lia|]. cbn [run_ticks sim_loop fst] in *.
  destruct (tick paths dirty st) as [[st1 m1]| |] eqn:Ht;
    cbn [res_bind] in *; [|done..].
  cbn [fst snd]. destruct T as [|T].
  - cbn [run_ticks] in Hrun. by injection Hrun as -> ->.
  - destruct (Hbefore 1%nat) as [stj Hj]; [lia|].
    cbn [run_ticks fst] in Hj. rewrite Ht in Hj. cbn [res_bind] in Hj.
    injection Hj as _ ->.
    apply IH; [lia|done|].
    intros j Hj. destruct (Hbefore (S j)) as [stj' Hj']; [lia|].
    cbn [run_ticks fst] in Hj'. rewrite Ht in Hj'. by exists stj'.
Qed.

(** ** CoverageSimulator and Metrics: the claims *)

(** C8: the simulation loop ends.  From the initial state it runs
    [max 1 (max (len route))] ticks, which is within the cap of
    [max (len route) + 200]; it stops at the first tick in which no agent
    advanced, every earlier tick having moved an agent. *)
Theorem C8_simulation_terminates (paths : gmap Z (list cell))
    (dirty : list cell) (s0 s1 : cell) :
  ∃ (T : nat) (st : sim),
    simulate [s0; s1] paths dirty = Ok st ∧
    Z.of_nat T = Z.max 1 (Z.max (len (paths !!! 0)) (len (paths !!! 1))) ∧
    Z.of_nat T ≤ max_steps paths ∧
    run_ticks paths dirty T (sim_init s0 s1, true) = Ok (st, false) ∧
    ∀ j, (j < T)%nat →
      ∃ stj, run_ticks paths dirty j (sim_init s0 s1, true) = Ok (stj, true).
Proof.
  remember (Z.max (len (paths !!! 0)) (len (paths !!! 1))) as L eqn:HL.
  assert (agent_path_idx (sim_init s0 s1) !!! 0 = 0) as Hi0 by done.
  assert (agent_path_idx (sim_init s0 s1) !!! 1 = 0) as Hi1 by done.
  assert (∀ j : nat, ∃ stj,
            run_ticks paths dirty j (sim_init s0 s1, true)
            = Ok (stj, match j with
                       | O => true
                       | S _ => (Z.of_nat j <? len (paths !!! 0))
                                || (Z.of_nat j <? len (paths !!! 1))
                       end)) as Hticks.
  { intros j.
    destruct (run_ticks_spec paths dirty j (sim_init s0 s1) true)
      as (stj & bj & Hrun & _ & Hb); [by rewrite Hi0|by rewrite Hi1|].
    exists stj. rewrite Hrun, Hb, Hi0, Hi1. by destruct j. }
  exists (Z.to_nat (Z.max 1 L)).
  destruct (Hticks (Z.to_nat (Z.max 1 L))) as [st Hst].
  assert (run_ticks paths dirty (Z.to_nat (Z.max 1 L)) (sim_init s0 s1, true)
          = Ok (st, false)) as Hlast.
  { rewrite Hst. destruct (Z.to_nat (Z.max 1 L)) as [|T] eqn:HT; [lia|].
    rewrite <-HT.
    destruct (Z.ltb_spec (Z.of_nat (Z.to_nat (Z.max 1 L))) (len (paths !!! 0)));
      [lia|].
    destruct (Z.ltb_spec (Z.of_nat (Z.to_nat (Z.max 1 L))) (len (paths !!! 1)));
      [lia|done]. }
  assert (∀ j, (j < Z.to_nat (Z.max 1 L))%nat →
            ∃ stj, run_ticks paths dirty j (sim_init s0 s1, true)
                   = Ok (stj, true)) as Hbefore.
  { intros j Hj. destruct (Hticks j) as [stj Hstj]. exists stj.
    rewrite Hstj. destruct j as [|j]; [done|]. do 2 f_equal.
    apply orb_true_iff. rewrite !Z.ltb_lt. lia. }
  exists st. split_and!; [|lia| |done..].
  2:{ unfold max_steps, len in *. lia. }
  change (simulate [s0; s1] paths dirty)
    with (sim_loop paths dirty (Z.to_nat (max_steps paths)) (sim_init s0 s1)).
  apply (sim_loop_break paths dirty (Z.to_nat (Z.max 1 L))); [|done..].
  unfold max_steps, len in *. lia.
Qed.

(** C9: the cleaned set never loses a cell and gains only dirty cells,
    so it stays inside the dirty set from the initial state on; when the
    cell an agent stands on is already cleaned, adding it changes
    nothing. *)
Theorem C9_cleaned_invariant (paths : gmap Z (list cell))
    (dirty : list cell) :
  (∀ st st' moved, tick paths dirty st = Ok (st', moved) →
     cleaned st ⊆ cleaned st' ∧
     ∀ c, c ∈ cleaned st' → c ∈ cleaned st ∨ c ∈ dirty) ∧
  (∀ s0 s1 k st b,
     run_ticks paths dirty k (sim_init s0 s1, true) = Ok (st, b) →
     ∀ c, c ∈ cleaned st → c ∈ dirty) ∧
  (∀ starts st, simulate starts paths dirty = Ok st →
     ∀ c, c ∈ cleaned st → c ∈ dirty) ∧
  (∀ st moved ag st' moved',
     agent_tick paths dirty (st, moved) ag = Ok (st', moved') →
     agent_positions st' !!! ag ∈ cleaned st → cleaned st' = cleaned st).
Proof.
  split_and!.
  - intros st st' moved. apply tick_cleaned_mono.
  - intros s0 s1 k st b [_ Hin]%run_ticks_cleaned c Hc.
    destruct (Hin c Hc) as [Hc'|?]; [|done]. by inversion Hc'.
  - intros starts st. unfold simulate.
    destruct (py_index starts 0) as [s0| |]; cbn [res_bind]; [|done..].
    destruct (py_index starts 1) as [s1| |]; cbn [res_bind]; [|done..].
    intros [_ Hin]%sim_loop_cleaned c Hc.
    destruct (Hin c Hc) as [Hc'|?]; [|done]. by inversion Hc'.
  - intros st moved ag st' moved' ->%agent_tick_cleaned Hin.
    case_bool_decide; [|done]. by apply subseteq_union_1_L, singleton_subseteq_l.
Qed.

Lemma C9_cleaned_invariant_witness :
  ∃ st, simulate [(0, 0); (2, 2)]
          (<[0 := [(0, 0); (0, 1); (0, 2)]]> (<[1 := [(2, 2)]]> ∅))
          [(0, 2); (1, 1)] = Ok st ∧
        ∀ c, c ∈ cleaned st → c ∈ [(0, 2); (1, 1)].
Proof.
  destruct (simulate [(0, 0); (2, 2)]
              (<[0 := [(0, 0); (0, 1); (0, 2)]]> (<[1 := [(2, 2)]]> ∅))
              [(0, 2); (1, 1)]) as [st| |] eqn:H;
    [|exfalso; vm_compute in H; discriminate..].
  exists st. split; [reflexivity|].
  exact (proj1 (proj2 (proj2 (C9_cleaned_invariant _ _))) _ _ H).
Defined.

Lemma efficiency_spec st :
  efficiency st
  = if total_steps st =? 0 then Raise ZeroDivisionError
    else Ok (Qmake (Z.of_nat (size (cleaned st)))
               (Z.to_pos (total_steps st))).
Proof. done. Qed.

(** C5: with no dirty cell nobody moves, the total step count is [0],
    and the script's division raises [ZeroDivisionError] instead of
    giving an efficiency of [0]. *)
Theorem C5_zero_steps_raises :
  script [(0, 0); (2, 2)] [] grid3 = Raise ZeroDivisionError ∧
  ∃ st, simulate [(0, 0); (2, 2)] (<[0 := [(0, 0)]]> (<[1 := [(2, 2)]]> ∅)) []
        = Ok st ∧
        total_steps st = 0 ∧ efficiency st = Raise ZeroDivisionError.
Proof.
  split; [by vm_compute|].
  destruct (simulate [(0, 0); (2, 2)]
              (<[0 := [(0, 0)]]> (<[1 := [(2, 2)]]> ∅)) [])
    as [st| |] eqn:H; [|exfalso; vm_compute in H; discriminate..].
  exists st. split; [done|].
  assert (total_steps st = 0) as Hz.
  { vm_compute in H. injection H as <-. by vm_compute. }
  split; [done|]. unfold efficiency. by rewrite Hz.
Qed.

(** * Further properties *)

(** ** Shortest paths on any grid *)

Lemma improve_on_walk goal w cur n gc st :
  on_walk goal w (Some cur) st →
  gc + 1 < gval (gscore st) n →
  on_walk goal w (Some cur) (improve goal cur n (gc + 1) st).
Proof.
  intros [Hh Hf] Hlt.
  assert (∀ v, gscore st !! n = Some v → gc + 1 < v) as Hold.
  { intros v Hv. unfold gval in Hlt. by rewrite Hv in Hlt. }
  split; simpl; unfold heappush.
  - intros e [->|He]%elem_of_cons; simpl.
    { exists (gc + 1). by rewrite lookup_insert_eq. }
    destruct (Hh e He) as (v & Hv & Hle).
    destruct (decide (n = e.2)) as [Hn|Hn].
    + exists (gc + 1). rewrite Hn, lookup_insert_eq. split; [done|].
      rewrite <-Hn in Hv. specialize (Hold _ Hv). lia.
    + exists v. by rewrite lookup_insert_ne.
  - intros i m v Hi. rewrite lookup_insert. case_decide as Hm.
    { subst m. intros [= <-] _. right; left. by left. }
    intros Hv Hle.
    destruct (Hf i m v Hi Hv Hle) as [?|[?|(n' & v' & Hn' & Hv' & Hle')]].
    + by left.
    + right; left. by right.
    + right; right. destruct (decide (n = n')) as [->|Hn].
      * exists n', (gc + 1). rewrite lookup_insert_eq.
        split_and!; try done. specialize (Hold _ Hv'). lia.
      * exists n', v'. by rewrite lookup_insert_ne.
Qed.

Lemma expand_on_walk goal grid w cur st st' :
  on_walk goal w (Some cur) st →
  expand goal grid (len grid) (len (grid !!! 0%nat)) cur st neighbors = Ok st' →
  on_walk goal w (Some cur) st'.
Proof.
  unfold expand. apply for_each_inv. intros b a b' Ha Hb.
  intros [->|(gc & Hgc & Hf & Hlt & ->)]%relax_Ok; [done|].
  by apply improve_on_walk.
Qed.

Lemma pop_on_walk goal w st f cur hp :
  on_walk goal w None st →
  heappop (open_heap st) = Some ((f, cur), hp) →
  on_walk goal w (Some cur)
    {| open_heap := hp; gscore := gscore st;
       fscore := fscore st; came := came st |}.
Proof.
  intros [Hh Hf] [Hperm _]%heappop_Some. split; simpl.
  - intros e He. apply Hh. rewrite Hperm. by right.
  - intros i m v Hi Hv Hle.
    destruct (Hf i m v Hi Hv Hle) as [?|[He|?]]; [done| |by right; right].
    rewrite Hperm in He. apply elem_of_cons in He as [[= _ ->]|He].
    + by left.
    + right. by left.
Qed.

(** A cell one move away is reached by one of the four [neighbors]. *)
Lemma adjacent_neighbor (a b : cell) :
  h a b = 1 → ∃ d, d ∈ neighbors ∧ b = (a.1 + d.1, a.2 + d.2).
Proof.
  destruct a as [r k], b as [r' k']. unfold h, neighbors. simpl. intros Hh.
  assert ((r' = r + 1 ∧ k' = k) ∨ (r' = r - 1 ∧ k' = k)
          ∨ (r' = r ∧ k' = k + 1) ∨ (r' = r ∧ k' = k - 1))
    as [[-> ->]|[[-> ->]|[[-> ->]|[-> ->]]]] by lia.
  - exists (1, 0). split; [by repeat constructor|]. simpl. f_equal; lia.
  - exists (-1, 0). split; [by repeat constructor|]. simpl. f_equal; lia.
  - exists (0, 1). split; [by repeat constructor|]. simpl. f_equal; lia.
  - exists (0, -1). split; [by repeat constructor|]. simpl. f_equal; lia.
Qed.

Lemma walk_lookup grid w (i : nat) a b :
  walk grid w → w !! i = Some a → w !! S i = Some b →
  h a b = 1 ∧ is_free grid b.
Proof.
  revert i. induction w as [|x w IH]; intros i Hw Ha Hb; [done|].
  destruct w as [|y w]; [done|].
  apply walk_cons in Hw as (Hxy & Hy & Hw).
  destruct i as [|i].
  - simpl in Ha, Hb. injection Ha as ->. injection Hb as ->. done.
  - by apply (IH i).
Qed.

Lemma walk_drop grid w (i : nat) : walk grid w → walk grid (drop i w).
Proof.
  revert w. induction i as [|i IH]; intros w Hw; [by rewrite drop_0|].
  destruct w as [|x w]; [done|]. simpl. apply IH.
  destruct w as [|y w]; [done|]. by apply walk_cons in Hw as (_ & _ & Hw).
Qed.

(** A cell of a walk is no farther from the end than the moves left. *)
Lemma walk_rest grid w goal (i : nat) n :
  walk grid w → last w = Some goal → w !! i = Some n →
  h n goal ≤ len w - 1 - Z.of_nat i.
Proof.
  intros Hw Hl Hi. pose proof (lookup_lt_Some _ _ _ Hi) as Hlt.
  pose proof (walk_drop grid w i Hw) as Hd.
  assert (last (drop i w) = Some goal) as Hld.
  { rewrite <-(take_drop i w) in Hl. rewrite last_app in Hl.
    destruct (last (drop i w)) as [x|] eqn:Hx; [done|].
    apply last_None in Hx. apply (f_equal length) in Hx.
    rewrite length_drop in Hx. simpl in Hx. lia. }
  rewrite (drop_S _ _ _ Hi) in Hd, Hld.
  pose proof (walk_length _ _ _ _ Hd Hld) as Hlen.
  unfold len in *.
  assert (length (drop (S i) w) = (length w - S i)%nat) as Hdl
    by apply length_drop.
  lia.
Qed.

Lemma close_on_walk goal grid w cur st0 st :
  walk grid w → last w = Some goal → len w - 1 < BIG → cur ≠ goal →
  on_walk goal w (Some cur) st0 →
  expand goal grid (len grid) (len (grid !!! 0%nat)) cur st0 neighbors = Ok st →
  on_walk goal w None st.
Proof.
  intros Hw Hl Hbig Hne Hon0 Hex.
  pose proof (expand_on_walk _ _ _ _ _ _ Hon0 Hex) as [Hh Hf].
  split; [done|]. intros i m v Hi Hv Hle.
  destruct (Hf i m v Hi Hv Hle) as [[= ->]|[?|?]];
    [|by right; left|by right; right].
  right; right.
  pose proof (lookup_lt_Some _ _ _ Hi) as Hlt.
  assert (S i < length w)%nat as Hlt'.
  { destruct (decide (S i = length w)) as [Heq|]; [|lia].
    destruct Hne. apply last_Some in Hl as [w' ->].
    rewrite length_app in Heq. simpl in Heq.
    rewrite lookup_app_r in Hi by lia.
    replace (i - length w')%nat with 0%nat in Hi by lia.
    by injection Hi. }
  destruct (lookup_lt_is_Some_2 w (S i) Hlt') as [n' Hn'].
  destruct (walk_lookup grid w i m n' Hw Hi Hn') as [Hadj Hfree].
  destruct (adjacent_neighbor m n' Hadj) as (d & Hd & ->).
  assert (gscore st0 !! m = Some v) as Hv0.
  { by rewrite <-(expand_cur_same _ _ _ _ _ Hex). }
  assert (v + 1 < BIG) as Hb by (unfold len in *; lia).
  destruct (expand_done goal grid m v d neighbors Hd Hfree Hb
              st0 st v Hv0 ltac:(lia) Hex) as (v' & Hv' & Hle').
  by exists (m.1 + d.1, m.2 + d.2), v'.
Qed.

(** While the search runs, the heap holds an entry whose [f] is at most
    the number of moves of [w]. *)
Lemma walk_entry goal grid w st (k : nat) :
  walk grid w → last w = Some goal → on_walk goal w None st →
  ∀ (i : nat) n v, (length w - 1 - i = k)%nat →
  w !! i = Some n → gscore st !! n = Some v → v ≤ Z.of_nat i →
  ∃ e, e ∈ open_heap st ∧ e.1 ≤ len w - 1.
Proof.
  intros Hw Hl Hon. induction k as [|k IH]; intros i n v Hk Hi Hv Hle.
  - pose proof (walk_rest _ _ _ _ _ Hw Hl Hi) as Hrest.
    destruct (w_front _ _ _ _ Hon i n v Hi Hv Hle)
      as [?|[?|(n' & v' & Hn' & _)]]; [done| |].
    + eexists. split; [done|]. simpl. lia.
    + apply lookup_lt_Some in Hn'. apply lookup_lt_Some in Hi. lia.
  - pose proof (walk_rest _ _ _ _ _ Hw Hl Hi) as Hrest.
    destruct (w_front _ _ _ _ Hon i n v Hi Hv Hle)
      as [?|[?|(n' & v' & Hn' & Hv' & Hle')]]; [done| |].
    + eexists. split; [done|]. simpl. lia.
    + apply (IH (S i) n' v'); [lia|done..|lia].
Qed.

Lemma astar_init_on_walk start goal w :
  on_walk goal w None (astar_init start goal).
Proof.
  split; simpl; unfold heappush.
  - intros e ->%list_elem_of_singleton. exists 0. simpl.
    rewrite lookup_singleton_eq. split; [done|lia].
  - intros i n v _ [-> <-]%lookup_singleton_Some _. right; left.
    by apply list_elem_of_singleton.
Qed.

(** When a walk of fewer than [1e9] moves joins [start] to [goal],
    [astar] returns a walk that is not longer, unless it raises on a
    grid that is not rectangular. *)
Lemma astar_shortest start goal grid w :
  path_ok grid start goal w → len w - 1 < BIG →
  shortest_post start goal grid w (astar start goal grid).
Proof.
  intros (Hhead & Hlast & Hw) Hbig.
  unfold astar. destruct grid as [|row0 rows].
  { simpl. split; [done|]. by intros []. }
  change (py_index (row0 :: rows) 0) with (Ok (A := list Z) row0). simpl.
  change row0 with ((row0 :: rows) !!! 0%nat) at 1 2.
  set (grid := row0 :: rows) in *.
  apply (run_while_returns _
           (λ st, sound start grid st ∧ on_walk goal w None st)
           (shortest_post start goal grid w)
           (potential (len grid) (len (grid !!! 0%nat)))).
  - intros st st' [Hs Ho] Hbody.
    destruct (astar_body_step _ _ _ _ _ Hs Hbody) as [Hs' Hpot].
    split; [split; [done|]|done].
    revert Hbody. unfold astar_body.
    destruct (heappop (open_heap st)) as [[[f cur] hp]|] eqn:Hpop; [|done].
    case_decide as Hcur; [done|].
    destruct (expand _ _ _ _ _ _ _) as [st1| |] eqn:Hex; [|done..].
    intros [= <-]. eapply close_on_walk; try done.
    by eapply pop_on_walk.
  - intros st r [Hs Ho] Hbody.
    destruct w as [|w0 w']; [done|]. injection Hhead as ->.
    destruct (walk_entry goal grid (start :: w') st
                (length (start :: w') - 1 - 0) Hw Hlast Ho 0%nat start 0)
      as (e & He & Hed); [done|done|apply (s_start _ _ _ Hs)|lia|].
    revert Hbody. unfold astar_body.
    destruct (heappop (open_heap st)) as [[[f cur] hp]|] eqn:Hpop.
    2:{ apply heappop_None in Hpop. rewrite Hpop in He. by inversion He. }
    pose proof (heappop_Some _ _ _ Hpop) as [Hperm Hmin].
    specialize (Hmin e He). simpl in Hmin.
    destruct (w_heap _ _ _ _ Ho (f, cur)) as (gc & Hgc & Hfc).
    { rewrite Hperm. by left. }
    simpl in Hgc, Hfc.
    case_decide as Hcur.
    + subst cur. intros [= <-].
      destruct (rebuild_ok _ _ _ _ _ Hs Hgc) as (p & -> & Hp & Hlen).
      simpl. split; [done|].
      assert (0 ≤ h goal goal) by (unfold h; lia). lia.
    + pose proof (expand_fail goal grid cur
                    {| open_heap := hp; gscore := gscore st;
                       fscore := fscore st; came := came st |}) as Hf.
      destruct (expand _ _ _ _ _ _ _) as [st1|ex|]; [done| |].
      * intros [= <-]. simpl. apply Hf. by eexists.
      * destruct Hf. by eexists.
  - intros st [Hs _]. by eapply potential_nonneg.
  - split; [apply astar_init_sound|apply astar_init_on_walk].
  - apply astar_init_potential; unfold len; lia.
Qed.

(** A walk that visits a cell twice can be shortened. *)
Lemma walk_shorten grid a b w :
  path_ok grid a b w →
  NoDup w ∨ ∃ w', path_ok grid a b w' ∧ (length w' < length w)%nat ∧
                  ∀ c, c ∈ w' → c ∈ w.
Proof.
  revert a. induction w as [|x w IH]; intros a (Hh & Hl & Hw); [done|].
  injection Hh as ->. destruct w as [|y q].
  { left. apply NoDup_singleton. }
  apply walk_cons in Hw as (Hay & Hy & Hw). rewrite last_cons_cons in Hl.
  destruct (IH y) as [Hnd|(w' & (Hh' & Hl' & Hw') & Hlen & Hsub)]; [done| |].
  - destruct (decide (a ∈ y :: q)) as [Hin|Hnin].
    + right. apply list_elem_of_split in Hin as (l1 & l2 & Heq).
      exists (a :: l2). split_and!.
      * split_and!; [done| |].
        -- by rewrite Heq, last_app_cons in Hl.
        -- pose proof (walk_drop grid (y :: q) (length l1) Hw) as Hd.
           by rewrite Heq, drop_app_length in Hd.
      * rewrite Heq. simpl. rewrite length_app. simpl. lia.
      * intros c Hc. right. rewrite Heq. apply elem_of_app. by right.
    + left. by apply NoDup_cons.
  - right. destruct w' as [|y' w']; [done|]. injection Hh' as ->.
    exists (a :: y :: w'). split_and!.
    + split_and!; [done|by rewrite last_cons_cons|].
      apply walk_cons. done.
    + simpl in *. lia.
    + intros c [->|Hc]%elem_of_cons; [by left|]. right. by apply Hsub.
Qed.

(** Any two cells joined by a walk are joined by one without repeated
    cell. *)
Lemma walk_simple grid a b w :
  path_ok grid a b w →
  ∃ w', path_ok grid a b w' ∧ NoDup w' ∧ (length w' ≤ length w)%nat.
Proof.
  remember (length w) as k eqn:Hk. revert w Hk.
  induction k as [k IH] using lt_wf_ind. intros w -> Hok.
  destruct (walk_shorten _ _ _ _ Hok) as [Hnd|(w' & Hok' & Hlt & _)].
  - by exists w.
  - destruct (IH (length w') Hlt w' eq_refl Hok') as (w'' & ? & ? & ?).
    exists w''. split_and!; [done..|lia].
Qed.

Lemma free_in_all_cells grid c :
  is_free grid c → c ∈ all_cells (len grid) (len (grid !!! 0%nat)).
Proof.
  unfold is_free. intros [Hb _]%andb_True.
  by apply elem_of_all_cells, in_bounds_spec.
Qed.

(** A walk without repeated cell has at most as many moves as the grid
    has cells. *)
Lemma simple_walk_length grid a b w :
  path_ok grid a b w → NoDup w →
  len w - 1 ≤ len grid * len (grid !!! 0%nat).
Proof.
  intros (Hh & _ & Hw) Hnd. destruct w as [|x q]; [done|].
  apply NoDup_cons in Hnd as [_ Hnd].
  assert (q ⊆+ all_cells (len grid) (len (grid !!! 0%nat))) as Hsub.
  { apply NoDup_submseteq; [done|]. intros c Hc.
    apply free_in_all_cells. by apply (walk_tail_free grid (x :: q)). }
  apply submseteq_length in Hsub.
  pose proof (len_all_cells (len grid) (len (grid !!! 0%nat))) as Hall.
  unfold len in *. simpl. lia.
Qed.

(** [astar] returns a shortest walk, whatever the grid. *)
Lemma astar_path_shortest start goal grid p w :
  astar start goal grid = Ok (Some p) → path_ok grid start goal w →
  len p ≤ len w.
Proof.
  intros Hp Hw. destruct (decide (len w - 1 < BIG)) as [Hlt|Hge].
  - pose proof (astar_shortest _ _ _ _ Hw Hlt) as Hs.
    rewrite Hp in Hs. apply Hs.
  - pose proof (astar_spec start goal grid) as Hs. rewrite Hp in Hs.
    simpl in Hs. lia.
Qed.

Lemma astar_path_NoDup start goal grid p :
  astar start goal grid = Ok (Some p) → NoDup p.
Proof.
  intros Hp. pose proof (astar_path_ok _ _ _ _ Hp) as Hok.
  destruct (walk_shorten _ _ _ _ Hok) as [?|(w' & Hok' & Hlt & _)]; [done|].
  pose proof (astar_path_shortest _ _ _ _ _ Hp Hok'). unfold len in *. lia.
Qed.

(** On a rectangular grid of fewer than [1e9] cells [astar] finds a
    path whenever a walk exists. *)
Lemma astar_complete start goal grid :
  rectangular grid → len grid * len (grid !!! 0%nat) < BIG →
  reachable grid start goal →
  ∃ p, astar start goal grid = Ok (Some p).
Proof.
  intros Hrect Hsize [w Hw].
  destruct (walk_simple _ _ _ _ Hw) as (w' & Hw' & Hnd & _).
  pose proof (simple_walk_length _ _ _ _ Hw' Hnd) as Hlen.
  pose proof (astar_shortest start goal grid w' Hw' ltac:(lia)) as Hs.
  destruct (astar start goal grid) as [[p|]|e|]; simpl in Hs; try done.
  - by exists p.
  - by destruct Hs.
Qed.

Lemma astar_None_unreachable start goal grid :
  rectangular grid → len grid * len (grid !!! 0%nat) < BIG →
  astar start goal grid = Ok None ↔ ¬ reachable grid start goal.
Proof.
  intros Hrect Hsize. split.
  - intros Hn Hr. destruct (astar_complete _ _ _ Hrect Hsize Hr) as [p Hp].
    congruence.
  - intros Hn. destruct (astar_rectangular start goal grid Hrect) as [[p|] Ho];
      [|done].
    destruct Hn. exists p. by apply astar_path_ok.
Qed.

(** ** PathFinder: further properties *)

(** X1: a path returned by [astar] is a walk from [start] to [goal]
    (consecutive cells one cardinal move apart, every cell after the
    first free) that visits no cell twice, and no walk from [start] to
    [goal] has fewer cells, on any grid. *)
Theorem astar_returns_shortest_walk (start goal : cell) (grid : grid_t)
    (p : list cell) :
  astar start goal grid = Ok (Some p) →
  path_ok grid start goal p ∧ NoDup p ∧
  ∀ w, path_ok grid start goal w → len p ≤ len w.
Proof.
  intros Hp. split_and!.
  - by apply astar_path_ok.
  - by eapply astar_path_NoDup.
  - intros w. by apply astar_path_shortest.
Qed.

Lemma astar_returns_shortest_walk_witness :
  astar (0, 0) (2, 2) grid3
  = Ok (Some [(0, 0); (0, 1); (0, 2); (1, 2); (2, 2)]) ∧
  NoDup [(0, 0); (0, 1); (0, 2); (1, 2); (2, 2)].
Proof.
  assert (astar (0, 0) (2, 2) grid3
          = Ok (Some [(0, 0); (0, 1); (0, 2); (1, 2); (2, 2)])) as H
    by (vm_compute; reflexivity).
  split; [exact H|].
  exact (proj1 (proj2 (astar_returns_shortest_walk _ _ _ _ H))).
Defined.

(** X2: on a rectangular grid of fewer than [1e9] cells, [astar] returns
    a path when some walk joins [start] to [goal], and [None] exactly when
    none does. *)
Theorem astar_finds_path_iff_reachable (start goal : cell) (grid : grid_t) :
  rectangular grid → len grid * len (grid !!! 0%nat) < BIG →
  (reachable grid start goal → ∃ p, astar start goal grid = Ok (Some p)) ∧
  (astar start goal grid = Ok None ↔ ¬ reachable grid start goal).
Proof.
  intros Hrect Hsize. split.
  - by apply astar_complete.
  - by apply astar_None_unreachable.
Qed.

Lemma astar_finds_path_iff_reachable_witness :
  rectangular grid3 ∧ len grid3 * len (grid3 !!! 0%nat) < BIG ∧
  (astar (0, 0) (1, 1) grid3 = Ok None ↔ ¬ reachable grid3 (0, 0) (1, 1)).
Proof.
  assert (rectangular grid3) as H1 by (vm_compute; exact I).
  assert (len grid3 * len (grid3 !!! 0%nat) < BIG) as H2
    by (vm_compute; reflexivity).
  split_and!; [exact H1|exact H2|].
  exact (proj2 (astar_finds_path_iff_reachable (0, 0) (1, 1) grid3 H1 H2)).
Defined.

(** X3: the search loop of [astar] always ends; [gscore[current]] never
    raises [KeyError]; the only exception is the [IndexError] of
    [grid[0]] or [grid[nr][nc]], which needs a grid that is empty or has
    rows of different lengths, and an empty grid always raises it. *)
Theorem astar_raises_only_IndexError (start goal : cell) (grid : grid_t) :
  match astar start goal grid with
  | Ok _ => True
  | Raise e => e = IndexError ∧ ¬ rectangular grid
  | OutOfFuel => False
  end ∧
  astar start goal [] = Raise IndexError.
Proof.
  split; [|done].
  pose proof (astar_spec start goal grid) as Hs.
  destruct (astar start goal grid) as [o|e|]; [done| |done].
  by destruct e.
Qed.

Lemma while_fuel_exit {S R} (body : S → S + R) (p : positive) (s : S) (r : R) :
  body s = inr r → while_fuel body p s = inr r.
Proof.
  intros Hb. induction p as [p IH|p IH|]; cbn [while_fuel].
  - by rewrite Hb.
  - by rewrite IH.
  - done.
Qed.

(** X4: from a cell to itself [astar] returns the one-cell path on every
    grid that has a first row, whether the cell is free, an obstacle or
    outside the grid. *)
Theorem astar_same_cell (s : cell) (grid : grid_t) :
  grid ≠ [] → astar s s grid = Ok (Some [s]).
Proof.
  intros Hg. destruct grid as [|row0 rows]; [done|].
  unfold astar.
  change (py_index (row0 :: rows) 0) with (Ok (A := list Z) row0).
  cbn [res_bind]. unfold run_while.
  rewrite (while_fuel_exit _ _ _ (Ok (Some [s]))); [done|].
  unfold astar_body, astar_init, heappush. cbn [open_heap heappop came].
  rewrite decide_True by done.
  unfold rebuild, run_while.
  by rewrite (while_fuel_exit _ _ _ (Ok [s])).
Qed.

Lemma astar_same_cell_witness :
  grid3 ≠ [] ∧ astar (1, 1) (1, 1) grid3 = Ok (Some [(1, 1)]).
Proof.
  assert (grid3 ≠ []) as H by discriminate.
  split; [exact H|]. exact (astar_same_cell (1, 1) grid3 H).
Defined.

(** X5: on a rectangular grid a goal that is an obstacle or lies outside
    the grid, and is not the start itself, is never reached: [astar]
    returns [None]. *)
Theorem astar_blocked_goal (start goal : cell) (grid : grid_t) :
  rectangular grid → ¬ is_free grid goal → goal ≠ start →
  astar start goal grid = Ok None.
Proof.
  intros Hrect Hnf Hne.
  destruct (astar_rectangular start goal grid Hrect) as [[p|] Ho]; [|done].
  apply astar_path_ok in Ho. destruct (reachable_free grid start goal); [|done..].
  by exists p.
Qed.

Lemma astar_blocked_goal_witness :
  rectangular grid3 ∧ ¬ is_free grid3 (1, 1) ∧ (1, 1) ≠ (0, 0) ∧
  astar (0, 0) (1, 1) grid3 = Ok None.
Proof.
  assert (rectangular grid3) as H1 by (vm_compute; exact I).
  assert (¬ is_free grid3 (1, 1)) as H2 by (vm_compute; exact id).
  assert (((1, 1) : cell) ≠ (0, 0)) as H3 by discriminate.
  split_and!; [exact H1|exact H2|exact H3|].
  exact (astar_blocked_goal (0, 0) (1, 1) grid3 H1 H2 H3).
Defined.

(** ** RouteBuilder: further properties *)

Lemma plan_step_walk grid start (tasks : list cell) :
  ∀ s t s', t ∈ tasks →
  path_ok grid start s.1 s.2 ∧ (s.1 = start ∨ s.1 ∈ tasks) →
  plan_step grid s t = Ok s' →
  path_ok grid start s'.1 s'.2 ∧ (s'.1 = start ∨ s'.1 ∈ tasks).
Proof.
  intros [pos full] t [pos' full'] Ht [Hok Hpos]. unfold plan_step.
  cbn [fst snd] in *.
  destruct (astar pos t grid) as [[p|]|e|] eqn:Ha; cbn [res_bind];
    [| |done..].
  - pose proof (astar_path_ok _ _ _ _ Ha) as Hp.
    destruct p as [|x q]; [by destruct Hp|].
    intros [= <- <-]. split; [|by right].
    by apply (path_ok_join grid start pos t full (x :: q)).
  - by intros [= <- <-].
Qed.

Lemma plan_full_path_walk (start : cell) (tasks : list cell)
    (grid : grid_t) (route : list cell) :
  plan_full_path start tasks grid = Ok route →
  head route = Some start ∧ walk grid route ∧
  (last route = Some start ∨ ∃ t, t ∈ tasks ∧ last route = Some t).
Proof.
  unfold plan_full_path.
  destruct (for_each (plan_step grid) (start, [start]) tasks)
    as [[pos full]| |] eqn:Hrun; cbn [res_bind]; [|done..].
  intros [= <-].
  apply (for_each_inv _
           (λ s, path_ok grid start s.1 s.2 ∧ (s.1 = start ∨ s.1 ∈ tasks)))
    in Hrun.
  - destruct Hrun as [(Hh & Hl & Hw) Hpos]. cbn [fst snd] in *.
    split_and!; [done..|]. destruct Hpos as [->|Hpos]; [by left|].
    right. by exists pos.
  - intros b a b' Ha. by apply plan_step_walk.
  - split; [apply path_ok_refl|by left].
Qed.

(** X6: the route built by [plan_full_path] is a walk through the grid:
    it begins at [start], consecutive cells are one cardinal move apart,
    every cell after the first is free, and it ends at [start] or at one
    of the tasks. *)
Theorem plan_full_path_is_walk (start : cell) (tasks : list cell)
    (grid : grid_t) (route : list cell) :
  plan_full_path start tasks grid = Ok route →
  head route = Some start ∧ walk grid route ∧
  (last route = Some start ∨ ∃ t, t ∈ tasks ∧ last route = Some t).
Proof. apply plan_full_path_walk. Qed.

Lemma plan_full_path_is_walk_witness :
  plan_full_path (2, 2) [(1, 2); (1, 1); (2, 0)] grid3
  = Ok [(2, 2); (1, 2); (2, 2); (2, 1); (2, 0)] ∧
  walk grid3 [(2, 2); (1, 2); (2, 2); (2, 1); (2, 0)].
Proof.
  assert (plan_full_path (2, 2) [(1, 2); (1, 1); (2, 0)] grid3
          = Ok [(2, 2); (1, 2); (2, 2); (2, 1); (2, 0)]) as H
    by (vm_compute; reflexivity).
  split; [exact H|].
  exact (proj1 (proj2 (plan_full_path_is_walk _ _ _ _ H))).
Defined.

Lemma for_each_app {A B} (f : B → A → res B) (b : B) (l1 l2 : list A) :
  for_each f b (l1 ++ l2) = (letM b' := for_each f b l1 in for_each f b' l2).
Proof.
  revert b. induction l1 as [|a l1 IH]; intros b; simpl; [done|].
  destruct (f b a) as [b1| |]; simpl; [apply IH|done..].
Qed.

(** The cells the loop appends do not depend on the route so far. *)
Lemma plan_loop_appends grid l :
  ∀ pos full,
  for_each (plan_step grid) (pos, full) l
  = (letM s := for_each (plan_step grid) (pos, []) l in
     Ok (s.1, full ++ s.2)).
Proof.
  induction l as [|t l IH]; intros pos full; cbn [for_each res_bind].
  { by rewrite app_nil_r. }
  unfold plan_step at 1 3. cbn [fst snd].
  destruct (astar pos t grid) as [[[|x q]|]|e|]; cbn [res_bind];
    try done; try apply IH.
  rewrite (IH t (full ++ q)), (IH t ([] ++ q)).
  destruct (for_each (plan_step grid) (t, []) l) as [[pos' ext]| |];
    cbn [res_bind fst snd]; [|done..].
  by rewrite app_assoc.
Qed.

Lemma plan_loop_last grid l :
  ∀ pos full r, last full = Some pos →
  for_each (plan_step grid) (pos, full) l = Ok r → last r.2 = Some r.1.
Proof.
  intros pos full r Hl.
  apply (for_each_inv _ (λ s, last s.2 = Some s.1)); [|done].
  clear. intros [pos full] t [pos' full'] _ Hl. unfold plan_step.
  cbn [fst snd] in *.
  destruct (astar pos t grid) as [[p|]|e|] eqn:Ha; cbn [res_bind];
    [| |done..].
  - apply astar_path_shape in Ha as (q & -> & Hq & _).
    intros [= <- <-]. by eapply last_extend.
  - by intros [= <- <-].
Qed.

(** X7: routes compose: the route for the tasks [l1 ++ l2] is the route
    for [l1] followed by the route for [l2] from the cell where the first
    one ends, without repeating that cell. *)
Theorem plan_full_path_app (start e : cell) (l1 l2 : list cell)
    (grid : grid_t) (r1 : list cell) :
  plan_full_path start l1 grid = Ok r1 → last r1 = Some e →
  plan_full_path start (l1 ++ l2) grid
  = (letM r2 := plan_full_path e l2 grid in Ok (r1 ++ tail r2)).
Proof.
  unfold plan_full_path. rewrite for_each_app.
  destruct (for_each (plan_step grid) (start, [start]) l1)
    as [[pos full]| |] eqn:Hrun; cbn [res_bind]; [|done..].
  intros [= <-] Hl.
  apply plan_loop_last in Hrun; [|done]. cbn [fst snd] in *.
  rewrite Hl in Hrun. injection Hrun as <-.
  rewrite (plan_loop_appends grid l2 e full),
    (plan_loop_appends grid l2 e [e]).
  by destruct (for_each (plan_step grid) (e, []) l2) as [[pos' ext]| |].
Qed.

Lemma plan_full_path_app_witness :
  plan_full_path (2, 2) [(1, 2)] grid3 = Ok [(2, 2); (1, 2)] ∧
  last [(2, 2); (1, 2)] = Some (1, 2) ∧
  plan_full_path (2, 2) ([(1, 2)] ++ [(2, 0)]) grid3
  = (letM r2 := plan_full_path (1, 2) [(2, 0)] grid3 in
     Ok ([(2, 2); (1, 2)] ++ tail r2)).
Proof.
  assert (plan_full_path (2, 2) [(1, 2)] grid3 = Ok [(2, 2); (1, 2)]) as H
    by (vm_compute; reflexivity).
  split_and!; [exact H|reflexivity|].
  exact (plan_full_path_app (2, 2) (1, 2) [(1, 2)] [(2, 0)] grid3 _ H eq_refl).
Defined.

(** ** TaskAllocator: further properties *)

Lemma h_sym (a b : cell) : h a b = h b a.
Proof. unfold h. lia. Qed.

Lemma walk_snoc grid l y x :
  last l = Some y → walk grid l → h y x = 1 → is_free grid x →
  walk grid (l ++ [x]).
Proof.
  intros Hl Hw Hyx Hx. apply (walk_join grid l y [x]); [done..|].
  by apply walk_cons.
Qed.

(** A walk whose first cell is free can be walked backwards. *)
Lemma walk_reverse grid a b w :
  path_ok grid a b w → is_free grid a → path_ok grid b a (reverse w).
Proof.
  intros (Hh & Hl & Hw) Ha. split_and!.
  - by rewrite head_reverse.
  - by rewrite last_reverse.
  - clear Hl b. revert a Hh Ha Hw. induction w as [|x w IH]; [done|].
    intros a [= ->] Ha Hw. rewrite reverse_cons.
    destruct w as [|y q]; [done|].
    apply walk_cons in Hw as (Hay & Hy & Hw).
    apply (walk_snoc grid _ y a).
    + by rewrite last_reverse.
    + by apply (IH y).
    + by rewrite h_sym.
    + done.
Qed.

Lemma reachable_sym grid a b :
  is_free grid a → reachable grid a b → reachable grid b a.
Proof. intros Ha [w Hw]. exists (reverse w). by apply walk_reverse. Qed.

Lemma reachable_trans grid a b c :
  reachable grid a b → reachable grid b c → reachable grid a c.
Proof.
  intros [p Hp] [q Hq]. exists (p ++ tail q). by eapply path_ok_join.
Qed.

Lemma alloc_reachable (starts dirty : list cell)
    (grid : grid_t) (st : alloc) (s0 s1 : cell) :
  rectangular grid → len grid * len (grid !!! 0%nat) < BIG →
  starts !! 0%nat = Some s0 → starts !! 1%nat = Some s1 →
  is_free grid s0 → is_free grid s1 →
  assign_tasks_state starts dirty grid = Ok st →
  ∀ t, t ∈ dirty →
    (t ∈ remaining st ↔ ¬ reachable grid s0 t ∧ ¬ reachable grid s1 t) ∧
    (t ∈ (assignments st !!! 0) ++ (assignments st !!! 1)
     ↔ reachable grid s0 t ∨ reachable grid s1 t).
Proof.
  intros Hrect Hsize H0 H1 Hf0 Hf1 Hst t Ht.
  destruct (assign_tasks_state_Ok _ _ _ _ Hst)
    as (s0' & s1' & H0' & H1' & Hinv & Hrest).
  rewrite H0 in H0'. rewrite H1 in H1'.
  injection H0' as <-. injection H1' as <-.
  pose proof (a_perm _ _ _ _ _ Hinv) as Hperm.
  assert (NoDup ((assignments st !!! 0) ++ (assignments st !!! 1)
                 ++ remaining st)) as Hnd.
  { rewrite Hperm. apply NoDup_remove_dups. }
  assert (t ∈ (assignments st !!! 0) ++ (assignments st !!! 1)
              ++ remaining st) as Hin.
  { by rewrite Hperm, elem_of_remove_dups. }
  destruct (a_agent _ _ _ _ _ Hinv 0) as (_ & _ & _ & Hr0 & Hall0);
    [by left|].
  destruct (a_agent _ _ _ _ _ Hinv 1) as (_ & _ & _ & Hr1 & Hall1);
    [by right|].
  change (start_of s0 s1 0) with s0 in *.
  change (start_of s0 s1 1) with s1 in *.
  assert (t ∈ remaining st → ¬ reachable grid s0 t ∧ ¬ reachable grid s1 t)
    as Hrem.
  { intros Hr. split; intros Hreach.
    - pose proof (Hrest t 0 Hr (or_introl eq_refl)) as Hnone.
      apply (astar_None_unreachable _ _ _ Hrect Hsize) in Hnone.
      apply Hnone. eapply reachable_trans; [|done].
      by apply reachable_sym.
    - pose proof (Hrest t 1 Hr (or_intror eq_refl)) as Hnone.
      apply (astar_None_unreachable _ _ _ Hrect Hsize) in Hnone.
      apply Hnone. eapply reachable_trans; [|done].
      by apply reachable_sym. }
  assert (t ∈ (assignments st !!! 0) ++ (assignments st !!! 1) →
          reachable grid s0 t ∨ reachable grid s1 t) as Hasg.
  { intros [?|?]%elem_of_app; [left; by apply Hall0|right; by apply Hall1]. }
  rewrite app_assoc in Hin, Hnd. apply elem_of_app in Hin.
  split; split.
  - done.
  - intros [Hn0 Hn1]. destruct Hin as [Hin|Hin]; [|done].
    destruct (Hasg Hin); done.
  - done.
  - intros Hreach. destruct Hin as [Hin|Hin]; [done|].
    destruct (Hrem Hin) as [Hn0 Hn1]. by destruct Hreach.
Qed.

(** X8: on a rectangular grid of fewer than [1e9] cells, with both
    agents starting on free cells, [assign_tasks] leaves a target
    unassigned exactly when no walk joins it to the start of either
    agent: every target an agent can reach is assigned. *)
Theorem assign_tasks_assigns_reachable (starts dirty : list cell)
    (grid : grid_t) (st : alloc) (s0 s1 : cell) :
  rectangular grid → len grid * len (grid !!! 0%nat) < BIG →
  starts !! 0%nat = Some s0 → starts !! 1%nat = Some s1 →
  is_free grid s0 → is_free grid s1 →
  assign_tasks_state starts dirty grid = Ok st →
  ∀ t, t ∈ dirty →
    (t ∈ remaining st ↔ ¬ reachable grid s0 t ∧ ¬ reachable grid s1 t) ∧
    (t ∈ (assignments st !!! 0) ++ (assignments st !!! 1)
     ↔ reachable grid s0 t ∨ reachable grid s1 t).
Proof. apply alloc_reachable. Qed.

Lemma assign_tasks_assigns_reachable_witness :
  ∃ st, assign_tasks_state [(0, 0); (2, 2)] [(0, 2); (1, 1)] grid3 = Ok st ∧
    ((1, 1) ∈ remaining st
     ↔ ¬ reachable grid3 (0, 0) (1, 1) ∧ ¬ reachable grid3 (2, 2) (1, 1)).
Proof.
  assert (rectangular grid3) as H1 by (vm_compute; exact I).
  assert (len grid3 * len (grid3 !!! 0%nat) < BIG) as H2
    by (vm_compute; reflexivity).
  assert (is_free grid3 (0, 0)) as H3 by (vm_compute; exact I).
  assert (is_free grid3 (2, 2)) as H4 by (vm_compute; exact I).
  destruct (assign_tasks_state [(0, 0); (2, 2)] [(0, 2); (1, 1)] grid3)
    as [st| |] eqn:H; [|exfalso; vm_compute in H; discriminate..].
  exists st. split; [reflexivity|].
  refine (proj1 (assign_tasks_assigns_reachable [(0, 0); (2, 2)]
                   [(0, 2); (1, 1)] grid3 st (0, 0) (2, 2)
                   H1 H2 eq_refl eq_refl H3 H4 H (1, 1) _)).
  right. left.
Defined.

(** ** CoverageSimulator: further properties *)

Lemma agent_tick_fields paths dirty st moved ag st' moved' :
  agent_tick paths dirty (st, moved) ag = Ok (st', moved') →
  moved' = moved || advances paths st ag ∧
  agent_path_idx st'
  = (if advances paths st ag
     then <[ag := (agent_path_idx st !!! ag) + 1]> (agent_path_idx st)
     else agent_path_idx st) ∧
  agent_steps st'
  = (if advances paths st ag
     then <[ag := (agent_steps st !!! ag) + 1]> (agent_steps st)
     else agent_steps st) ∧
  (if advances paths st ag
   then ∃ p, py_index (paths !!! ag) ((agent_path_idx st !!! ag) + 1) = Ok p ∧
             agent_positions st' = <[ag := p]> (agent_positions st)
   else agent_positions st' = agent_positions st) ∧
  history_positions st'
  = <[ag := (history_positions st !!! ag) ++ [agent_positions st' !!! ag]]>
      (history_positions st).
Proof.
  unfold agent_tick, advances.
  destruct (_ <? _).
  - destruct (py_index _ _) as [p| |]; cbn [res_bind]; [|done..].
    match goal with
    | |- context [bool_decide ?P] => destruct (bool_decide P)
    end; intros [= <- <-];
      cbn [cleaned agent_positions agent_steps agent_path_idx
           history_positions];
      rewrite orb_true_r; split_and!; try done; by exists p.
  - cbn [res_bind].
    match goal with
    | |- context [bool_decide ?P] => destruct (bool_decide P)
    end; intros [= <- <-];
      cbn [cleaned agent_positions agent_steps agent_path_idx
           history_positions];
      rewrite orb_false_r; by split_and!.
Qed.

Lemma agent_tick_other paths dirty st moved ag st' moved' ag' :
  agent_tick paths dirty (st, moved) ag = Ok (st', moved') → ag' ≠ ag →
  agent_path_idx st' !!! ag' = agent_path_idx st !!! ag' ∧
  agent_steps st' !!! ag' = agent_steps st !!! ag' ∧
  agent_positions st' !!! ag' = agent_positions st !!! ag' ∧
  history_positions st' !!! ag' = history_positions st !!! ag'.
Proof.
  intros (_ & -> & -> & Hpos & ->)%agent_tick_fields Hne.
  rewrite lookup_total_insert_ne by done.
  destruct (advances paths st ag).
  - destruct Hpos as (p & _ & ->).
    by rewrite !lookup_total_insert_ne by done.
  - by rewrite Hpos.
Qed.

Lemma agent_tick_agent_inv_other paths dirty st moved ag st' moved' s ag' :
  agent_tick paths dirty (st, moved) ag = Ok (st', moved') → ag' ≠ ag →
  agent_inv paths s ag' st → agent_inv paths s ag' st'.
Proof.
  intros Ht Hne [H1 H2 H3 H4 H5].
  destruct (agent_tick_other _ _ _ _ _ _ _ ag' Ht Hne) as (Ei & Es & Ep & Eh).
  split; unfold advances in *; rewrite ?Ei, ?Es, ?Ep, ?Eh; done.
Qed.

Lemma route_pos_next (r : list cell) s (idx : Z) p :
  0 ≤ idx → py_index r (idx + 1) = Ok p → route_pos r s (idx + 1) = p.
Proof.
  intros Hi Hp%py_index_Ok; [|lia]. unfold route_pos.
  destruct (Z.eqb_spec (idx + 1) 0); [lia|]. by rewrite Hp.
Qed.

Lemma agent_tick_agent_inv paths dirty st moved ag st' moved' s :
  agent_tick paths dirty (st, moved) ag = Ok (st', moved') →
  agent_inv paths s ag st → agent_inv paths s ag st'.
Proof.
  intros (_ & Ei & Es & Hpos & Eh)%agent_tick_fields [H1 H2 H3 H4 [m [H5 H6]]].
  unfold advances in *.
  destruct (Z.ltb_spec ((agent_path_idx st !!! ag) + 1) (len (paths !!! ag)))
    as [Hlt|Hge].
  - destruct Hpos as (p & Hp & Ep).
    assert (m = 0%nat) as -> by (destruct m; [done|]; by discriminate H6).
    assert (agent_positions st' !!! ag = p) as Epos
      by (by rewrite Ep, lookup_total_insert_eq).
    split; rewrite ?Ei, ?Es, ?Eh, ?lookup_total_insert_eq, ?Epos.
    + lia.
    + right. lia.
    + lia.
    + by rewrite (route_pos_next _ _ _ p).
    + exists 0%nat. split; [|done]. rewrite H5. simpl. rewrite !app_nil_r.
      apply py_index_Ok in Hp; [|lia].
      replace (Z.to_nat ((agent_path_idx st !!! ag) + 1))
        with (S (Z.to_nat (agent_path_idx st !!! ag))) in * by lia.
      symmetry. apply take_S_r. by rewrite lookup_tail.
  - assert (agent_positions st' !!! ag = agent_positions st !!! ag) as Epos
      by (by rewrite Hpos).
    split; rewrite ?Ei, ?Es, ?Eh, ?lookup_total_insert_eq, ?Epos; try done.
    exists (S m). split.
    + by rewrite H5, replicate_S_end, app_assoc.
    + intros _. unfold advances. rewrite Ei. by apply Z.ltb_ge.
Qed.

Lemma agent_tick_cleaned_inv paths dirty st moved ag st' moved' :
  agent_tick paths dirty (st, moved) ag = Ok (st', moved') →
  ag = 0 ∨ ag = 1 →
  cleaned_inv dirty st → cleaned_inv dirty st'.
Proof.
  intros Ht Hag Hinv c.
  pose proof (agent_tick_cleaned _ _ _ _ _ _ _ Ht) as Hc.
  pose proof (agent_tick_fields _ _ _ _ _ _ _ Ht) as (_ & _ & _ & _ & Eh).
  assert (∀ ag', ag' ≠ ag →
            history_positions st' !!! ag' = history_positions st !!! ag')
    as Hother.
  { intros ag' Hne. by rewrite Eh, lookup_total_insert_ne. }
  assert (history_positions st' !!! ag
          = (history_positions st !!! ag) ++ [agent_positions st' !!! ag])
    as Hself by (by rewrite Eh, lookup_total_insert_eq).
  rewrite Hc. specialize (Hinv c).
  destruct Hag as [-> | ->].
  - rewrite Hself, (Hother 1) by done. rewrite elem_of_app, list_elem_of_singleton.
    case_bool_decide as Hd.
    + rewrite elem_of_union, elem_of_singleton, Hinv.
      assert (c = agent_positions st' !!! 0 → c ∈ dirty) by (by intros ->).
      tauto.
    + rewrite Hinv.
      assert (c = agent_positions st' !!! 0 → c ∉ dirty) by (by intros ->).
      tauto.
  - rewrite Hself, (Hother 0) by done. rewrite elem_of_app, list_elem_of_singleton.
    case_bool_decide as Hd.
    + rewrite elem_of_union, elem_of_singleton, Hinv.
      assert (c = agent_positions st' !!! 1 → c ∈ dirty) by (by intros ->).
      tauto.
    + rewrite Hinv.
      assert (c = agent_positions st' !!! 1 → c ∉ dirty) by (by intros ->).
      tauto.
Qed.

Lemma tick_invariants paths dirty s0 s1 st st' moved :
  tick paths dirty st = Ok (st', moved) →
  agent_inv paths s0 0 st ∧ agent_inv paths s1 1 st ∧ cleaned_inv dirty st →
  agent_inv paths s0 0 st' ∧ agent_inv paths s1 1 st' ∧ cleaned_inv dirty st'.
Proof.
  unfold tick. cbn [for_each].
  destruct (agent_tick paths dirty (st, false) 0) as [[st1 m1]| |] eqn:H0;
    cbn [res_bind]; [|done..].
  destruct (agent_tick paths dirty (st1, m1) 1) as [[st2 m2]| |] eqn:H1;
    cbn [res_bind]; [|done..].
  intros [= <- <-] (Ha0 & Ha1 & Hc). split_and!.
  - eapply agent_tick_agent_inv_other; [done..|].
    by eapply agent_tick_agent_inv.
  - eapply agent_tick_agent_inv; [done|].
    by eapply agent_tick_agent_inv_other.
  - eapply agent_tick_cleaned_inv; [done|by right|].
    eapply agent_tick_cleaned_inv; [done|by left|done].
Qed.

Lemma run_ticks_invariants paths dirty s0 s1 (k : nat) :
  ∀ st b st' b', run_ticks paths dirty k (st, b) = Ok (st', b') →
  agent_inv paths s0 0 st ∧ agent_inv paths s1 1 st ∧ cleaned_inv dirty st →
  agent_inv paths s0 0 st' ∧ agent_inv paths s1 1 st' ∧ cleaned_inv dirty st'.
Proof.
  induction k as [|k IH]; intros st b st' b'; cbn [run_ticks fst].
  - by intros [= <- <-].
  - destruct (tick paths dirty st) as [[st1 m1]| |] eqn:Ht;
      cbn [res_bind]; [|done..].
    intros Hrun Hinv. eapply IH; [done|]. by eapply tick_invariants.
Qed.

Lemma sim_init_invariants paths dirty s0 s1 :
  agent_inv paths s0 0 (sim_init s0 s1) ∧
  agent_inv paths s1 1 (sim_init s0 s1) ∧
  cleaned_inv dirty (sim_init s0 s1).
Proof.
  split_and!.
  - split; [done|by left|done|done|]. exists 0%nat. by split.
  - split; [done|by left|done|done|]. exists 0%nat. by split.
  - intros c. split; [by intros ?%not_elem_of_empty|].
    intros [_ [Hc|Hc]]; by inversion Hc.
Qed.

Lemma tick_history_length paths dirty st st' moved ag :
  tick paths dirty st = Ok (st', moved) → ag = 0 ∨ ag = 1 →
  length (history_positions st' !!! ag)
  = S (length (history_positions st !!! ag)).
Proof.
  unfold tick. cbn [for_each].
  destruct (agent_tick paths dirty (st, false) 0) as [[st1 m1]| |] eqn:H0;
    cbn [res_bind]; [|done..].
  destruct (agent_tick paths dirty (st1, m1) 1) as [[st2 m2]| |] eqn:H1;
    cbn [res_bind]; [|done..].
  intros [= <- <-] Hag.
  pose proof (agent_tick_fields _ _ _ _ _ _ _ H0) as (_ & _ & _ & _ & E0).
  pose proof (agent_tick_fields _ _ _ _ _ _ _ H1) as (_ & _ & _ & _ & E1).
  rewrite E1, E0. destruct Hag as [-> | ->].
  - rewrite lookup_total_insert_ne, lookup_total_insert_eq by done.
    rewrite length_app. simpl. lia.
  - rewrite lookup_total_insert_eq, lookup_total_insert_ne by done.
    rewrite length_app. simpl. lia.
Qed.

Lemma run_ticks_history_length paths dirty (k : nat) ag :
  ag = 0 ∨ ag = 1 →
  ∀ st b st' b', run_ticks paths dirty k (st, b) = Ok (st', b') →
  length (history_positions st' !!! ag)
  = (length (history_positions st !!! ag) + k)%nat.
Proof.
  intros Hag. induction k as [|k IH]; intros st b st' b'; cbn [run_ticks fst].
  - intros [= <- <-]. lia.
  - destruct (tick paths dirty st) as [[st1 m1]| |] eqn:Ht;
      cbn [res_bind]; [|done..].
    intros Hrun. rewrite (IH _ _ _ _ Hrun).
    rewrite (tick_history_length _ _ _ _ _ _ Ht Hag). lia.
Qed.

(** The run of the simulation from its initial state. *)
Lemma simulate_run paths dirty s0 s1 :
  ∃ st,
    simulate [s0; s1] paths dirty = Ok st ∧
    run_ticks paths dirty
      (Z.to_nat (Z.max 1 (Z.max (len (paths !!! 0)) (len (paths !!! 1)))))
      (sim_init s0 s1, true) = Ok (st, false) ∧
    ∀ ag, ag = 0 ∨ ag = 1 →
      agent_path_idx st !!! ag = Z.max 0 (len (paths !!! ag) - 1).
Proof.
  remember (Z.max (len (paths !!! 0)) (len (paths !!! 1))) as L eqn:HL.
  assert (agent_path_idx (sim_init s0 s1) !!! 0 = 0) as Hi0 by done.
  assert (agent_path_idx (sim_init s0 s1) !!! 1 = 0) as Hi1 by done.
  assert (∀ j : nat, ∃ stj,
            run_ticks paths dirty j (sim_init s0 s1, true)
            = Ok (stj, match j with
                       | O => true
                       | S _ => (Z.of_nat j <? len (paths !!! 0))
                                || (Z.of_nat j <? len (paths !!! 1))
                       end) ∧
            ∀ ag, ag = 0 ∨ ag = 1 →
              agent_path_idx stj !!! ag
              = Z.min (Z.of_nat j) (Z.max 0 (len (paths !!! ag) - 1)))
    as Hticks.
  { intros j.
    destruct (run_ticks_spec paths dirty j (sim_init s0 s1) true)
      as (stj & bj & Hrun & Hidx & Hb); [by rewrite Hi0|by rewrite Hi1|].
    exists stj. split.
    - rewrite Hrun, Hb, Hi0, Hi1. by destruct j.
    - intros ag Hag. destruct (Hidx ag Hag) as [-> _].
      by destruct Hag as [-> | ->]; rewrite ?Hi0, ?Hi1. }
  destruct (Hticks (Z.to_nat (Z.max 1 L))) as (st & Hst & Hidx).
  assert (run_ticks paths dirty (Z.to_nat (Z.max 1 L)) (sim_init s0 s1, true)
          = Ok (st, false)) as Hlast.
  { rewrite Hst. destruct (Z.to_nat (Z.max 1 L)) as [|T] eqn:HT; [lia|].
    rewrite <-HT.
    destruct (Z.ltb_spec (Z.of_nat (Z.to_nat (Z.max 1 L))) (len (paths !!! 0)));
      [lia|].
    destruct (Z.ltb_spec (Z.of_nat (Z.to_nat (Z.max 1 L))) (len (paths !!! 1)));
      [lia|done]. }
  exists st. split_and!; [|done|].
  - change (simulate [s0; s1] paths dirty)
      with (sim_loop paths dirty (Z.to_nat (max_steps paths)) (sim_init s0 s1)).
    apply (sim_loop_break paths dirty (Z.to_nat (Z.max 1 L))); [|done|].
    + unfold max_steps, len in *. lia.
    + intros j Hj. destruct (Hticks j) as (stj & Hstj & _). exists stj.
      rewrite Hstj. destruct j as [|j]; [done|]. do 2 f_equal.
      apply orb_true_iff. rewrite !Z.ltb_lt. lia.
  - intros ag Hag. rewrite (Hidx ag Hag).
    destruct Hag as [-> | ->]; unfold len in *; lia.
Qed.

Lemma route_pos_last (r : list cell) (s : cell) :
  route_pos r s (Z.max 0 (len r - 1))
  = if len r <=? 1 then s else default s (last r).
Proof.
  unfold route_pos, len.
  destruct (Z.leb_spec (Z.of_nat (length r)) 1) as [Hle|Hgt].
  - by replace (Z.max 0 (Z.of_nat (length r) - 1)) with 0 by lia.
  - destruct (Z.eqb_spec (Z.max 0 (Z.of_nat (length r) - 1)) 0); [lia|].
    rewrite last_lookup. do 2 f_equal. lia.
Qed.

Lemma simulate_end (paths : gmap Z (list cell))
    (dirty : list cell) (s0 s1 : cell) :
  ∃ st, simulate [s0; s1] paths dirty = Ok st ∧
    total_steps st
    = Z.max 0 (len (paths !!! 0) - 1) + Z.max 0 (len (paths !!! 1) - 1) ∧
    ∀ ag s, ag = 0 ∧ s = s0 ∨ ag = 1 ∧ s = s1 →
      agent_path_idx st !!! ag = Z.max 0 (len (paths !!! ag) - 1) ∧
      agent_steps st !!! ag = Z.max 0 (len (paths !!! ag) - 1) ∧
      agent_positions st !!! ag
      = (if len (paths !!! ag) <=? 1 then s
         else default s (last (paths !!! ag))) ∧
      ∃ m : nat,
        history_positions st !!! ag
        = tail (paths !!! ag) ++ replicate (S m) (agent_positions st !!! ag) ∧
        len (history_positions st !!! ag)
        = Z.max 1 (Z.max (len (paths !!! 0)) (len (paths !!! 1))).
Proof.
  destruct (simulate_run paths dirty s0 s1) as (st & Hsim & Hrun & Hidx).
  destruct (run_ticks_invariants paths dirty s0 s1 _ _ _ _ _ Hrun
              (sim_init_invariants paths dirty s0 s1)) as (Ha0 & Ha1 & _).
  assert (∀ ag s, ag = 0 ∧ s = s0 ∨ ag = 1 ∧ s = s1 →
            agent_inv paths s ag st) as Hinv.
  { by intros ag s [[-> ->]|[-> ->]]. }
  assert (∀ ag s, ag = 0 ∧ s = s0 ∨ ag = 1 ∧ s = s1 → ag = 0 ∨ ag = 1)
    as H01 by (intros ag s [[-> _]|[-> _]]; auto).
  exists st. split; [done|]. split.
  - unfold total_steps.
    rewrite (ai_steps _ _ _ _ Ha0), (ai_steps _ _ _ _ Ha1).
    by rewrite (Hidx 0), (Hidx 1) by auto.
  - intros ag s Hag. pose proof (Hinv ag s Hag) as [H1 H2 H3 H4 [m [H5 H6]]].
    pose proof (Hidx ag (H01 _ _ Hag)) as Hi.
    pose proof (run_ticks_history_length paths dirty _ ag (H01 _ _ Hag)
                  _ _ _ _ Hrun) as Hlen.
    change (length (history_positions (sim_init s0 s1) !!! ag))
      with (length (history_positions (sim_init s0 s1) !!! ag)) in Hlen.
    assert (history_positions (sim_init s0 s1) !!! ag = []) as Hnil.
    { by destruct (H01 _ _ Hag) as [-> | ->]. }
    rewrite Hnil in Hlen. simpl in Hlen.
    rewrite H3, H4, Hi, route_pos_last. split_and!; [done..|].
    assert (take (Z.to_nat (Z.max 0 (len (paths !!! ag) - 1)))
              (tail (paths !!! ag)) = tail (paths !!! ag)) as Htake.
    { apply take_ge. destruct (paths !!! ag); unfold len; simpl; lia. }
    rewrite Hi, Htake in H5.
    assert (length (tail (paths !!! ag))
            = Z.to_nat (Z.max 0 (len (paths !!! ag) - 1))) as Htl.
    { destruct (paths !!! ag); unfold len; simpl; lia. }
    pose proof (f_equal length H5) as Hl5.
    rewrite length_app, length_replicate, Hlen, Htl in Hl5.
    destruct m as [|m].
    { exfalso. destruct (H01 _ _ Hag) as [-> | ->]; unfold len in *; lia. }
    exists m. rewrite H4, Hi, route_pos_last in H5. split; [done|].
    unfold len at 1. rewrite Hlen. lia.
Qed.

(** X9: when the simulation ends every agent has walked its whole route:
    for a route of [n >= 1] cells its index and its step count are
    [n - 1], it stands on the last cell of the route (on its start when
    the route has at most one cell), and its history is the route
    without its first cell followed by the ticks, at least one, in which
    it stood still; the loop ran [max 1 (max (len route))] ticks. *)
Theorem simulate_final_state (paths : gmap Z (list cell))
    (dirty : list cell) (s0 s1 : cell) :
  ∃ st, simulate [s0; s1] paths dirty = Ok st ∧
    total_steps st
    = Z.max 0 (len (paths !!! 0) - 1) + Z.max 0 (len (paths !!! 1) - 1) ∧
    ∀ ag s, ag = 0 ∧ s = s0 ∨ ag = 1 ∧ s = s1 →
      agent_path_idx st !!! ag = Z.max 0 (len (paths !!! ag) - 1) ∧
      agent_steps st !!! ag = Z.max 0 (len (paths !!! ag) - 1) ∧
      agent_positions st !!! ag
      = (if len (paths !!! ag) <=? 1 then s
         else default s (last (paths !!! ag))) ∧
      ∃ m : nat,
        history_positions st !!! ag
        = tail (paths !!! ag) ++ replicate (S m) (agent_positions st !!! ag) ∧
        len (history_positions st !!! ag)
        = Z.max 1 (Z.max (len (paths !!! 0)) (len (paths !!! 1))).
Proof. apply simulate_end. Qed.

Lemma elem_of_final_history (r : list cell) (s c : cell) (m : nat) :
  c ∈ tail r ++ replicate (S m)
                  (if len r <=? 1 then s else default s (last r))
  ↔ c ∈ tail r ∨ (len r ≤ 1 ∧ c = s).
Proof.
  rewrite elem_of_app, elem_of_replicate. unfold len.
  destruct (Z.leb_spec (Z.of_nat (length r)) 1) as [Hle|Hgt].
  - split; [intros [?|[-> _]]|intros [?|[_ ->]]]; auto.
  - split; [|intros [?|[? _]]; [by left|lia]].
    intros [?|[-> _]]; [by left|]. left.
    destruct r as [|x [|y q]]; simpl in Hgt; [lia..|].
    rewrite last_cons_cons. cbn [tail].
    destruct (last (y :: q)) as [z|] eqn:Hl; simpl.
    + by apply last_Some_elem_of.
    + by apply last_None in Hl.
Qed.

Lemma simulate_end_cleaned (paths : gmap Z (list cell)) (dirty : list cell)
    (s0 s1 : cell) :
  ∃ st, simulate [s0; s1] paths dirty = Ok st ∧
    ∀ c, c ∈ cleaned st ↔
      c ∈ dirty ∧
      ((c ∈ tail (paths !!! 0) ∨ (len (paths !!! 0) ≤ 1 ∧ c = s0)) ∨
       (c ∈ tail (paths !!! 1) ∨ (len (paths !!! 1) ≤ 1 ∧ c = s1))).
Proof.
  destruct (simulate_run paths dirty s0 s1) as (st & Hsim & Hrun & _).
  destruct (run_ticks_invariants paths dirty s0 s1 _ _ _ _ _ Hrun
              (sim_init_invariants paths dirty s0 s1)) as (_ & _ & Hc).
  destruct (simulate_end paths dirty s0 s1)
    as (st' & Hsim' & _ & Hfin).
  assert (st' = st) as -> by congruence.
  exists st. split; [done|]. intros c. rewrite (Hc c).
  destruct (Hfin 0 s0) as (_ & _ & Hp0 & m0 & Hh0 & _); [by left|].
  destruct (Hfin 1 s1) as (_ & _ & Hp1 & m1 & Hh1 & _); [by right|].
  rewrite Hp0 in Hh0. rewrite Hp1 in Hh1. rewrite Hh0, Hh1.
  by rewrite !elem_of_final_history.
Qed.

(** X10: the cells the simulation ends with as cleaned are the dirty
    cells on the routes after their first cell, and the start of an agent
    whose route has at most one cell when that start is dirty.  The first
    cell of a longer route is never tested. *)
Theorem simulate_cleaned (paths : gmap Z (list cell)) (dirty : list cell)
    (s0 s1 : cell) :
  ∃ st, simulate [s0; s1] paths dirty = Ok st ∧
    ∀ c, c ∈ cleaned st ↔
      c ∈ dirty ∧
      ((c ∈ tail (paths !!! 0) ∨ (len (paths !!! 0) ≤ 1 ∧ c = s0)) ∨
       (c ∈ tail (paths !!! 1) ∨ (len (paths !!! 1) ≤ 1 ∧ c = s1))).
Proof. apply simulate_end_cleaned. Qed.

Lemma size_list_to_set_le (l : list cell) :
  (size (list_to_set l : gset cell) ≤ length l)%nat.
Proof.
  induction l as [|x l IH].
  - by rewrite list_to_set_nil, size_empty.
  - rewrite list_to_set_cons, size_union_alt, size_singleton.
    assert (size (list_to_set l ∖ {[x]} : gset cell)
            ≤ size (list_to_set l : gset cell))%nat as Hd.
    { apply subseteq_size. intros c Hc. apply elem_of_difference in Hc.
      tauto. }
    simpl. lia.
Qed.

Lemma simulate_end_size (paths : gmap Z (list cell))
    (dirty : list cell) (s0 s1 : cell) :
  (len (paths !!! 0) ≤ 1 → s0 ∉ dirty) →
  (len (paths !!! 1) ≤ 1 → s1 ∉ dirty) →
  ∃ st, simulate [s0; s1] paths dirty = Ok st ∧
    Z.of_nat (size (cleaned st)) ≤ total_steps st ∧
    ∀ q, efficiency st = Ok q → (0 <= q)%Q ∧ (q <= 1)%Q.
Proof.
  intros Hs0 Hs1.
  destruct (simulate_end_cleaned paths dirty s0 s1) as (st & Hsim & Hcl).
  destruct (simulate_end paths dirty s0 s1)
    as (st' & Hsim' & Htot & _).
  assert (st' = st) as -> by congruence.
  assert (Z.of_nat (size (cleaned st)) ≤ total_steps st) as Hle.
  { assert (cleaned st
            ⊆ list_to_set (tail (paths !!! 0) ++ tail (paths !!! 1))) as Hsub.
    { intros c [Hd Hc]%Hcl. apply elem_of_list_to_set, elem_of_app.
      destruct Hc as [[?|[Hl ->]]|[?|[Hl ->]]]; auto.
      - by destruct (Hs0 Hl).
      - by destruct (Hs1 Hl). }
    apply subseteq_size in Hsub.
    pose proof (size_list_to_set_le
                  (tail (paths !!! 0) ++ tail (paths !!! 1))) as Hsz.
    rewrite length_app in Hsz. rewrite Htot.
    assert (∀ r : list cell,
              Z.of_nat (length (tail r)) = Z.max 0 (len r - 1)) as Htl.
    { intros [|x r]; unfold len; simpl; lia. }
    rewrite <-!Htl. lia. }
  exists st. split_and!; [done..|].
  intros q. unfold efficiency.
  destruct (Z.eqb_spec (total_steps st) 0) as [|Hne]; [done|].
  intros [= <-]. unfold Qle. simpl. lia.
Qed.

(** X11: when no agent with a route of at most one cell starts on a dirty
    cell, the simulation cleans at most as many cells as the agents make
    moves, so the efficiency the script prints lies between 0 and 1. *)
Theorem simulate_efficiency_le_1 (paths : gmap Z (list cell))
    (dirty : list cell) (s0 s1 : cell) :
  (len (paths !!! 0) ≤ 1 → s0 ∉ dirty) →
  (len (paths !!! 1) ≤ 1 → s1 ∉ dirty) →
  ∃ st, simulate [s0; s1] paths dirty = Ok st ∧
    Z.of_nat (size (cleaned st)) ≤ total_steps st ∧
    ∀ q, efficiency st = Ok q → (0 <= q)%Q ∧ (q <= 1)%Q.
Proof. apply simulate_end_size. Qed.

Lemma simulate_efficiency_le_1_witness :
  ∃ st, simulate [(0, 0); (2, 2)]
          (<[0 := [(0, 0); (0, 1)]]> (<[1 := [(2, 2)]]> ∅))
          [(0, 1); (0, 0)] = Ok st ∧
    Z.of_nat (size (cleaned st)) ≤ total_steps st ∧
    ∀ q, efficiency st = Ok q → (0 <= q)%Q ∧ (q <= 1)%Q.
Proof.
  apply (simulate_efficiency_le_1
           (<[0 := [(0, 0); (0, 1)]]> (<[1 := [(2, 2)]]> ∅))
           [(0, 1); (0, 0)] (0, 0) (2, 2)).
  - vm_compute. intros H. by destruct (H eq_refl).
  - intros _. vm_compute. intros H. inversion H as [|? ? ? H1]; subst.
    inversion H1 as [|? ? ? H2]; subst. inversion H2.
Defined.

(** ** The set-up of the script *)

Lemma py_setitem_in_range {A} (l : list A) (i : Z) (v : A) :
  0 ≤ i < len l → py_setitem l i v = Ok (<[Z.to_nat i := v]> l).
Proof.
  intros Hi. unfold py_setitem, len in *.
  destruct (Z.ltb_spec i 0); [lia|].
  destruct (Z.leb_spec 0 i); [|lia].
  by destruct (Z.ltb_spec i (Z.of_nat (length l))); [|lia].
Qed.

Lemma forallb_length_shape (n : nat) (g : grid_t) :
  ∀ g' : grid_t, map length g' = map length g →
  forallb (λ row, length row =? n)%nat g'
  = forallb (λ row, length row =? n)%nat g.
Proof.
  induction g as [|r g IH]; intros [|r' g'] Hs; try done.
  injection Hs as Hr Hs. simpl. rewrite Hr. f_equal. by apply IH.
Qed.

Lemma shape_dims (g g' : grid_t) :
  map length g' = map length g →
  length g' = length g ∧ length (g' !!! 0%nat) = length (g !!! 0%nat) ∧
  rectangular g' = rectangular g.
Proof.
  intros Hs. split_and!.
  - by rewrite <-(length_map length g'), Hs, length_map.
  - destruct g as [|r g], g' as [|r' g']; try done. by injection Hs.
  - destruct g as [|r g], g' as [|r' g']; try done. unfold rectangular.
    injection Hs as Hr Hs'. rewrite Hr. apply forallb_length_shape.
    simpl. by rewrite Hr, Hs'.
Qed.

Lemma shape_in_bounds (g g' : grid_t) c :
  map length g' = map length g → in_bounds g' c = in_bounds g c.
Proof.
  intros (Hl & Hw & _)%shape_dims. unfold in_bounds, len.
  by rewrite Hl, Hw.
Qed.

Lemma is_free_spec grid c :
  is_free grid c ↔ in_bounds grid c ∧ cell_at grid c = Some 0.
Proof. unfold is_free. by rewrite andb_True, bool_decide_spec. Qed.

Lemma clear_cell_spec grid s :
  rectangular grid → in_bounds grid s →
  ∃ g, clear_cell grid s = Ok g ∧ map length g = map length grid ∧
       cell_at g s = Some 0 ∧
       ∀ c, 0 ≤ c.1 → 0 ≤ c.2 → c ≠ s → cell_at g c = cell_at grid c.
Proof.
  intros Hrect [Hr Hc]%in_bounds_spec. unfold len in *.
  destruct (lookup_lt_is_Some_2 grid (Z.to_nat s.1)) as [row Hrow]; [lia|].
  pose proof (rectangular_row _ _ _ Hrect Hrow) as Hlen.
  exists (<[Z.to_nat s.1 := <[Z.to_nat s.2 := 0]> row]> grid).
  split_and!.
  - unfold clear_cell. rewrite (py_index_lookup grid s.1 row) by (done || lia).
    cbn [res_bind]. rewrite py_setitem_in_range by (unfold len; lia).
    cbn [res_bind]. by rewrite py_setitem_in_range by (unfold len; lia).
  - rewrite list_fmap_insert, length_insert. apply list_insert_id.
    by rewrite list_lookup_fmap, Hrow.
  - unfold cell_at. rewrite list_lookup_insert_eq by lia.
    by rewrite list_lookup_insert_eq by lia.
  - intros c H1 H2 Hne. unfold cell_at.
    destruct (decide (Z.to_nat c.1 = Z.to_nat s.1)) as [E1|N1].
    + rewrite E1, list_lookup_insert_eq, Hrow by lia.
      rewrite list_lookup_insert_ne; [done|]. intros E2.
      apply Hne. destruct c, s. simpl in *. f_equal; lia.
    + by rewrite list_lookup_insert_ne.
Qed.

Lemma clear_starts_ok (starts : list cell) :
  ∀ grid, rectangular grid → (∀ s, s ∈ starts → in_bounds grid s) →
  ∃ g, clear_starts grid starts = Ok g ∧ map length g = map length grid ∧
       (∀ c, is_free g c ↔ is_free grid c ∨ c ∈ starts) ∧
       ∀ c, 0 ≤ c.1 → 0 ≤ c.2 → c ∉ starts → cell_at g c = cell_at grid c.
Proof.
  induction starts as [|s ss IH]; intros grid Hrect Hin.
  - exists grid. split_and!; [done..| |done].
    intros c. split; [by left|]. intros [?|H]; [done|].
    by apply elem_of_nil in H.
  - destruct (clear_cell_spec grid s Hrect) as (g1 & Hg1 & Hs1 & Hz & Hoth).
    { apply Hin. left. }
    pose proof (shape_dims _ _ Hs1) as (_ & _ & Hr1).
    destruct (IH g1) as (g & Hg & Hs & Hfree & Hcell).
    { by rewrite Hr1. }
    { intros s' Hs'. rewrite (shape_in_bounds grid g1) by done.
      apply Hin. by right. }
    exists g. split_and!.
    + unfold clear_starts. cbn [for_each]. rewrite Hg1. cbn [res_bind].
      exact Hg.
    + by rewrite Hs.
    + intros c. rewrite (Hfree c), elem_of_cons, !is_free_spec.
      rewrite (shape_in_bounds grid g1) by done.
      destruct (decide (c = s)) as [->|Hne].
      * rewrite Hz. assert (in_bounds grid s) by (apply Hin; left). tauto.
      * assert (in_bounds grid c → cell_at g1 c = cell_at grid c) as Heq.
        { intros [? ?]%in_bounds_spec. apply Hoth; [lia..|done]. }
        split.
        -- intros [[Hb Hc]|?]; [|tauto]. rewrite (Heq Hb) in Hc. tauto.
        -- intros [[Hb Hc]|[?|?]]; [|done|tauto]. rewrite <-(Heq Hb) in Hc.
           tauto.
    + intros c H1 H2 [Hne Hnin]%not_elem_of_cons.
      rewrite (Hcell c H1 H2 Hnin). by apply Hoth.
Qed.

(** X13: on a rectangular grid with the starts in bounds, clearing the
    starts raises nothing and keeps the shape of the grid; afterwards a
    cell is free exactly when it was free or is a start, and every other
    cell holds what it held. *)
Theorem clear_starts_spec (grid : grid_t) (starts : list cell) :
  rectangular grid → (∀ s, s ∈ starts → in_bounds grid s) →
  ∃ g, clear_starts grid starts = Ok g ∧
       rectangular g ∧ len g = len grid ∧
       len (g !!! 0%nat) = len (grid !!! 0%nat) ∧
       (∀ c, is_free g c ↔ is_free grid c ∨ c ∈ starts) ∧
       ∀ c, 0 ≤ c.1 → 0 ≤ c.2 → c ∉ starts → cell_at g c = cell_at grid c.
Proof.
  intros Hrect Hin.
  destruct (clear_starts_ok starts grid Hrect Hin)
    as (g & Hg & Hs & Hfree & Hcell).
  pose proof (shape_dims _ _ Hs) as (Hl & Hw & Hr).
  exists g. unfold len. rewrite Hr, Hl, Hw. done.
Qed.

Lemma clear_starts_spec_witness :
  ∃ g, clear_starts [[1; 0; 0]; [0; 1; 0]; [0; 0; 1]] [(0, 0); (2, 2)]
       = Ok g ∧ is_free g (0, 0) ∧ is_free g (2, 2) ∧ ¬ is_free g (1, 1).
Proof.
  destruct (clear_starts_spec [[1; 0; 0]; [0; 1; 0]; [0; 0; 1]]
              [(0, 0); (2, 2)]) as (g & Hg & _ & _ & _ & Hfree & _).
  - vm_compute. exact I.
  - intros s Hs. apply elem_of_cons in Hs as [->|Hs]; [vm_compute; exact I|].
    apply elem_of_cons in Hs as [->|Hs]; [vm_compute; exact I|].
    by apply elem_of_nil in Hs.
  - exists g. split; [exact Hg|]. split_and!.
    + apply Hfree. right. left.
    + apply Hfree. right. right. left.
    + intros [H|H]%Hfree; [exact H|].
      apply elem_of_cons in H as [H|H]; [discriminate H|].
      apply elem_of_cons in H as [H|H]; [discriminate H|].
      by apply elem_of_nil in H.
Defined.

Lemma free_cell_row grid starts r (cs : list Z) :
  rectangular grid → 0 ≤ r < len grid →
  (∀ c, c ∈ cs → 0 ≤ c < len (grid !!! 0%nat)) →
  ∀ acc, for_each (free_cell_step grid starts r) acc cs
         = Ok (acc ++ filter (kept grid starts) (map (pair r) cs)).
Proof.
  intros Hrect Hr. unfold len in Hr.
  destruct (lookup_lt_is_Some_2 grid (Z.to_nat r)) as [row Hrow]; [lia|].
  pose proof (rectangular_row _ _ _ Hrect Hrow) as Hlen.
  induction cs as [|c cs IH]; intros Hcs acc.
  { by rewrite app_nil_r. }
  assert (0 ≤ c < len (grid !!! 0%nat)) as Hc by (apply Hcs; left).
  unfold len in Hc.
  destruct (lookup_lt_is_Some_2 row (Z.to_nat c)) as [v Hv]; [lia|].
  cbn [for_each map]. unfold free_cell_step at 1.
  rewrite (py_index_lookup grid r row) by (done || lia). cbn [res_bind].
  rewrite (py_index_lookup row c v) by (done || lia). cbn [res_bind].
  assert (kept grid starts (r, c)
          = (v =? 0) && negb (bool_decide ((r, c) ∈ starts))) as Hk.
  { unfold kept. f_equal. unfold is_free, cell_at. cbn [fst snd].
    rewrite Hrow, Hv.
    assert (in_bounds grid (r, c) = true) as ->.
    { apply Is_true_true, in_bounds_spec. unfold len. simpl. lia. }
    simpl. destruct (Z.eqb_spec v 0) as [->|Hne].
    - by rewrite bool_decide_eq_true_2.
    - rewrite bool_decide_eq_false_2; [done|]. by intros [= ?]. }
  rewrite filter_cons. rewrite <-Hk.
  destruct (kept grid starts (r, c)) eqn:Hkept.
  - cbn [res_bind].
    rewrite decide_True by done.
    rewrite IH by (intros; apply Hcs; by right).
    by rewrite <-app_assoc.
  - cbn [res_bind]. rewrite decide_False by (intros []).
    apply IH. intros. apply Hcs. by right.
Qed.

Lemma free_cell_rows grid starts (rs : list Z) :
  rectangular grid → (∀ r, r ∈ rs → 0 ≤ r < len grid) →
  ∀ acc,
    for_each
      (λ acc r, for_each (free_cell_step grid starts r) acc
                  (seqZ 0 (len (grid !!! 0%nat))))
      acc rs
    = Ok (acc ++ filter (kept grid starts)
                   (list_prod rs (seqZ 0 (len (grid !!! 0%nat))))).
Proof.
  intros Hrect. induction rs as [|r rs IH]; intros Hrs acc.
  { by rewrite app_nil_r. }
  cbn [for_each list_prod].
  rewrite (free_cell_row grid starts r); [|done|apply Hrs; left|].
  - cbn [res_bind]. rewrite IH by (intros; apply Hrs; by right).
    by rewrite filter_app, app_assoc.
  - intros c Hc%elem_of_seqZ. lia.
Qed.

Lemma free_cells_filter grid starts :
  rectangular grid →
  free_cells (len grid) (len (grid !!! 0%nat)) grid starts
  = Ok (filter (kept grid starts)
          (all_cells (len grid) (len (grid !!! 0%nat)))).
Proof.
  intros Hrect. unfold free_cells.
  rewrite (free_cell_rows grid starts); [done..|].
  intros r Hr%elem_of_seqZ. lia.
Qed.

Lemma NoDup_list_prod {A B} (l1 : list A) (l2 : list B) :
  NoDup l1 → NoDup l2 → NoDup (list_prod l1 l2).
Proof.
  intros H1 H2. induction H1 as [|x l1 Hx H1 IH]; cbn [list_prod].
  { constructor. }
  apply NoDup_app. split_and!; [|
    |done].
  - apply (NoDup_fmap_2_strong (pair x)); [|done]. by intros ?? _ _ [= ->].
  - intros [a b] Ha Hb. apply list_elem_of_fmap in Ha as (b' & [= -> ->] & _).
    apply list_elem_of_In, in_prod_iff in Hb as [Hb _].
    by apply list_elem_of_In in Hb.
Qed.

Lemma NoDup_all_cells H W : NoDup (all_cells H W).
Proof. apply NoDup_list_prod; apply NoDup_seqZ. Qed.

(** X14: on a rectangular grid, with the dimensions of the grid,
    [free_cells] raises nothing and lists, once each, the free cells
    that are not agent starts. *)
Theorem free_cells_spec (grid : grid_t) (starts : list cell) :
  rectangular grid →
  ∃ l, free_cells (len grid) (len (grid !!! 0%nat)) grid starts = Ok l ∧
       NoDup l ∧ ∀ c, c ∈ l ↔ is_free grid c ∧ c ∉ starts.
Proof.
  intros Hrect. eexists. split; [by apply free_cells_filter|]. split.
  - apply NoDup_filter, NoDup_all_cells.
  - intros c. rewrite list_elem_of_filter, elem_of_all_cells. unfold kept.
    rewrite andb_True, negb_True, bool_decide_spec.
    split; [tauto|]. intros [Hf Hn]. split; [done|].
    apply is_free_spec in Hf as [Hb _]. by apply in_bounds_spec.
Qed.

Lemma free_cells_spec_witness :
  ∃ l, free_cells 3 3 grid3 [(0, 0); (2, 2)] = Ok l ∧ NoDup l ∧
       ∀ c, c ∈ l ↔ is_free grid3 c ∧ c ∉ [(0, 0); (2, 2)].
Proof.
  apply (free_cells_spec grid3 [(0, 0); (2, 2)]). vm_compute. exact I.
Defined.

(** ** The whole script *)

Lemma walk_take grid w (i : nat) : walk grid w → walk grid (take i w).
Proof.
  revert w. induction i as [|i IH]; intros w Hw; [by rewrite take_0|].
  destruct w as [|x w]; [done|]. destruct w as [|y w]; [by destruct i|].
  apply walk_cons in Hw as (Hxy & Hy & Hw).
  destruct i as [|i]; [done|].
  change (take (S (S i)) (x :: y :: w)) with (x :: y :: take i w).
  apply walk_cons. split_and!; [done..|]. apply (IH (y :: w) Hw).
Qed.

(** Every cell of a walk is reachable from its first cell. *)
Lemma walk_elem_reachable grid s w c :
  head w = Some s → walk grid w → c ∈ w → reachable grid s c.
Proof.
  intros Hh Hw Hc. apply list_elem_of_split in Hc as (l1 & l2 & ->).
  exists (l1 ++ [c]). split_and!.
  - by destruct l1.
  - by rewrite last_snoc.
  - replace (l1 ++ [c]) with (take (S (length l1)) (l1 ++ c :: l2));
      [by apply walk_take|].
    rewrite take_app, take_ge by lia.
    by replace (S (length l1) - length l1)%nat with 1%nat by lia.
Qed.

Lemma script_run (grid : grid_t) (s0 s1 : cell) (dirty : list cell) :
  rectangular grid → len grid * len (grid !!! 0%nat) < BIG →
  is_free grid s0 → is_free grid s1 → s0 ∉ dirty → s1 ∉ dirty →
  ∃ asg paths st,
    script [s0; s1] dirty grid
    = (letM e := efficiency st in Ok (asg, paths, st, e)) ∧
    (∀ c, c ∈ cleaned st
          ↔ c ∈ dirty ∧ (reachable grid s0 c ∨ reachable grid s1 c)) ∧
    Z.of_nat (size (cleaned st)) ≤ total_steps st ∧
    (total_steps st = 0 ↔ cleaned st = ∅).
Proof.
  intros Hrect Hsize Hf0 Hf1 Hd0 Hd1.
  destruct (assign_tasks_state_rectangular [s0; s1] dirty grid s0 s1
              Hrect eq_refl eq_refl) as [sta Hsta].
  destruct (assign_tasks_state_Ok _ _ _ _ Hsta)
    as (s0' & s1' & [= <-] & [= <-] & Hinv & _).
  destruct (alloc_inv_plan _ _ _ _ _ 0 Hinv (or_introl eq_refl))
    as (p0 & Hp0 & _ & Hsub0).
  destruct (alloc_inv_plan _ _ _ _ _ 1 Hinv (or_intror eq_refl))
    as (p1 & Hp1 & _ & Hsub1).
  change (start_of s0 s1 0) with s0 in Hp0.
  change (start_of s0 s1 1) with s1 in Hp1.
  destruct (plan_full_path_walk _ _ _ _ Hp0) as (Hh0 & Hw0 & _).
  destruct (plan_full_path_walk _ _ _ _ Hp1) as (Hh1 & Hw1 & _).
  remember (<[0 := p0]> (<[1 := p1]> ∅) : gmap Z (list cell)) as paths
    eqn:Hpaths.
  assert (paths !!! 0 = p0) as E0 by (by rewrite Hpaths).
  assert (paths !!! 1 = p1) as E1 by (by rewrite Hpaths).
  assert ((len (paths !!! 0) ≤ 1 → s0 ∉ dirty) ∧
          (len (paths !!! 1) ≤ 1 → s1 ∉ dirty)) as [Hl0 Hl1] by done.
  destruct (simulate_end_size paths dirty s0 s1 Hl0 Hl1)
    as (st & Hsim & Hsize' & _).
  destruct (simulate_end_cleaned paths dirty s0 s1) as (st' & Hsim' & Hcl).
  assert (st' = st) as -> by congruence.
  destruct (simulate_end paths dirty s0 s1) as (st' & Hsim'' & Htot & _).
  assert (st' = st) as -> by congruence.
  rewrite E0, E1 in Hcl, Htot.
  exists (assignments sta), paths, st.
  assert (∀ c, c ∈ cleaned st ↔ c ∈ dirty ∧ (c ∈ tail p0 ∨ c ∈ tail p1))
    as Hcl'.
  { intros c. rewrite (Hcl c). split; [|tauto].
    intros [Hc [[?|[_ ->]]|[?|[_ ->]]]]; tauto. }
  assert (∀ c, c ∈ cleaned st
               ↔ c ∈ dirty ∧ (reachable grid s0 c ∨ reachable grid s1 c))
    as Hcr.
  { intros c. rewrite (Hcl' c). split.
    + intros [Hc [Ht|Ht]]; (split; [done|]).
      * left. apply (walk_elem_reachable grid s0 p0); [done..|].
        destruct p0; [done|]. by right.
      * right. apply (walk_elem_reachable grid s1 p1); [done..|].
        destruct p1; [done|]. by right.
    + intros [Hc Hreach]. split; [done|].
      destruct (alloc_reachable [s0; s1] dirty grid sta s0 s1
                  Hrect Hsize eq_refl eq_refl Hf0 Hf1 Hsta c Hc)
        as [_ Hasg].
      apply Hasg in Hreach. apply elem_of_app in Hreach as [Ha|Ha].
      * left. pose proof (elem_of_sublist _ _ _ Ha Hsub0) as Hin.
        destruct p0 as [|x q]; [done|]. injection Hh0 as ->.
        apply elem_of_cons in Hin as [->|Hin]; done.
      * right. pose proof (elem_of_sublist _ _ _ Ha Hsub1) as Hin.
        destruct p1 as [|x q]; [done|]. injection Hh1 as ->.
        apply elem_of_cons in Hin as [->|Hin]; done. }
  split_and!.
  - unfold script, assign_tasks. rewrite Hsta. cbn [res_bind].
    rewrite (py_index_lookup [s0; s1] 0 s0), (py_index_lookup [s0; s1] 1 s1)
      by done.
    cbn [res_bind]. rewrite Hp0. cbn [res_bind]. rewrite Hp1.
    cbn [res_bind]. rewrite <-Hpaths, Hsim. done.
  - done.
  - done.
  - split.
    + intros Hz. apply set_eq. intros c. rewrite (Hcl' c).
      assert (tail p0 = [] ∧ tail p1 = []) as [-> ->].
      { destruct p0 as [|x0 [|y0 q0]], p1 as [|x1 [|y1 q1]];
          unfold len in Htot; simpl in Htot; try done; lia. }
      split; [|by intros ?%elem_of_empty].
      intros [_ [H|H]]; by apply elem_of_nil in H.
    + intros Hempty.
      assert (∀ ag p, ag = 0 ∨ ag = 1 →
                plan_full_path (start_of s0 s1 ag) (assignments sta !!! ag)
                  grid = Ok p →
                assignments sta !!! ag `sublist_of` p →
                len p ≤ 1) as Hshort.
      { intros ag p Hag Hp Hsub.
        destruct (assignments sta !!! ag) as [|t ts] eqn:Hasg.
        { injection Hp as <-. done. }
        exfalso.
        assert (t ∈ assignments sta !!! ag) as Hin by (rewrite Hasg; left).
        assert (t ∈ dirty) as Ht.
        { apply elem_of_remove_dups. rewrite <-(a_perm _ _ _ _ _ Hinv).
          destruct Hag as [-> | ->]; rewrite !elem_of_app; auto. }
        destruct (a_agent _ _ _ _ _ Hinv ag Hag) as (_ & _ & _ & _ & Hall).
        apply Hall in Hin.
        assert (t ∈ cleaned st) as Hc.
        { apply Hcr. split; [done|].
          destruct Hag as [-> | ->]; [left|right]; exact Hin. }
        rewrite Hempty in Hc. by apply elem_of_empty in Hc. }
      pose proof (Hshort 0 p0 (or_introl eq_refl) Hp0 Hsub0).
      pose proof (Hshort 1 p1 (or_intror eq_refl) Hp1 Hsub1).
      lia.
Qed.

Lemma script_outcome (grid : grid_t) (s0 s1 : cell) (dirty : list cell) :
  rectangular grid → len grid * len (grid !!! 0%nat) < BIG →
  is_free grid s0 → is_free grid s1 → s0 ∉ dirty → s1 ∉ dirty →
  script_post grid s0 s1 dirty (script [s0; s1] dirty grid).
Proof.
  intros Hrect Hsize Hf0 Hf1 Hd0 Hd1.
  destruct (script_run grid s0 s1 dirty Hrect Hsize Hf0 Hf1 Hd0 Hd1)
    as (asg & paths & st & -> & Hcl & Hle & Hzero).
  unfold script_post, efficiency.
  destruct (Z.eqb_spec (total_steps st) 0) as [Hz|Hnz]; cbn [res_bind].
  - split; [done|]. intros c Hc.
    assert (c ∉ cleaned st) as Hn.
    { rewrite (proj1 Hzero Hz). apply not_elem_of_empty. }
    rewrite (Hcl c) in Hn. tauto.
  - split; [done|].
    assert (size (cleaned st) ≠ 0%nat) as Hne.
    { intros He%size_empty_iff%leibniz_equiv. by apply Hnz, Hzero. }
    unfold Qlt, Qle. simpl. lia.
Qed.

(** X12: the script from [assign_tasks] to [efficiency], on a rectangular
    grid of fewer than [1e9] cells with two free starts that are not
    dirty.  It cleans exactly the dirty cells that some walk joins to a
    start.  When there is such a cell the efficiency lies in (0, 1]; when
    there is none the division raises [ZeroDivisionError]; nothing else is
    raised. *)
Theorem script_cleans_reachable (grid : grid_t) (s0 s1 : cell)
    (dirty : list cell) :
  rectangular grid → len grid * len (grid !!! 0%nat) < BIG →
  is_free grid s0 → is_free grid s1 → s0 ∉ dirty → s1 ∉ dirty →
  match script [s0; s1] dirty grid with
  | Ok (asg, paths, st, e) =>
      (∀ c, c ∈ cleaned st
            ↔ c ∈ dirty ∧ (reachable grid s0 c ∨ reachable grid s1 c)) ∧
      (0 < e)%Q ∧ (e <= 1)%Q
  | Raise e =>
      e = ZeroDivisionError ∧
      ∀ c, c ∈ dirty → ¬ reachable grid s0 c ∧ ¬ reachable grid s1 c
  | OutOfFuel => False
  end.
Proof. apply script_outcome. Qed.

Lemma script_cleans_reachable_witness :
  match script [(0, 0); (2, 2)] [(0, 2); (1, 1)] grid3 with
  | Ok (asg, paths, st, e) =>
      (∀ c, c ∈ cleaned st
            ↔ c ∈ [(0, 2); (1, 1)]
              ∧ (reachable grid3 (0, 0) c ∨ reachable grid3 (2, 2) c)) ∧
      (0 < e)%Q ∧ (e <= 1)%Q
  | Raise e =>
      e = ZeroDivisionError ∧
      ∀ c, c ∈ [(0, 2); (1, 1)] →
           ¬ reachable grid3 (0, 0) c ∧ ¬ reachable grid3 (2, 2) c
  | OutOfFuel => False
  end.
Proof.
  apply (script_cleans_reachable grid3 (0, 0) (2, 2) [(0, 2); (1, 1)]).
  - vm_compute. exact I.
  - vm_compute. reflexivity.
  - vm_compute. exact I.
  - vm_compute. exact I.
  - intros H. apply elem_of_cons in H as [H|H]; [discriminate H|].
    apply elem_of_cons in H as [H|H]; [discriminate H|].
    by apply elem_of_nil in H.
  - intros H. apply elem_of_cons in H as [H|H]; [discriminate H|].
    apply elem_of_cons in H as [H|H]; [discriminate H|].
    by apply elem_of_nil in H.
Defined.

(** X15: the script from the clearing of the starts on, for any
    rectangular grid of fewer than [1e9] cells with the two starts in
    bounds and any dirty cells taken from [free_cells].  The set-up raises
    nothing, [free_cells] holds the free cells other than the starts, and
    the run cleans exactly the dirty cells some walk joins to a start; it
    fails only by [ZeroDivisionError], when no dirty cell can be
    reached. *)
Theorem script_from_setup (grid0 : grid_t) (s0 s1 : cell) :
  rectangular grid0 → len grid0 * len (grid0 !!! 0%nat) < BIG →
  in_bounds grid0 s0 → in_bounds grid0 s1 →
  ∃ grid fc,
    setup (len grid0) (len (grid0 !!! 0%nat)) grid0 [s0; s1]
    = Ok (grid, fc) ∧
    (∀ c, c ∈ fc ↔ is_free grid0 c ∧ c ≠ s0 ∧ c ≠ s1) ∧
    ∀ dirty, (∀ c, c ∈ dirty → c ∈ fc) →
      script_post grid s0 s1 dirty (script [s0; s1] dirty grid).
Proof.
  intros Hrect Hsize Hb0 Hb1.
  destruct (clear_starts_ok [s0; s1] grid0 Hrect)
    as (grid & Hgrid & Hshape & Hfree & _).
  { intros s [->|[->|H]%elem_of_cons]%elem_of_cons; [done..|].
    by apply elem_of_nil in H. }
  pose proof (shape_dims _ _ Hshape) as (Hl & Hw & Hr).
  assert (rectangular grid) as Hrect' by (by rewrite Hr).
  pose proof (free_cells_filter grid [s0; s1] Hrect') as Hfc.
  unfold len in *. rewrite Hl, Hw in Hfc.
  assert (∀ c, c ∈ filter (kept grid [s0; s1])
                     (all_cells (Z.of_nat (length grid0))
                        (Z.of_nat (length (grid0 !!! 0%nat))))
               ↔ is_free grid c ∧ c ∉ [s0; s1]) as Hmem.
  { intros c. rewrite list_elem_of_filter, elem_of_all_cells. unfold kept.
    rewrite andb_True, negb_True, bool_decide_spec.
    split; [tauto|]. intros [Hf Hn]. split; [done|].
    apply is_free_spec in Hf as [Hb _]. apply in_bounds_spec in Hb.
    unfold len in Hb. by rewrite Hl, Hw in Hb. }
  eexists grid, _. split_and!.
  - unfold setup. rewrite Hgrid. cbn [res_bind]. rewrite Hfc. done.
  - intros c. rewrite (Hmem c), (Hfree c), !not_elem_of_cons, !elem_of_cons.
    pose proof (not_elem_of_nil c). pose proof (elem_of_nil c). tauto.
  - intros dirty Hd. apply script_outcome.
    + done.
    + unfold len. by rewrite Hl, Hw.
    + apply Hfree. right. left.
    + apply Hfree. right. right. left.
    + intros H0%Hd%Hmem. destruct H0 as [_ H0]. apply H0. left.
    + intros H1%Hd%Hmem. destruct H1 as [_ H1]. apply H1. right. left.
Qed.

Lemma script_from_setup_witness :
  ∃ grid fc,
    setup 3 3 [[1; 0; 0]; [0; 1; 0]; [0; 0; 1]] [(0, 0); (2, 2)]
    = Ok (grid, fc) ∧
    (∀ c, c ∈ fc ↔
       is_free [[1; 0; 0]; [0; 1; 0]; [0; 0; 1]] c
       ∧ c ≠ (0, 0) ∧ c ≠ (2, 2)) ∧
    ∀ dirty, (∀ c, c ∈ dirty → c ∈ fc) →
      script_post grid (0, 0) (2, 2) dirty
        (script [(0, 0); (2, 2)] dirty grid).
Proof.
  apply (script_from_setup [[1; 0; 0]; [0; 1; 0]; [0; 0; 1]] (0, 0) (2, 2)).
  - vm_compute. exact I.
  - vm_compute. reflexivity.
  - vm_compute. exact I.
  - vm_compute. exact I.
Defined.
